(** * The OSL shader compiler of Cycles (intern/cycles/render/osl.cpp)

    A shallow embedding of the graph compiler and of the shader manager of
    [osl.cpp], and the properties of the dependency resolver, the node
    generator, the per-context compilation, the shader loader and the shared
    texture and shading systems; then the life of a manager, the nodes made
    from shader files, the names of the textures, the programs told to the
    shading system, the updates of the scene and of the device, and the
    arrays of vectors given as parameters. *)

From Stdlib Require Import ZArith String Ascii List Lia Bool.
From stdpp Require Import base option list gmap sets strings sorting pretty.

Set Warnings "-clear-no-such-hyp".

Local Open Scope string_scope.
Local Open Scope list_scope.
Local Open Scope Z_scope.

(** ** Shader graphs (render/graph.h, as far as osl.cpp reads them) *)

(** A [ShaderNode *] is the position of the node in the [nodes] of its graph. *)
Definition node_id := nat.

(** The compilation contexts, [enum ShaderType]. *)
Inductive ShaderType :=
| SHADER_TYPE_SURFACE
| SHADER_TYPE_VOLUME
| SHADER_TYPE_DISPLACEMENT
| SHADER_TYPE_BUMP.

(** [enum ShaderNodeSpecialType]; osl.cpp names the values OUTPUT and BUMP, the
    rest of the enumeration is declared in graph.h. *)
Inductive ShaderNodeSpecialType :=
| SHADER_SPECIAL_TYPE_NONE
| SHADER_SPECIAL_TYPE_OUTPUT
| SHADER_SPECIAL_TYPE_BUMP
| SHADER_SPECIAL_TYPE_OTHER (tag : nat).

(** [SocketType::Type], the values that [OSLCompiler::add] and
    [OSLCompiler::parameter] switch over. *)
Module SocketType.
Inductive Type_ :=
| UNDEFINED | BOOLEAN | FLOAT | INT | UINT | COLOR | VECTOR | POINT | NORMAL
| POINT2 | CLOSURE | STRING | ENUM | TRANSFORM | NODE
| BOOLEAN_ARRAY | FLOAT_ARRAY | INT_ARRAY | COLOR_ARRAY | VECTOR_ARRAY
| POINT_ARRAY | NORMAL_ARRAY | POINT2_ARRAY | STRING_ARRAY | TRANSFORM_ARRAY
| NODE_ARRAY.
End SocketType.

(** A [ShaderOutput]: the node that owns it and its name. *)
Record ShaderOutput := {
  parent : node_id;
  output_name : string
}.

(** A [ShaderInput]: [link] is the output it is connected to, if any. *)
Record ShaderInput := {
  input_name : string;
  input_flags : Z;
  input_type : SocketType.Type_;
  link : option ShaderOutput
}.

(** The calls that a node's [compile(OSLCompiler &)] override makes on the
    compiler. The overrides are in nodes.cpp; a node carries, for each
    context ([compiler.output_type()]), the calls of its override. *)
Inductive CompilerCall :=
| Call_parameter (param : string) (ty : SocketType.Type_)
| Call_add (shader_name : string) (isfilepath : bool).

(** A [ShaderNode] and the answers of its virtual queries. *)
Record ShaderNode := {
  special_type : ShaderNodeSpecialType;
  inputs : list ShaderInput;
  outputs : list string;
  node_compile_calls : ShaderType → list CompilerCall;
  node_has_surface_emission : bool;
  node_has_surface_transparent : bool;
  node_feature_raytrace : bool;
  node_has_spatial_varying : bool;
  node_has_surface_bssrdf : bool;
  node_has_bssrdf_bump : bool;
  node_has_bump : bool;
  node_has_attribute_dependency : bool;
  node_has_integrator_dependency : bool
}.

(** A [ShaderGraph]: its nodes and [output()]. *)
Record ShaderGraph := {
  nodes : list ShaderNode;
  output : node_id
}.

(** A node without sockets; it stands for a pointer that is not a node of
    the graph. *)
Definition no_node : ShaderNode :=
  {| special_type := SHADER_SPECIAL_TYPE_NONE; inputs := []; outputs := [];
     node_compile_calls := λ _, [];
     node_has_surface_emission := false; node_has_surface_transparent := false;
     node_feature_raytrace := false; node_has_spatial_varying := false;
     node_has_surface_bssrdf := false; node_has_bssrdf_bump := false;
     node_has_bump := false; node_has_attribute_dependency := false;
     node_has_integrator_dependency := false |}.

(** Dereference of a node pointer. *)
Definition node_at (g : ShaderGraph) (n : node_id) : ShaderNode :=
  default no_node (nodes g !! n).
Arguments node_at g n%_nat.

(** [ShaderNode::input(const char *name)]: the input of that name, or NULL. *)
Definition input (node : ShaderNode) (name : string) : option ShaderInput :=
  find (λ i, String.eqb (input_name i) name) (inputs node).

#[global] Instance ShaderType_eq_dec : EqDecision ShaderType.
Proof. solve_decision. Defined.

#[global] Instance ShaderNodeSpecialType_eq_dec : EqDecision ShaderNodeSpecialType.
Proof. solve_decision. Defined.

(** ** Outcomes

    A call returns, or it does not: [std::string::substr] throws
    [out_of_range], a NULL pointer is dereferenced, or the recursion or the
    loop is still running when the fuel of the model is spent. *)
Inductive failure := out_of_range | null_pointer | out_of_fuel.

Inductive outcome (A : Type) :=
| Ok (a : A)
| Fail (f : failure).
Arguments Ok {A} a.
Arguments Fail {A} f.

#[global] Instance outcome_ret : MRet outcome := λ A a, Ok a.
#[global] Instance outcome_bind : MBind outcome := λ A B k m,
  match m with
  | Ok a => k a
  | Fail f => Fail f
  end.

(** A loop over a container whose body may fail. *)
Fixpoint for_each {A S : Type} (body : S → A → outcome S) (s : S) (l : list A)
    : outcome S :=
  match l with
  | [] => Ok s
  | a :: l' => s' ← body s a; for_each body s' l'
  end.

(** ** The shading system and the loaded shaders *)

(** The calls on [OSL::ShadingSystem] that osl.cpp makes while it loads and
    compiles shaders. A layer is named by [OSLCompiler::id] of its node, which
    is the node's address with a prefix. *)
Inductive SSCall :=
| SS_LoadMemoryCompiledShader (name bytecode : string)
| SS_ShaderGroupBegin (name : string)
| SS_Parameter (name : string) (ty : SocketType.Type_)
| SS_Shader (usage name : string) (layer : node_id)
| SS_ConnectShaders (id_from : node_id) (param_from : string)
                    (id_to : node_id) (param_to : string)
| SS_ShaderGroupEnd.

(** An [OSL::ShaderGroupRef]: empty, or the group that the n-th
    [ShaderGroupBegin] of the shading system returned. *)
Definition ShaderGroupRef := option nat.

(** [struct OSLShaderInfo]: [info_query] is the bytecode on which the query
    was opened, if it was. *)
Record OSLShaderInfo := {
  info_query : option string;
  info_has_surface_emission : bool;
  info_has_surface_transparent : bool;
  info_has_surface_bssrdf : bool
}.

(** [OSLShaderInfo info;] *)
Definition OSLShaderInfo_new : OSLShaderInfo :=
  {| info_query := None; info_has_surface_emission := false;
     info_has_surface_transparent := false; info_has_surface_bssrdf := false |}.

(** ** The shared texture and shading systems *)

(** The value of an attribute of a shading system. *)
Inductive AttributeValue :=
| AttrInt (v : Z)
| AttrString (v : string)
| AttrStrings (v : list string).

(** An [OSL::TextureSystem], by the attributes it was given. *)
Record TextureSystem := {
  ts_attributes : list (string * Z)
}.

(** An [OSLRenderServices], by the texture system it was constructed with. *)
Record OSLRenderServices := {
  services_texture_system : option TextureSystem
}.

(** An [OSL::ShadingSystem], by the arguments of its constructor, its
    attributes and whether the closures are registered. *)
Record ShadingSystem := {
  ss_renderer : option OSLRenderServices;
  ss_texture_system : option TextureSystem;
  ss_attributes : list (string * AttributeValue);
  ss_closures_registered : bool
}.

(** The static members of [OSLShaderManager]. *)
Record Statics := {
  ts_shared : option TextureSystem;
  ts_shared_users : Z;
  ss_shared : option ShadingSystem;
  services_shared : option OSLRenderServices;
  ss_shared_users : Z
}.

(** The values of an [int], and the result of [++] and [--] on one. *)
Definition INT_MIN : Z := - 2 ^ 31.
Definition INT_MAX : Z := 2 ^ 31 - 1.
Definition wrap_int (z : Z) : Z := (z + 2 ^ 31) mod 2 ^ 32 - 2 ^ 31.

(** The names of the ray types that [shading_system_init] registers. *)
Definition raytypes : list string :=
  ["camera"; "reflection"; "refraction"; "diffuse"; "glossy"; "singular";
   "transparent"; "volume_scatter"; "shadow"; "shadow"; "__unused__";
   "__unused__"; "diffuse_ancestor"; "__unused__"; "__unused__"; "__unused__";
   "__unused__"; "__unused__"; "__unused__"; "__unused__"; "__unused__";
   "__unused__"; "__unused__"; "__unused__"; "__unused__"; "__unused__"].

(** ** What osl.cpp takes from the rest of Cycles and from OSL

    [SVM_INTERNAL] is the socket flag of node_type.h; the [path_*] functions
    are those of util_path ([path_get] and [path_user_get] for a
    sub-directory); [MD5_hex] is [MD5Hash::get_hex] of the bytes
    appended; [oslc] is what a run of [OSL::OSLCompiler::compile] on an input
    and an output path does to the files; [open_bytecode] is
    [OSLQuery::open_bytecode]; [finalize] is [ShaderGraph::finalize] for the
    scene of the compiler, with its three flags. *)
Class External := {
  SVM_INTERNAL : Z;
  FileSystem : Type;
  path_modified_time : FileSystem → string → Z;
  path_read_text : FileSystem → string → option string;
  path_dirname : string → string;
  path_join : string → string → string;
  path_user_get : string → string;
  path_get : string → string;
  MD5_hex : list Z → string;
  oslc : FileSystem → string → string → FileSystem;
  open_bytecode : string → bool;
  finalize : ShaderGraph → bool → bool → bool → ShaderGraph
}.

Section Policy.
Context `{Ext : External}.

(** ** The skip-input policy *)

(** [input->flags() & SocketType::SVM_INTERNAL] *)
Definition svm_internal (i : ShaderInput) : bool :=
  negb (Z.eqb (Z.land (input_flags i) SVM_INTERNAL) 0).

(** [OSLCompiler::node_skip_input], with [current_type] as [ty]. *)
Definition node_skip_input (g : ShaderGraph) (ty : ShaderType)
    (node : ShaderNode) (i : ShaderInput) : bool :=
  if svm_internal i then true
  else if bool_decide (special_type node = SHADER_SPECIAL_TYPE_OUTPUT) then
    if String.eqb (input_name i) "Surface" && negb (bool_decide (ty = SHADER_TYPE_SURFACE)) then true
    else if String.eqb (input_name i) "Volume" && negb (bool_decide (ty = SHADER_TYPE_VOLUME)) then true
    else if String.eqb (input_name i) "Displacement" && negb (bool_decide (ty = SHADER_TYPE_DISPLACEMENT)) then true
    else if String.eqb (input_name i) "Normal" && negb (bool_decide (ty = SHADER_TYPE_BUMP)) then true
    else false
  else if bool_decide (special_type node = SHADER_SPECIAL_TYPE_BUMP) then
    if String.eqb (input_name i) "Height" then true else false
  else if bool_decide (ty = SHADER_TYPE_DISPLACEMENT) then
    match link i with
    | Some l =>
        if bool_decide (special_type (node_at g (parent l)) = SHADER_SPECIAL_TYPE_BUMP)
        then true else false
    | None => false
    end
  else false.

(** The rows of the policy table, in the words of the specification. *)
Definition rule_internal (i : ShaderInput) : Prop :=
  svm_internal i = true.

Definition rule_output (ty : ShaderType) (node : ShaderNode) (i : ShaderInput) : Prop :=
  special_type node = SHADER_SPECIAL_TYPE_OUTPUT ∧
  ((input_name i = "Surface" ∧ ty ≠ SHADER_TYPE_SURFACE) ∨
   (input_name i = "Volume" ∧ ty ≠ SHADER_TYPE_VOLUME) ∨
   (input_name i = "Displacement" ∧ ty ≠ SHADER_TYPE_DISPLACEMENT) ∨
   (input_name i = "Normal" ∧ ty ≠ SHADER_TYPE_BUMP)).

Definition rule_bump_height (node : ShaderNode) (i : ShaderInput) : Prop :=
  special_type node = SHADER_SPECIAL_TYPE_BUMP ∧ input_name i = "Height".

Definition rule_from_bump (g : ShaderGraph) (ty : ShaderType) (i : ShaderInput) : Prop :=
  ty = SHADER_TYPE_DISPLACEMENT ∧
  ∃ l, link i = Some l ∧
       special_type (node_at g (parent l)) = SHADER_SPECIAL_TYPE_BUMP.

(** The policy as the table states it: the last row holds for any node. *)
Definition skip_rules_as_stated (g : ShaderGraph) (ty : ShaderType)
    (node : ShaderNode) (i : ShaderInput) : Prop :=
  rule_internal i ∨ rule_output ty node i ∨ rule_bump_height node i ∨
  rule_from_bump g ty i.

(** The policy of the code: the last row is reached only for a node that is
    neither the Output node nor a Bump node. *)
Definition skip_rules (g : ShaderGraph) (ty : ShaderType)
    (node : ShaderNode) (i : ShaderInput) : Prop :=
  rule_internal i ∨ rule_output ty node i ∨ rule_bump_height node i ∨
  (special_type node ≠ SHADER_SPECIAL_TYPE_OUTPUT ∧
   special_type node ≠ SHADER_SPECIAL_TYPE_BUMP ∧
   rule_from_bump g ty i).

End Policy.

(** [class OSLShaderManager]: its members [ts], [ss], [services] and
    [loaded_shaders], and what its methods act on: the calls the shading
    system has received and the groups it has begun, the files, and two logs:
    the paths given to [path_read_text] and the runs of [osl_compile]. *)
Record OSLShaderManager `{Ext : External} := {
  ts : option TextureSystem;
  ss : option ShadingSystem;
  services : option OSLRenderServices;
  loaded_shaders : gmap string OSLShaderInfo;
  ss_calls : list SSCall;
  groups_begun : nat;
  files : FileSystem;
  file_reads : list string;
  oslc_runs : list (string * string)
}.

Section Loader.
Context `{Ext : External}.

Definition set_loaded_shaders (v : gmap string OSLShaderInfo) (m : OSLShaderManager) :=
  {| ts := ts m; ss := ss m; services := services m; loaded_shaders := v; ss_calls := ss_calls m; groups_begun := groups_begun m;
     files := files m; file_reads := file_reads m; oslc_runs := oslc_runs m |}.

(** A call on [*ss]. *)
Definition ss_call (call : SSCall) (m : OSLShaderManager) :=
  {| ts := ts m; ss := ss m; services := services m;
     loaded_shaders := loaded_shaders m; ss_calls := ss_calls m ++ [call];
     groups_begun := groups_begun m;
     files := files m; file_reads := file_reads m; oslc_runs := oslc_runs m |}.

(** [ss->ShaderGroupBegin(name)] *)
Definition ShaderGroupBegin (name : string) (m : OSLShaderManager)
    : OSLShaderManager * ShaderGroupRef :=
  ({| ts := ts m; ss := ss m; services := services m;
      loaded_shaders := loaded_shaders m;
      ss_calls := ss_calls m ++ [SS_ShaderGroupBegin name];
      groups_begun := S (groups_begun m);
      files := files m; file_reads := file_reads m; oslc_runs := oslc_runs m |},
   Some (groups_begun m)).

(** [path_read_text(filepath, bytecode)], logged. *)
Definition read_text (filepath : string) (m : OSLShaderManager)
    : option string * OSLShaderManager :=
  (path_read_text (files m) filepath,
   {| ts := ts m; ss := ss m; services := services m;
      loaded_shaders := loaded_shaders m; ss_calls := ss_calls m;
      groups_begun := groups_begun m;
      files := files m; file_reads := file_reads m ++ [filepath];
      oslc_runs := oslc_runs m |}).

(** [OSLShaderManager::osl_compile(inputfile, outputfile)]; the callers drop
    its result. *)
Definition osl_compile (inputfile outputfile : string) (m : OSLShaderManager) :=
  {| ts := ts m; ss := ss m; services := services m;
     loaded_shaders := loaded_shaders m; ss_calls := ss_calls m;
     groups_begun := groups_begun m;
     files := oslc (files m) inputfile outputfile; file_reads := file_reads m;
     oslc_runs := oslc_runs m ++ [(inputfile, outputfile)] |}.

(** The bytes of a string, and the eight bytes of a [uint64_t] (least
    significant first). *)
Definition string_bytes (s : string) : list Z :=
  map (λ c, Z.of_nat (nat_of_ascii c)) (list_ascii_of_string s).

Definition uint64_bytes (t : Z) : list Z :=
  map (λ k, Z.land (Z.shiftr t (8 * Z.of_nat k)) 255) (seq 0 8).

(** [shader_filepath_hash] *)
Definition shader_filepath_hash (filepath : string) (modified_time : Z) : string :=
  MD5_hex (string_bytes filepath ++ uint64_bytes modified_time).

(** [OSLShaderManager::shader_test_loaded] *)
Definition shader_test_loaded (m : OSLShaderManager) (hash : string) : option string :=
  match loaded_shaders m !! hash with
  | None => None
  | Some _ => Some hash
  end.

(** [OSLShaderManager::shader_loaded_info] *)
Definition shader_loaded_info (m : OSLShaderManager) (hash : string)
    : option OSLShaderInfo :=
  loaded_shaders m !! hash.

(** [s.find(pattern) != string::npos] *)
Definition contains (s pattern : string) : bool :=
  match String.index 0 pattern s with
  | Some _ => true
  | None => false
  end.

(** A name between double quotes. *)
Definition quoted (s : string) : string :=
  String (ascii_of_nat 34) (s ++ String (ascii_of_nat 34) EmptyString)%string.

(** [OSLShaderManager::shader_load_bytecode] *)
Definition shader_load_bytecode (m : OSLShaderManager) (hash bytecode : string)
    : option string * OSLShaderManager :=
  let m := ss_call (SS_LoadMemoryCompiledShader hash bytecode) m in
  let info :=
    {| info_query := if open_bytecode bytecode then Some bytecode else None;
       info_has_surface_emission := contains bytecode (quoted "emission");
       info_has_surface_transparent := contains bytecode (quoted "transparent");
       info_has_surface_bssrdf := contains bytecode (quoted "bssrdf") |} in
  (Some hash, set_loaded_shaders (<[hash := info]> (loaded_shaders m)) m).

(** The end of [shader_load_filepath]: read the bytecode and load it, or
    leave an empty [OSLShaderInfo] under the hash. *)
Definition read_and_load (m : OSLShaderManager) (filepath : string)
    (modified_time : Z) : option string * OSLShaderManager :=
  let bytecode_hash := shader_filepath_hash filepath modified_time in
  match read_text filepath m with
  | (None, m) =>
      (None, set_loaded_shaders (<[bytecode_hash := OSLShaderInfo_new]> (loaded_shaders m)) m)
  | (Some bytecode, m) => shader_load_bytecode m bytecode_hash bytecode
  end.

(** [filepath.substr(len - 4)] and [filepath.substr(0, len - 4) + ".oso"] *)
Definition file_extension (filepath : string) : string :=
  substring (String.length filepath - 4) 4 filepath.

Definition oso_path (filepath : string) : string :=
  (substring 0 (String.length filepath - 4) filepath ++ ".oso")%string.

(** [OSLShaderManager::shader_load_filepath]. [filepath.substr(len - 4)]
    throws when the path has fewer than four characters. *)
Definition shader_load_filepath (m : OSLShaderManager) (filepath : string)
    : outcome (option string * OSLShaderManager) :=
  let len := String.length filepath in
  if (len <? 4)%nat then Fail out_of_range else
  let extension := file_extension filepath in
  let modified_time := path_modified_time (files m) filepath in
  if String.eqb extension ".osl" then
    let osopath := oso_path filepath in
    let oso_modified_time := path_modified_time (files m) osopath in
    match (if Z.eqb oso_modified_time 0 then None
           else shader_test_loaded m (shader_filepath_hash osopath oso_modified_time)) with
    | Some hash => Ok (Some hash, m)
    | None =>
        if Z.eqb oso_modified_time 0 || Z.ltb oso_modified_time modified_time then
          let m := osl_compile filepath osopath m in
          Ok (read_and_load m osopath (path_modified_time (files m) osopath))
        else
          Ok (read_and_load m osopath oso_modified_time)
    end
  else
    match (if String.eqb extension ".oso" then Some filepath
           else if String.eqb (path_dirname filepath) "" then
             Some (path_join (path_user_get "shaders") (filepath ++ ".oso")%string)
           else None) with
    | None => Ok (None, m)
    | Some filepath =>
        match shader_test_loaded m (shader_filepath_hash filepath modified_time) with
        | Some hash => Ok (Some hash, m)
        | None => Ok (read_and_load m filepath modified_time)
        end
    end.

(** The bytecode file that a path stands for, and the time that goes into
    the hash with it: the time of the .oso file for a .osl source, the time
    of the path as it was given otherwise. *)
Definition bytecode_path (filepath : string) : string :=
  if String.eqb (file_extension filepath) ".osl" then oso_path filepath
  else if String.eqb (file_extension filepath) ".oso" then filepath
  else path_join (path_user_get "shaders") (filepath ++ ".oso")%string.

Definition bytecode_time (fs : FileSystem) (filepath : string) : Z :=
  if String.eqb (file_extension filepath) ".osl"
  then path_modified_time fs (oso_path filepath)
  else path_modified_time fs filepath.

(** ** Acquiring and releasing the shared systems *)

Definition set_systems (t : option TextureSystem) (s : option ShadingSystem)
    (r : option OSLRenderServices) (m : OSLShaderManager) : OSLShaderManager :=
  {| ts := t; ss := s; services := r;
     loaded_shaders := loaded_shaders m; ss_calls := ss_calls m;
     groups_begun := groups_begun m; files := files m;
     file_reads := file_reads m; oslc_runs := oslc_runs m |}.

(** [TextureSystem::create(true)] and the four attributes set on it. *)
Definition TextureSystem_create : TextureSystem :=
  {| ts_attributes := [("automip", 1); ("autotile", 64); ("gray_to_rgb", 1);
                       ("max_memory_MB", 16384)] |}.

(** [OSLShaderManager::texture_system_init] *)
Definition texture_system_init (st : Statics) (m : OSLShaderManager)
    : Statics * OSLShaderManager :=
  let shared := if Z.eqb (ts_shared_users st) 0 then Some TextureSystem_create
                else ts_shared st in
  ({| ts_shared := shared;
      ts_shared_users := wrap_int (ts_shared_users st + 1);
      ss_shared := ss_shared st; services_shared := services_shared st;
      ss_shared_users := ss_shared_users st |},
   set_systems shared (ss m) (services m) m).

(** [OSLShaderManager::texture_system_free]; [ts_shared->invalidate_all]
    dereferences the shared pointer when the count has come to zero. *)
Definition texture_system_free (st : Statics) (m : OSLShaderManager)
    : outcome (Statics * OSLShaderManager) :=
  let users := wrap_int (ts_shared_users st - 1) in
  shared ← (if Z.eqb users 0 then
              match ts_shared st with
              | Some _ => Ok None
              | None => Fail null_pointer
              end
            else Ok (ts_shared st));
  Ok ({| ts_shared := shared; ts_shared_users := users;
         ss_shared := ss_shared st; services_shared := services_shared st;
         ss_shared_users := ss_shared_users st |},
      set_systems None (ss m) (services m) m).

(** The shading system that [shading_system_init] constructs and sets up. *)
Definition ShadingSystem_create (renderer : option OSLRenderServices)
    (texture_system : option TextureSystem) : ShadingSystem :=
  {| ss_renderer := renderer; ss_texture_system := texture_system;
     ss_attributes := [("lockgeom", AttrInt 1); ("commonspace", AttrString "world");
                       ("searchpath:shader", AttrString (path_get "shader"));
                       ("greedyjit", AttrInt 1); ("raytypes", AttrStrings raytypes)];
     ss_closures_registered := true |}.

(** [OSLShaderManager::shading_system_init] *)
Definition shading_system_init (st : Statics) (m : OSLShaderManager)
    : Statics * OSLShaderManager :=
  let fresh := Z.eqb (ss_shared_users st) 0 in
  let services_new := {| services_texture_system := ts_shared st |} in
  let services' := if fresh then Some services_new else services_shared st in
  let shared := if fresh then Some (ShadingSystem_create (Some services_new) (ts_shared st))
                else ss_shared st in
  let m := if fresh then set_loaded_shaders ∅ m else m in
  ({| ts_shared := ts_shared st; ts_shared_users := ts_shared_users st;
      ss_shared := shared; services_shared := services';
      ss_shared_users := wrap_int (ss_shared_users st + 1) |},
   set_systems (ts m) shared services' m).

(** [OSLShaderManager::shading_system_free] *)
Definition shading_system_free (st : Statics) (m : OSLShaderManager)
    : Statics * OSLShaderManager :=
  let users := wrap_int (ss_shared_users st - 1) in
  let gone := Z.eqb users 0 in
  ({| ts_shared := ts_shared st; ts_shared_users := ts_shared_users st;
      ss_shared := if gone then None else ss_shared st;
      services_shared := if gone then None else services_shared st;
      ss_shared_users := users |},
   set_systems (ts m) None None m).

(** The shared instance is there exactly while it has users. *)
Definition ts_invariant (st : Statics) : Prop :=
  is_Some (ts_shared st) ↔ 0 < ts_shared_users st.

Definition ss_invariant (st : Statics) : Prop :=
  (is_Some (ss_shared st) ↔ 0 < ss_shared_users st) ∧
  (is_Some (services_shared st) ↔ 0 < ss_shared_users st).

End Loader.


(** ** Shaders *)

(** [enum DisplacementMethod] (render/shader.h) *)
Inductive DisplacementMethod := DISPLACE_BUMP | DISPLACE_TRUE | DISPLACE_BOTH.

#[global] Instance DisplacementMethod_eq_dec : EqDecision DisplacementMethod.
Proof. solve_decision. Defined.

(** [class Shader] (render/shader.h): the members that osl.cpp reads and
    writes. [is_modified] and [reference_count] are the answers of the
    methods of [Node]. *)
Record Shader := {
  shader_name : string;
  graph : option ShaderGraph;
  is_modified : bool;
  reference_count : Z;
  displacement_method : DisplacementMethod;
  has_surface : bool;
  has_surface_emission : bool;
  has_surface_transparent : bool;
  has_surface_raytrace : bool;
  has_volume : bool;
  has_displacement : bool;
  has_surface_bssrdf : bool;
  has_bump : bool;
  has_bssrdf_bump : bool;
  has_surface_spatial_varying : bool;
  has_volume_spatial_varying : bool;
  has_volume_attribute_dependency : bool;
  has_integrator_dependency : bool;
  osl_surface_ref : ShaderGroupRef;
  osl_surface_bump_ref : ShaderGroupRef;
  osl_volume_ref : ShaderGroupRef;
  osl_displacement_ref : ShaderGroupRef
}.

Definition set_graph (v : option ShaderGraph) (s : Shader) : Shader :=
  {| shader_name := shader_name s; graph := v; is_modified := is_modified s;
     reference_count := reference_count s; displacement_method :=
     displacement_method s; has_surface := has_surface s; has_surface_emission
     := has_surface_emission s; has_surface_transparent :=
     has_surface_transparent s; has_surface_raytrace := has_surface_raytrace s;
     has_volume := has_volume s; has_displacement := has_displacement s;
     has_surface_bssrdf := has_surface_bssrdf s; has_bump := has_bump s;
     has_bssrdf_bump := has_bssrdf_bump s; has_surface_spatial_varying :=
     has_surface_spatial_varying s; has_volume_spatial_varying :=
     has_volume_spatial_varying s; has_volume_attribute_dependency :=
     has_volume_attribute_dependency s; has_integrator_dependency :=
     has_integrator_dependency s; osl_surface_ref := osl_surface_ref s;
     osl_surface_bump_ref := osl_surface_bump_ref s; osl_volume_ref :=
     osl_volume_ref s; osl_displacement_ref := osl_displacement_ref s |}.

Definition set_has_surface (v : bool) (s : Shader) : Shader :=
  {| shader_name := shader_name s; graph := graph s; is_modified := is_modified
     s; reference_count := reference_count s; displacement_method :=
     displacement_method s; has_surface := v; has_surface_emission :=
     has_surface_emission s; has_surface_transparent := has_surface_transparent
     s; has_surface_raytrace := has_surface_raytrace s; has_volume :=
     has_volume s; has_displacement := has_displacement s; has_surface_bssrdf
     := has_surface_bssrdf s; has_bump := has_bump s; has_bssrdf_bump :=
     has_bssrdf_bump s; has_surface_spatial_varying :=
     has_surface_spatial_varying s; has_volume_spatial_varying :=
     has_volume_spatial_varying s; has_volume_attribute_dependency :=
     has_volume_attribute_dependency s; has_integrator_dependency :=
     has_integrator_dependency s; osl_surface_ref := osl_surface_ref s;
     osl_surface_bump_ref := osl_surface_bump_ref s; osl_volume_ref :=
     osl_volume_ref s; osl_displacement_ref := osl_displacement_ref s |}.

Definition set_has_surface_emission (v : bool) (s : Shader) : Shader :=
  {| shader_name := shader_name s; graph := graph s; is_modified := is_modified
     s; reference_count := reference_count s; displacement_method :=
     displacement_method s; has_surface := has_surface s; has_surface_emission
     := v; has_surface_transparent := has_surface_transparent s;
     has_surface_raytrace := has_surface_raytrace s; has_volume := has_volume
     s; has_displacement := has_displacement s; has_surface_bssrdf :=
     has_surface_bssrdf s; has_bump := has_bump s; has_bssrdf_bump :=
     has_bssrdf_bump s; has_surface_spatial_varying :=
     has_surface_spatial_varying s; has_volume_spatial_varying :=
     has_volume_spatial_varying s; has_volume_attribute_dependency :=
     has_volume_attribute_dependency s; has_integrator_dependency :=
     has_integrator_dependency s; osl_surface_ref := osl_surface_ref s;
     osl_surface_bump_ref := osl_surface_bump_ref s; osl_volume_ref :=
     osl_volume_ref s; osl_displacement_ref := osl_displacement_ref s |}.

Definition set_has_surface_transparent (v : bool) (s : Shader) : Shader :=
  {| shader_name := shader_name s; graph := graph s; is_modified := is_modified
     s; reference_count := reference_count s; displacement_method :=
     displacement_method s; has_surface := has_surface s; has_surface_emission
     := has_surface_emission s; has_surface_transparent := v;
     has_surface_raytrace := has_surface_raytrace s; has_volume := has_volume
     s; has_displacement := has_displacement s; has_surface_bssrdf :=
     has_surface_bssrdf s; has_bump := has_bump s; has_bssrdf_bump :=
     has_bssrdf_bump s; has_surface_spatial_varying :=
     has_surface_spatial_varying s; has_volume_spatial_varying :=
     has_volume_spatial_varying s; has_volume_attribute_dependency :=
     has_volume_attribute_dependency s; has_integrator_dependency :=
     has_integrator_dependency s; osl_surface_ref := osl_surface_ref s;
     osl_surface_bump_ref := osl_surface_bump_ref s; osl_volume_ref :=
     osl_volume_ref s; osl_displacement_ref := osl_displacement_ref s |}.

Definition set_has_surface_raytrace (v : bool) (s : Shader) : Shader :=
  {| shader_name := shader_name s; graph := graph s; is_modified := is_modified
     s; reference_count := reference_count s; displacement_method :=
     displacement_method s; has_surface := has_surface s; has_surface_emission
     := has_surface_emission s; has_surface_transparent :=
     has_surface_transparent s; has_surface_raytrace := v; has_volume :=
     has_volume s; has_displacement := has_displacement s; has_surface_bssrdf
     := has_surface_bssrdf s; has_bump := has_bump s; has_bssrdf_bump :=
     has_bssrdf_bump s; has_surface_spatial_varying :=
     has_surface_spatial_varying s; has_volume_spatial_varying :=
     has_volume_spatial_varying s; has_volume_attribute_dependency :=
     has_volume_attribute_dependency s; has_integrator_dependency :=
     has_integrator_dependency s; osl_surface_ref := osl_surface_ref s;
     osl_surface_bump_ref := osl_surface_bump_ref s; osl_volume_ref :=
     osl_volume_ref s; osl_displacement_ref := osl_displacement_ref s |}.

Definition set_has_volume (v : bool) (s : Shader) : Shader :=
  {| shader_name := shader_name s; graph := graph s; is_modified := is_modified
     s; reference_count := reference_count s; displacement_method :=
     displacement_method s; has_surface := has_surface s; has_surface_emission
     := has_surface_emission s; has_surface_transparent :=
     has_surface_transparent s; has_surface_raytrace := has_surface_raytrace s;
     has_volume := v; has_displacement := has_displacement s;
     has_surface_bssrdf := has_surface_bssrdf s; has_bump := has_bump s;
     has_bssrdf_bump := has_bssrdf_bump s; has_surface_spatial_varying :=
     has_surface_spatial_varying s; has_volume_spatial_varying :=
     has_volume_spatial_varying s; has_volume_attribute_dependency :=
     has_volume_attribute_dependency s; has_integrator_dependency :=
     has_integrator_dependency s; osl_surface_ref := osl_surface_ref s;
     osl_surface_bump_ref := osl_surface_bump_ref s; osl_volume_ref :=
     osl_volume_ref s; osl_displacement_ref := osl_displacement_ref s |}.

Definition set_has_displacement (v : bool) (s : Shader) : Shader :=
  {| shader_name := shader_name s; graph := graph s; is_modified := is_modified
     s; reference_count := reference_count s; displacement_method :=
     displacement_method s; has_surface := has_surface s; has_surface_emission
     := has_surface_emission s; has_surface_transparent :=
     has_surface_transparent s; has_surface_raytrace := has_surface_raytrace s;
     has_volume := has_volume s; has_displacement := v; has_surface_bssrdf :=
     has_surface_bssrdf s; has_bump := has_bump s; has_bssrdf_bump :=
     has_bssrdf_bump s; has_surface_spatial_varying :=
     has_surface_spatial_varying s; has_volume_spatial_varying :=
     has_volume_spatial_varying s; has_volume_attribute_dependency :=
     has_volume_attribute_dependency s; has_integrator_dependency :=
     has_integrator_dependency s; osl_surface_ref := osl_surface_ref s;
     osl_surface_bump_ref := osl_surface_bump_ref s; osl_volume_ref :=
     osl_volume_ref s; osl_displacement_ref := osl_displacement_ref s |}.

Definition set_has_surface_bssrdf (v : bool) (s : Shader) : Shader :=
  {| shader_name := shader_name s; graph := graph s; is_modified := is_modified
     s; reference_count := reference_count s; displacement_method :=
     displacement_method s; has_surface := has_surface s; has_surface_emission
     := has_surface_emission s; has_surface_transparent :=
     has_surface_transparent s; has_surface_raytrace := has_surface_raytrace s;
     has_volume := has_volume s; has_displacement := has_displacement s;
     has_surface_bssrdf := v; has_bump := has_bump s; has_bssrdf_bump :=
     has_bssrdf_bump s; has_surface_spatial_varying :=
     has_surface_spatial_varying s; has_volume_spatial_varying :=
     has_volume_spatial_varying s; has_volume_attribute_dependency :=
     has_volume_attribute_dependency s; has_integrator_dependency :=
     has_integrator_dependency s; osl_surface_ref := osl_surface_ref s;
     osl_surface_bump_ref := osl_surface_bump_ref s; osl_volume_ref :=
     osl_volume_ref s; osl_displacement_ref := osl_displacement_ref s |}.

Definition set_has_bump (v : bool) (s : Shader) : Shader :=
  {| shader_name := shader_name s; graph := graph s; is_modified := is_modified
     s; reference_count := reference_count s; displacement_method :=
     displacement_method s; has_surface := has_surface s; has_surface_emission
     := has_surface_emission s; has_surface_transparent :=
     has_surface_transparent s; has_surface_raytrace := has_surface_raytrace s;
     has_volume := has_volume s; has_displacement := has_displacement s;
     has_surface_bssrdf := has_surface_bssrdf s; has_bump := v; has_bssrdf_bump
     := has_bssrdf_bump s; has_surface_spatial_varying :=
     has_surface_spatial_varying s; has_volume_spatial_varying :=
     has_volume_spatial_varying s; has_volume_attribute_dependency :=
     has_volume_attribute_dependency s; has_integrator_dependency :=
     has_integrator_dependency s; osl_surface_ref := osl_surface_ref s;
     osl_surface_bump_ref := osl_surface_bump_ref s; osl_volume_ref :=
     osl_volume_ref s; osl_displacement_ref := osl_displacement_ref s |}.

Definition set_has_bssrdf_bump (v : bool) (s : Shader) : Shader :=
  {| shader_name := shader_name s; graph := graph s; is_modified := is_modified
     s; reference_count := reference_count s; displacement_method :=
     displacement_method s; has_surface := has_surface s; has_surface_emission
     := has_surface_emission s; has_surface_transparent :=
     has_surface_transparent s; has_surface_raytrace := has_surface_raytrace s;
     has_volume := has_volume s; has_displacement := has_displacement s;
     has_surface_bssrdf := has_surface_bssrdf s; has_bump := has_bump s;
     has_bssrdf_bump := v; has_surface_spatial_varying :=
     has_surface_spatial_varying s; has_volume_spatial_varying :=
     has_volume_spatial_varying s; has_volume_attribute_dependency :=
     has_volume_attribute_dependency s; has_integrator_dependency :=
     has_integrator_dependency s; osl_surface_ref := osl_surface_ref s;
     osl_surface_bump_ref := osl_surface_bump_ref s; osl_volume_ref :=
     osl_volume_ref s; osl_displacement_ref := osl_displacement_ref s |}.

Definition set_has_surface_spatial_varying (v : bool) (s : Shader) : Shader :=
  {| shader_name := shader_name s; graph := graph s; is_modified := is_modified
     s; reference_count := reference_count s; displacement_method :=
     displacement_method s; has_surface := has_surface s; has_surface_emission
     := has_surface_emission s; has_surface_transparent :=
     has_surface_transparent s; has_surface_raytrace := has_surface_raytrace s;
     has_volume := has_volume s; has_displacement := has_displacement s;
     has_surface_bssrdf := has_surface_bssrdf s; has_bump := has_bump s;
     has_bssrdf_bump := has_bssrdf_bump s; has_surface_spatial_varying := v;
     has_volume_spatial_varying := has_volume_spatial_varying s;
     has_volume_attribute_dependency := has_volume_attribute_dependency s;
     has_integrator_dependency := has_integrator_dependency s; osl_surface_ref
     := osl_surface_ref s; osl_surface_bump_ref := osl_surface_bump_ref s;
     osl_volume_ref := osl_volume_ref s; osl_displacement_ref :=
     osl_displacement_ref s |}.

Definition set_has_volume_spatial_varying (v : bool) (s : Shader) : Shader :=
  {| shader_name := shader_name s; graph := graph s; is_modified := is_modified
     s; reference_count := reference_count s; displacement_method :=
     displacement_method s; has_surface := has_surface s; has_surface_emission
     := has_surface_emission s; has_surface_transparent :=
     has_surface_transparent s; has_surface_raytrace := has_surface_raytrace s;
     has_volume := has_volume s; has_displacement := has_displacement s;
     has_surface_bssrdf := has_surface_bssrdf s; has_bump := has_bump s;
     has_bssrdf_bump := has_bssrdf_bump s; has_surface_spatial_varying :=
     has_surface_spatial_varying s; has_volume_spatial_varying := v;
     has_volume_attribute_dependency := has_volume_attribute_dependency s;
     has_integrator_dependency := has_integrator_dependency s; osl_surface_ref
     := osl_surface_ref s; osl_surface_bump_ref := osl_surface_bump_ref s;
     osl_volume_ref := osl_volume_ref s; osl_displacement_ref :=
     osl_displacement_ref s |}.

Definition set_has_volume_attribute_dependency (v : bool) (s : Shader) : Shader :=
  {| shader_name := shader_name s; graph := graph s; is_modified := is_modified
     s; reference_count := reference_count s; displacement_method :=
     displacement_method s; has_surface := has_surface s; has_surface_emission
     := has_surface_emission s; has_surface_transparent :=
     has_surface_transparent s; has_surface_raytrace := has_surface_raytrace s;
     has_volume := has_volume s; has_displacement := has_displacement s;
     has_surface_bssrdf := has_surface_bssrdf s; has_bump := has_bump s;
     has_bssrdf_bump := has_bssrdf_bump s; has_surface_spatial_varying :=
     has_surface_spatial_varying s; has_volume_spatial_varying :=
     has_volume_spatial_varying s; has_volume_attribute_dependency := v;
     has_integrator_dependency := has_integrator_dependency s; osl_surface_ref
     := osl_surface_ref s; osl_surface_bump_ref := osl_surface_bump_ref s;
     osl_volume_ref := osl_volume_ref s; osl_displacement_ref :=
     osl_displacement_ref s |}.

Definition set_has_integrator_dependency (v : bool) (s : Shader) : Shader :=
  {| shader_name := shader_name s; graph := graph s; is_modified := is_modified
     s; reference_count := reference_count s; displacement_method :=
     displacement_method s; has_surface := has_surface s; has_surface_emission
     := has_surface_emission s; has_surface_transparent :=
     has_surface_transparent s; has_surface_raytrace := has_surface_raytrace s;
     has_volume := has_volume s; has_displacement := has_displacement s;
     has_surface_bssrdf := has_surface_bssrdf s; has_bump := has_bump s;
     has_bssrdf_bump := has_bssrdf_bump s; has_surface_spatial_varying :=
     has_surface_spatial_varying s; has_volume_spatial_varying :=
     has_volume_spatial_varying s; has_volume_attribute_dependency :=
     has_volume_attribute_dependency s; has_integrator_dependency := v;
     osl_surface_ref := osl_surface_ref s; osl_surface_bump_ref :=
     osl_surface_bump_ref s; osl_volume_ref := osl_volume_ref s;
     osl_displacement_ref := osl_displacement_ref s |}.

Definition set_osl_surface_ref (v : ShaderGroupRef) (s : Shader) : Shader :=
  {| shader_name := shader_name s; graph := graph s; is_modified := is_modified
     s; reference_count := reference_count s; displacement_method :=
     displacement_method s; has_surface := has_surface s; has_surface_emission
     := has_surface_emission s; has_surface_transparent :=
     has_surface_transparent s; has_surface_raytrace := has_surface_raytrace s;
     has_volume := has_volume s; has_displacement := has_displacement s;
     has_surface_bssrdf := has_surface_bssrdf s; has_bump := has_bump s;
     has_bssrdf_bump := has_bssrdf_bump s; has_surface_spatial_varying :=
     has_surface_spatial_varying s; has_volume_spatial_varying :=
     has_volume_spatial_varying s; has_volume_attribute_dependency :=
     has_volume_attribute_dependency s; has_integrator_dependency :=
     has_integrator_dependency s; osl_surface_ref := v; osl_surface_bump_ref :=
     osl_surface_bump_ref s; osl_volume_ref := osl_volume_ref s;
     osl_displacement_ref := osl_displacement_ref s |}.

Definition set_osl_surface_bump_ref (v : ShaderGroupRef) (s : Shader) : Shader :=
  {| shader_name := shader_name s; graph := graph s; is_modified := is_modified
     s; reference_count := reference_count s; displacement_method :=
     displacement_method s; has_surface := has_surface s; has_surface_emission
     := has_surface_emission s; has_surface_transparent :=
     has_surface_transparent s; has_surface_raytrace := has_surface_raytrace s;
     has_volume := has_volume s; has_displacement := has_displacement s;
     has_surface_bssrdf := has_surface_bssrdf s; has_bump := has_bump s;
     has_bssrdf_bump := has_bssrdf_bump s; has_surface_spatial_varying :=
     has_surface_spatial_varying s; has_volume_spatial_varying :=
     has_volume_spatial_varying s; has_volume_attribute_dependency :=
     has_volume_attribute_dependency s; has_integrator_dependency :=
     has_integrator_dependency s; osl_surface_ref := osl_surface_ref s;
     osl_surface_bump_ref := v; osl_volume_ref := osl_volume_ref s;
     osl_displacement_ref := osl_displacement_ref s |}.

Definition set_osl_volume_ref (v : ShaderGroupRef) (s : Shader) : Shader :=
  {| shader_name := shader_name s; graph := graph s; is_modified := is_modified
     s; reference_count := reference_count s; displacement_method :=
     displacement_method s; has_surface := has_surface s; has_surface_emission
     := has_surface_emission s; has_surface_transparent :=
     has_surface_transparent s; has_surface_raytrace := has_surface_raytrace s;
     has_volume := has_volume s; has_displacement := has_displacement s;
     has_surface_bssrdf := has_surface_bssrdf s; has_bump := has_bump s;
     has_bssrdf_bump := has_bssrdf_bump s; has_surface_spatial_varying :=
     has_surface_spatial_varying s; has_volume_spatial_varying :=
     has_volume_spatial_varying s; has_volume_attribute_dependency :=
     has_volume_attribute_dependency s; has_integrator_dependency :=
     has_integrator_dependency s; osl_surface_ref := osl_surface_ref s;
     osl_surface_bump_ref := osl_surface_bump_ref s; osl_volume_ref := v;
     osl_displacement_ref := osl_displacement_ref s |}.

Definition set_osl_displacement_ref (v : ShaderGroupRef) (s : Shader) : Shader :=
  {| shader_name := shader_name s; graph := graph s; is_modified := is_modified
     s; reference_count := reference_count s; displacement_method :=
     displacement_method s; has_surface := has_surface s; has_surface_emission
     := has_surface_emission s; has_surface_transparent :=
     has_surface_transparent s; has_surface_raytrace := has_surface_raytrace s;
     has_volume := has_volume s; has_displacement := has_displacement s;
     has_surface_bssrdf := has_surface_bssrdf s; has_bump := has_bump s;
     has_bssrdf_bump := has_bssrdf_bump s; has_surface_spatial_varying :=
     has_surface_spatial_varying s; has_volume_spatial_varying :=
     has_volume_spatial_varying s; has_volume_attribute_dependency :=
     has_volume_attribute_dependency s; has_integrator_dependency :=
     has_integrator_dependency s; osl_surface_ref := osl_surface_ref s;
     osl_surface_bump_ref := osl_surface_bump_ref s; osl_volume_ref :=
     osl_volume_ref s; osl_displacement_ref := v |}.

(** ** The graph compiler *)

(** [class OSLCompiler]: the manager (and through it the shading system),
    [current_type], the shader that [current_shader] points to, and the log
    of the nodes whose [compile] was called. *)
Record OSLCompiler `{Ext : External} := {
  manager : OSLShaderManager;
  current_type : ShaderType;
  current_shader : option Shader;
  node_compiles : list node_id
}.

Section Compiler.
Context `{Ext : External}.

Definition set_manager (v : OSLShaderManager) (c : OSLCompiler) : OSLCompiler :=
  {| manager := v; current_type := current_type c;
     current_shader := current_shader c; node_compiles := node_compiles c |}.

Definition set_current_type (v : ShaderType) (c : OSLCompiler) : OSLCompiler :=
  {| manager := manager c; current_type := v;
     current_shader := current_shader c; node_compiles := node_compiles c |}.

Definition set_current_shader (v : option Shader) (c : OSLCompiler) : OSLCompiler :=
  {| manager := manager c; current_type := current_type c;
     current_shader := v; node_compiles := node_compiles c |}.

Definition log_node_compile (n : node_id) (c : OSLCompiler) : OSLCompiler :=
  {| manager := manager c; current_type := current_type c;
     current_shader := current_shader c; node_compiles := node_compiles c ++ [n] |}.

(** A call on the shading system of the compiler. *)
Definition ss_do (call : SSCall) (c : OSLCompiler) : OSLCompiler :=
  set_manager (ss_call call (manager c)) c.

(** [current_shader->member = value] *)
Definition on_shader (f : Shader → Shader) (c : OSLCompiler) : outcome OSLCompiler :=
  match current_shader c with
  | Some s => Ok (set_current_shader (Some (f s)) c)
  | None => Fail null_pointer
  end.

(** [if (b) statement] *)
Definition when (b : bool) (k : OSLCompiler → outcome OSLCompiler) (c : OSLCompiler)
    : outcome OSLCompiler :=
  if b then k c else Ok c.

(** The loop that deletes the blanks of a socket name. *)
Fixpoint strip_whitespace (s : string) : string :=
  match s with
  | EmptyString => EmptyString
  | String c s' =>
      if Ascii.eqb c " "%char then strip_whitespace s'
      else String c (strip_whitespace s')
  end.

(** [OSLCompiler::compatible_name(node, input)] *)
Definition compatible_name_input (node : ShaderNode) (i : ShaderInput) : string :=
  let sname := strip_whitespace (input_name i) in
  if existsb (λ o, String.eqb (input_name i) o) (outputs node)
  then (sname ++ "In")%string else sname.

(** [OSLCompiler::compatible_name(node, output)] *)
Definition compatible_name_output (node : ShaderNode) (o : string) : string :=
  let sname := strip_whitespace o in
  if existsb (λ i, String.eqb (input_name i) o) (inputs node)
  then (sname ++ "Out")%string else sname.

(** The socket types for which [add] passes the value of an unlinked input. *)
Definition add_passes_value (t : SocketType.Type_) : bool :=
  match t with
  | SocketType.COLOR | SocketType.POINT | SocketType.VECTOR | SocketType.NORMAL
  | SocketType.FLOAT | SocketType.INT | SocketType.STRING => true
  | _ => false
  end.

(** The first argument of [ss->Shader] in [add]. *)
Definition shader_usage (ty : ShaderType) : string :=
  match ty with
  | SHADER_TYPE_SURFACE | SHADER_TYPE_VOLUME => "surface"
  | SHADER_TYPE_DISPLACEMENT | SHADER_TYPE_BUMP => "displacement"
  end.

(** The end of [add]: what the layer tells about the shader. *)
Definition add_flags (node : ShaderNode) (info : option OSLShaderInfo)
    (c : OSLCompiler) : outcome OSLCompiler :=
  c ← match current_type c with
      | SHADER_TYPE_SURFACE =>
          c ← match info with
              | Some info =>
                  c ← when (info_has_surface_emission info)
                        (on_shader (set_has_surface_emission true)) c;
                  c ← when (info_has_surface_transparent info)
                        (on_shader (set_has_surface_transparent true)) c;
                  c ← when (info_has_surface_bssrdf info)
                        (λ c, c ← on_shader (set_has_surface_bssrdf true) c;
                              on_shader (set_has_bssrdf_bump true) c) c;
                  c ← on_shader (set_has_bump true) c;
                  on_shader (set_has_surface_raytrace true) c
              | None => Ok c
              end;
          when (node_has_spatial_varying node)
            (on_shader (set_has_surface_spatial_varying true)) c
      | SHADER_TYPE_VOLUME =>
          c ← when (node_has_spatial_varying node)
                (on_shader (set_has_volume_spatial_varying true)) c;
          when (node_has_attribute_dependency node)
            (on_shader (set_has_volume_attribute_dependency true)) c
      | _ => Ok c
      end;
  when (node_has_integrator_dependency node)
    (on_shader (set_has_integrator_dependency true)) c.

(** The first loop of [add]: pass in fixed parameter values. *)
Definition add_parameters (g : ShaderGraph) (n : node_id) (c : OSLCompiler)
    : OSLCompiler :=
  let node := node_at g n in
  foldl (λ c i,
      match link i with
      | None =>
          if node_skip_input g (current_type c) node i then c
          else if add_passes_value (input_type i)
          then ss_do (SS_Parameter (compatible_name_input node i) (input_type i)) c
          else c
      | Some _ => c
      end) c (inputs node).

(** The second loop of [add]: link inputs to other nodes. *)
Definition add_connections (g : ShaderGraph) (n : node_id) (c : OSLCompiler)
    : OSLCompiler :=
  let node := node_at g n in
  foldl (λ c i,
      match link i with
      | Some l =>
          if node_skip_input g (current_type c) node i then c
          else ss_do (SS_ConnectShaders
                        (parent l)
                        (compatible_name_output (node_at g (parent l)) (output_name l))
                        n
                        (compatible_name_input node i)) c
      | None => c
      end) c (inputs node).

(** [OSLCompiler::add(node, name, isfilepath)] for the node [n] of [g]. *)
Definition add (g : ShaderGraph) (c : OSLCompiler) (n : node_id)
    (name : string) (isfilepath : bool) : outcome OSLCompiler :=
  '(loaded, m) ← (if isfilepath then shader_load_filepath (manager c) name
                  else Ok (Some name, manager c));
  let c := set_manager m c in
  match loaded with
  | None => Ok c
  | Some name =>
      let c := add_parameters g n c in
      let c := ss_do (SS_Shader (shader_usage (current_type c)) name n) c in
      let c := add_connections g n c in
      add_flags (node_at g n) (shader_loaded_info (manager c) name) c
  end.

(** [node->compile] for the node [n] of [g]: the calls of its override
    for the current context. *)
Definition node_compile (g : ShaderGraph) (c : OSLCompiler) (n : node_id)
    : outcome OSLCompiler :=
  for_each (λ c call,
      match call with
      | Call_parameter param ty => Ok (ss_do (SS_Parameter param ty) c)
      | Call_add name isfilepath => add g c n name isfilepath
      end)
    (log_node_compile n c)
    (node_compile_calls (node_at g n) (current_type c)).

(** [OSLCompiler::find_dependencies]; [fuel] bounds the depth of the
    recursion. *)
Fixpoint find_dependencies (fuel : nat) (g : ShaderGraph) (ty : ShaderType)
    (dependencies : gset node_id) (i : ShaderInput) : outcome (gset node_id) :=
  match link i with
  | None => Ok dependencies
  | Some l =>
      let n := parent l in
      if bool_decide (n ∈ dependencies) then Ok dependencies
      else match fuel with
           | O => Fail out_of_fuel
           | S fuel' =>
               dependencies ←
                 for_each (λ dependencies i',
                     if node_skip_input g ty (node_at g n) i' then Ok dependencies
                     else find_dependencies fuel' g ty dependencies i')
                   dependencies (inputs (node_at g n));
               Ok ({[n]} ∪ dependencies)
           end
  end.

(** The test of [generate_nodes] on the inputs of a node. *)
Definition inputs_done (g : ShaderGraph) (ty : ShaderType) (done : gset node_id)
    (node : ShaderNode) : bool :=
  forallb (λ i,
      node_skip_input g ty node i ||
      match link i with
      | Some l => bool_decide (parent l ∈ done)
      | None => true
      end) (inputs node).

(** What [generate_nodes] tells about the shader after it compiled a node. *)
Definition generate_flags (node : ShaderNode) (c : OSLCompiler) : outcome OSLCompiler :=
  match current_type c with
  | SHADER_TYPE_SURFACE =>
      c ← when (node_has_surface_emission node)
            (on_shader (set_has_surface_emission true)) c;
      c ← when (node_has_surface_transparent node)
            (on_shader (set_has_surface_transparent true)) c;
      c ← when (node_feature_raytrace node)
            (on_shader (set_has_surface_raytrace true)) c;
      c ← when (node_has_spatial_varying node)
            (on_shader (set_has_surface_spatial_varying true)) c;
      c ← when (node_has_surface_bssrdf node)
            (λ c, c ← on_shader (set_has_surface_bssrdf true) c;
                  when (node_has_bssrdf_bump node)
                    (on_shader (set_has_bssrdf_bump true)) c) c;
      when (node_has_bump node) (on_shader (set_has_bump true)) c
  | SHADER_TYPE_VOLUME =>
      when (node_has_spatial_varying node)
        (on_shader (set_has_volume_spatial_varying true)) c
  | _ => Ok c
  end.

(** The state of one scan of [generate_nodes]. *)
Record Scan := {
  done_set : gset node_id;
  nodes_done : bool;
  compiler : OSLCompiler
}.

(** The body of the [foreach] over the nodes. *)
Definition generate_node (g : ShaderGraph) (s : Scan) (n : node_id) : outcome Scan :=
  if bool_decide (n ∈ done_set s) then Ok s
  else if inputs_done g (current_type (compiler s)) (done_set s) (node_at g n) then
    c ← node_compile g (compiler s) n;
    c ← generate_flags (node_at g n) c;
    Ok {| done_set := {[n]} ∪ done_set s; nodes_done := nodes_done s; compiler := c |}
  else Ok {| done_set := done_set s; nodes_done := false; compiler := compiler s |}.

(** One pass of the [do] loop. *)
Definition generate_pass (g : ShaderGraph) (nodes : list node_id)
    (done : gset node_id) (c : OSLCompiler) : outcome Scan :=
  for_each (generate_node g) {| done_set := done; nodes_done := true; compiler := c |} nodes.

(** The [do ... while (!nodes_done)] loop; [fuel] bounds the passes. *)
Fixpoint generate_loop (fuel : nat) (g : ShaderGraph) (nodes : list node_id)
    (done : gset node_id) (c : OSLCompiler) : outcome OSLCompiler :=
  match fuel with
  | O => Fail out_of_fuel
  | S fuel' =>
      s ← generate_pass g nodes done c;
      if nodes_done s then Ok (compiler s)
      else generate_loop fuel' g nodes (done_set s) (compiler s)
  end.

(** [OSLCompiler::generate_nodes]; [nodes] lists the set in the order of its
    iteration. *)
Definition generate_nodes (fuel : nat) (g : ShaderGraph) (nodes : list node_id)
    (c : OSLCompiler) : outcome OSLCompiler :=
  generate_loop fuel g nodes ∅ c.

(** The iteration of a [ShaderNodeSet], in the order of the nodes. *)
Definition iteration (s : gset node_id) : list node_id :=
  merge_sort (≤)%nat (elements s).

(** The input of the Output node from which a context is compiled. *)
Definition context_input (ty : ShaderType) : string :=
  match ty with
  | SHADER_TYPE_SURFACE => "Surface"
  | SHADER_TYPE_BUMP => "Normal"
  | SHADER_TYPE_VOLUME => "Volume"
  | SHADER_TYPE_DISPLACEMENT => "Displacement"
  end.

(** [OSLCompiler::compile_type(shader, graph, type)] *)
Definition compile_type (fuel : nat) (c : OSLCompiler) (name : string)
    (g : ShaderGraph) (ty : ShaderType) : outcome (OSLCompiler * ShaderGroupRef) :=
  let c := set_current_type ty c in
  let '(m, group) := ShaderGroupBegin name (manager c) in
  let c := set_manager m c in
  match input (node_at g (output g)) (context_input ty) with
  | None => Fail null_pointer
  | Some i =>
      dependencies ← find_dependencies fuel g (current_type c) ∅ i;
      c ← generate_nodes fuel g (iteration dependencies) c;
      c ← node_compile g c (output g);
      Ok (ss_do SS_ShaderGroupEnd c, group)
  end.

(** [output->input(name)->link] as a truth value. *)
Definition input_linked (node : ShaderNode) (name : string) : outcome bool :=
  match input node name with
  | None => Fail null_pointer
  | Some i => Ok (bool_decide (is_Some (link i)))
  end.

(** [shader->reference_count() && graph && output->input(name)->link] *)
Definition context_wanted (shader : Shader) (node : ShaderNode) (name : string)
    : outcome bool :=
  if Z.eqb (reference_count shader) 0 then Ok false
  else input_linked node name.

(** The [has_bump] of [compile]: the displacement is not true displacement
    and the Surface and Displacement inputs of the Output node are linked. *)
Definition bump_wanted (shader : Shader) (g : ShaderGraph) : outcome bool :=
  if bool_decide (displacement_method shader ≠ DISPLACE_TRUE) then
    surface ← input_linked (node_at g (output g)) "Surface";
    if (surface : bool) then input_linked (node_at g (output g)) "Displacement"
    else Ok false
  else Ok false.

(** The graph after [shader->graph->finalize(...)]. *)
Definition finalized (shader : Shader) (g : ShaderGraph) (bump : bool) : ShaderGraph :=
  finalize g bump (has_integrator_dependency shader)
    (bool_decide (displacement_method shader = DISPLACE_BOTH)).

(** The twelve assignments before the contexts are compiled. *)
Definition reset_flags (bump : bool) (s : Shader) : Shader :=
  set_has_integrator_dependency false
  (set_has_volume_attribute_dependency false
  (set_has_volume_spatial_varying false
  (set_has_surface_spatial_varying false
  (set_has_displacement false
  (set_has_volume false
  (set_has_bssrdf_bump bump
  (set_has_bump bump
  (set_has_surface_bssrdf false
  (set_has_surface_transparent false
  (set_has_surface_emission false
  (set_has_surface false s))))))))))).

(** "generate surface shader": [out] is the Output node that [compile] took
    from the graph before it was finalized. *)
Definition compile_surface (fuel : nat) (shader : Shader) (g : ShaderGraph)
    (out : node_id) (bump : bool) (c : OSLCompiler) : outcome OSLCompiler :=
  wanted ← context_wanted shader (node_at g out) "Surface";
  if (wanted : bool) then
    '(c, group) ← compile_type fuel c (shader_name shader) g SHADER_TYPE_SURFACE;
    c ← on_shader (set_osl_surface_ref group) c;
    c ← (if bump then
           '(c, group) ← compile_type fuel c (shader_name shader) g SHADER_TYPE_BUMP;
           on_shader (set_osl_surface_bump_ref group) c
         else on_shader (set_osl_surface_bump_ref None) c);
    on_shader (set_has_surface true) c
  else
    c ← on_shader (set_osl_surface_ref None) c;
    on_shader (set_osl_surface_bump_ref None) c.

(** "generate volume shader" *)
Definition compile_volume (fuel : nat) (shader : Shader) (g : ShaderGraph)
    (out : node_id) (c : OSLCompiler) : outcome OSLCompiler :=
  wanted ← context_wanted shader (node_at g out) "Volume";
  if (wanted : bool) then
    '(c, group) ← compile_type fuel c (shader_name shader) g SHADER_TYPE_VOLUME;
    c ← on_shader (set_osl_volume_ref group) c;
    on_shader (set_has_volume true) c
  else on_shader (set_osl_volume_ref None) c.

(** "generate displacement shader" *)
Definition compile_displacement (fuel : nat) (shader : Shader) (g : ShaderGraph)
    (out : node_id) (c : OSLCompiler) : outcome OSLCompiler :=
  wanted ← context_wanted shader (node_at g out) "Displacement";
  if (wanted : bool) then
    '(c, group) ← compile_type fuel c (shader_name shader) g SHADER_TYPE_DISPLACEMENT;
    c ← on_shader (set_osl_displacement_ref group) c;
    on_shader (set_has_displacement true) c
  else on_shader (set_osl_displacement_ref None) c.

(** [OSLCompiler::compile(shader)] *)
Definition compile (fuel : nat) (c : OSLCompiler) (shader : Shader)
    : outcome (OSLCompiler * Shader) :=
  if is_modified shader then
    match graph shader with
    | None => Fail null_pointer
    | Some g =>
        let out := output g in
        bump ← bump_wanted shader g;
        let g := finalized shader g bump in
        let shader := set_graph (Some g) shader in
        let c := set_current_shader (Some shader) c in
        c ← on_shader (reset_flags bump) c;
        c ← compile_surface fuel shader g out bump c;
        c ← compile_volume fuel shader g out c;
        c ← compile_displacement fuel shader g out c;
        match current_shader c with
        | Some shader => Ok (c, shader)
        | None => Fail null_pointer
        end
    end
  else Ok (c, shader).

(** The graph of a shader after [compile] finalized it. *)
Definition finalized_graph (shader : Shader) (g : ShaderGraph) : ShaderGraph :=
  match bump_wanted shader g with
  | Ok bump => finalized shader g bump
  | Fail _ => g
  end.

(** An input of that name is there and is linked. *)
Definition linked (node : ShaderNode) (name : string) : Prop :=
  ∃ i o, input node name = Some i ∧ link i = Some o.

End Compiler.

(** ** The relation that the resolver and the generator walk *)

Section Relevant.
Context `{Ext : External}.

(** The nodes that the inputs of [n] that are not skipped are linked from. *)
Definition relevant_parents (g : ShaderGraph) (ty : ShaderType) (n : node_id)
    : list node_id :=
  omap (λ i, if node_skip_input g ty (node_at g n) i then None
             else parent <$> link i)
       (inputs (node_at g n)).

(** [n] has a linked input that is not skipped, from [p]. *)
Definition depends_on (g : ShaderGraph) (ty : ShaderType) (n p : node_id) : Prop :=
  p ∈ relevant_parents g ty n.

(** A set of nodes that holds, with a node, the nodes it depends on. *)
Definition closed (g : ShaderGraph) (ty : ShaderType) (s : gset node_id) : Prop :=
  ∀ n p, n ∈ s → depends_on g ty n p → p ∈ s.

(** The nodes from which an input is computed: the node it is linked from,
    and the nodes that one of these depends on. *)
Inductive reaches (g : ShaderGraph) (ty : ShaderType) (i : ShaderInput)
    : node_id → Prop :=
| reaches_link l : link i = Some l → reaches g ty i (parent l)
| reaches_step n p : reaches g ty i n → depends_on g ty n p → reaches g ty i p.

(** A sequence of nodes in which every node comes once, is not in [before],
    and comes after the nodes it depends on, those of [before] aside. *)
Fixpoint in_order (g : ShaderGraph) (ty : ShaderType) (before : gset node_id)
    (l : list node_id) : Prop :=
  match l with
  | [] => True
  | n :: l' =>
      (n ∉ before) ∧ (∀ p, depends_on g ty n p → p ∈ before) ∧
      in_order g ty ({[n]} ∪ before) l'
  end.

(** The checks behind the hypotheses on a list of nodes: it holds the nodes
    its nodes depend on; [rank] goes down along the dependencies; the calls
    of [add] that load a file have a path of four characters at least. *)
Definition closed_list (g : ShaderGraph) (ty : ShaderType) (l : list node_id) : bool :=
  forallb (λ n, forallb (λ p, bool_decide (p ∈ l)) (relevant_parents g ty n)) l.

Definition ranked (g : ShaderGraph) (ty : ShaderType) (rank : node_id → nat)
    (l : list node_id) : bool :=
  forallb (λ n, forallb (λ p, (rank p <? rank n)%nat) (relevant_parents g ty n)) l.

Definition loads (g : ShaderGraph) (ty : ShaderType) (n : node_id) : bool :=
  forallb (λ call,
      match call with
      | Call_add name true => (4 <=? String.length name)%nat
      | _ => true
      end) (node_compile_calls (node_at g n) ty).

(** Every link of the graph comes from one of its nodes. *)
Definition well_linked (g : ShaderGraph) : bool :=
  forallb (λ node,
      forallb (λ i, match link i with
                    | Some o => (parent o <? length (nodes g))%nat
                    | None => true
                    end) (inputs node)) (nodes g).

(** What makes [compile_type] return for a context: the links are sound, the
    Output node has the input of the context, [rank] goes down along the
    dependencies and stays below the fuel, and the nodes load. *)
Definition compiles (g : ShaderGraph) (ty : ShaderType) (rank : node_id → nat)
    (fuel : nat) : bool :=
  let all := seq 0 (length (nodes g)) in
  well_linked g &&
  bool_decide (is_Some (input (node_at g (output g)) (context_input ty))) &&
  ranked g ty rank all &&
  forallb (λ n, (rank n <? fuel)%nat) all &&
  forallb (loads g ty) all.

(** What makes [compile] return for a shader with the graph [g]: the Output
    node has the inputs that [compile] reads, before and after the graph is
    finalized, and each of the four contexts of the finalized graph
    compiles. *)
Definition compile_ready (shader : Shader) (g : ShaderGraph) (rank : node_id → nat)
    (fuel : nat) : bool :=
  match bump_wanted shader g with
  | Ok bump =>
      let g' := finalized shader g bump in
      forallb (λ name, bool_decide (is_Some (input (node_at g' (output g)) name)))
        ["Surface"; "Volume"; "Displacement"] &&
      forallb (λ ty, compiles g' ty rank fuel)
        [SHADER_TYPE_SURFACE; SHADER_TYPE_VOLUME; SHADER_TYPE_DISPLACEMENT;
         SHADER_TYPE_BUMP]
  | Fail _ => false
  end.

End Relevant.

(** ** Examples: an environment and a few graphs *)

(** An environment to run the model in: the files are a finite map from a
    path to a modification time and a text (if the file can be read); the
    compiler writes the bytecode of a readable source next to it; a hash is
    the bytes themselves; a graph is finalized already. *)
Definition example_files := gmap string (Z * option string).

Definition example_oslc (fs : example_files) (inputfile outputfile : string)
    : example_files :=
  match fs !! inputfile with
  | Some (t, Some source) => <[outputfile := (t + 1, Some ("oso " ++ source)%string)]> fs
  | _ => fs
  end.

Definition example_dirname (path : string) : string :=
  match String.index 0 "/" path with
  | Some k => substring 0 k path
  | None => ""
  end.

Definition example_external : External :=
  {| SVM_INTERNAL := 4;
     FileSystem := example_files;
     path_modified_time := λ fs p, match fs !! p with Some (t, _) => t | None => 0 end;
     path_read_text := λ fs p, match fs !! p with Some (_, text) => text | None => None end;
     path_dirname := example_dirname;
     path_join := λ dir file, (dir ++ "/" ++ file)%string;
     path_user_get := λ sub, ("/home/user/" ++ sub)%string;
     path_get := λ sub, ("/cycles/" ++ sub)%string;
     MD5_hex := λ bytes, string_of_list_ascii (map (λ b, ascii_of_nat (Z.to_nat b)) bytes);
     oslc := example_oslc;
     open_bytecode := λ _, true;
     finalize := λ g _ _ _, g |}.

(** A manager that has loaded nothing, over some files. *)
Definition example_manager (fs : example_files) : @OSLShaderManager example_external :=
  @Build_OSLShaderManager example_external None None None ∅ [] 0%nat fs [] [].

(** A compiler as its constructor leaves it. *)
Definition example_compiler (fs : example_files) : @OSLCompiler example_external :=
  @Build_OSLCompiler example_external (example_manager fs) SHADER_TYPE_SURFACE
    None [].

Definition example_input (name : string) (l : option ShaderOutput) : ShaderInput :=
  {| input_name := name; input_flags := 0; input_type := SocketType.CLOSURE;
     link := l |}.

Definition example_node (special : ShaderNodeSpecialType) (ins : list ShaderInput)
    (shader : string) : ShaderNode :=
  {| special_type := special; inputs := ins; outputs := ["Out"];
     node_compile_calls := λ _, [Call_add shader false];
     node_has_surface_emission := false; node_has_surface_transparent := false;
     node_feature_raytrace := false; node_has_spatial_varying := false;
     node_has_surface_bssrdf := false; node_has_bssrdf_bump := false;
     node_has_bump := false; node_has_attribute_dependency := false;
     node_has_integrator_dependency := false |}.

Definition from (n : node_id) : option ShaderOutput :=
  Some {| parent := n; output_name := "Out" |}.
Arguments from n%_nat.

(** The Output node, with what its four inputs are linked to. *)
Definition example_output (surface volume displacement normal : option ShaderOutput)
    : ShaderNode :=
  example_node SHADER_SPECIAL_TYPE_OUTPUT
    [example_input "Surface" surface; example_input "Volume" volume;
     example_input "Displacement" displacement; example_input "Normal" normal]
    "node_output".

(** The diamond A→B, A→C, B→D, C→D, with D on the Surface input of the Output
    node. The nodes are D, B, C, A at the positions 1 to 4, so that the
    iteration meets every node before the nodes it depends on. *)
Definition diamond : ShaderGraph :=
  {| nodes := [example_output (from 1%nat) None None None;
               example_node SHADER_SPECIAL_TYPE_NONE
                 [example_input "Left" (from 2%nat); example_input "Right" (from 3%nat)] "node_d";
               example_node SHADER_SPECIAL_TYPE_NONE [example_input "In" (from 4%nat)] "node_b";
               example_node SHADER_SPECIAL_TYPE_NONE [example_input "In" (from 4%nat)] "node_c";
               example_node SHADER_SPECIAL_TYPE_NONE [] "node_a"];
     output := 0%nat |}.

(** The rank of the nodes of [diamond]: A, then B and C, then D, then the
    Output node. *)
Definition diamond_rank (n : node_id) : nat :=
  match n with
  | 0 => 3 | 1 => 2 | 2 => 1 | 3 => 1 | _ => 0
  end%nat.

(** A rank for graphs whose nodes, the Output node aside, have no linked
    input. *)
Definition output_rank (n : node_id) : nat :=
  match n with 0 => 1 | _ => 0 end%nat.

(** A graph with a node on the Displacement input of the Output node only. *)
Definition displacement_only : ShaderGraph :=
  {| nodes := [example_output None None (from 1%nat) None;
               example_node SHADER_SPECIAL_TYPE_NONE [] "node_displacement"];
     output := 0%nat |}.

(** A graph with a Bump node on the Displacement input of the Output node. *)
Definition bump_on_displacement : ShaderGraph :=
  {| nodes := [example_output None None (from 1%nat) None;
               example_node SHADER_SPECIAL_TYPE_BUMP [] "node_bump"];
     output := 0%nat |}.

(** A graph with two Bump nodes in a row, the second on the Normal input of
    the first. *)
Definition bump_chain : ShaderGraph :=
  {| nodes := [example_output None None (from 1) None;
               example_node SHADER_SPECIAL_TYPE_BUMP
                 [example_input "Height" None; example_input "Normal" (from 2)]
                 "node_bump";
               example_node SHADER_SPECIAL_TYPE_BUMP [] "node_bump"];
     output := 0%nat |}.

(** A graph with a node on the Surface input of the Output node, and a node
    on its Displacement input. *)
Definition surface_and_displacement : ShaderGraph :=
  {| nodes := [example_output (from 1%nat) None (from 2%nat) None;
               example_node SHADER_SPECIAL_TYPE_NONE [] "node_surface";
               example_node SHADER_SPECIAL_TYPE_NONE [] "node_displacement"];
     output := 0%nat |}.

(** A shader as the scene hands it to the compiler: modified, nothing
    compiled yet. *)
Definition example_shader (g : ShaderGraph) (users : Z) (method : DisplacementMethod)
    : Shader :=
  {| shader_name := "material"; graph := Some g; is_modified := true;
     reference_count := users; displacement_method := method;
     has_surface := false; has_surface_emission := false;
     has_surface_transparent := false; has_surface_raytrace := false;
     has_volume := false; has_displacement := false; has_surface_bssrdf := false;
     has_bump := false; has_bssrdf_bump := false;
     has_surface_spatial_varying := false; has_volume_spatial_varying := false;
     has_volume_attribute_dependency := false; has_integrator_dependency := false;
     osl_surface_ref := None; osl_surface_bump_ref := None;
     osl_volume_ref := None; osl_displacement_ref := None |}.


(** A compiler at work on a shader, in the Surface context. *)
Definition example_compiler_on (shader : Shader) : @OSLCompiler example_external :=
  @Build_OSLCompiler example_external (example_manager ∅) SHADER_TYPE_SURFACE
    (Some shader) [].

(** What a call returned, and the manager after it. *)
Definition returned {A} (r : outcome (option string * A)) : option (option string) :=
  match r with
  | Ok (hash, _) => Some hash
  | Fail _ => None
  end.

Definition manager_after {A} (m : A) (r : outcome (option string * A)) : A :=
  match r with
  | Ok (_, m') => m'
  | Fail _ => m
  end.

(** The shader that [compile] returned. *)
Definition compiled_shader {A} (r : outcome (A * Shader)) : option Shader :=
  match r with
  | Ok (_, shader) => Some shader
  | Fail _ => None
  end.

(** Files with one source, "shader.osl", changed at time 5 and not compiled
    yet; and the manager after it was loaded once. *)
Definition source_only : example_files :=
  {[ "shader.osl" := (5, Some "shader surface") ]}.

Definition loaded_once : @OSLShaderManager example_external :=
  manager_after (example_manager source_only)
    (shader_load_filepath (example_manager source_only) "shader.osl").

(** A shader that was compiled before and has not been modified since. *)
Definition compiled_before : Shader :=
  {| shader_name := "material"; graph := Some diamond; is_modified := false;
     reference_count := 1; displacement_method := DISPLACE_BUMP;
     has_surface := true; has_surface_emission := true;
     has_surface_transparent := false; has_surface_raytrace := false;
     has_volume := false; has_displacement := false; has_surface_bssrdf := false;
     has_bump := false; has_bssrdf_bump := false;
     has_surface_spatial_varying := false; has_volume_spatial_varying := false;
     has_volume_attribute_dependency := false; has_integrator_dependency := false;
     osl_surface_ref := Some 7%nat; osl_surface_bump_ref := None;
     osl_volume_ref := None; osl_displacement_ref := None |}.

(** The shared systems before any manager is constructed. *)
Definition no_systems : Statics :=
  {| ts_shared := None; ts_shared_users := 0; ss_shared := None;
     services_shared := None; ss_shared_users := 0 |}.

(** ** The vocabulary of the proofs *)

Section Vocabulary.
Context `{Ext : External}.

(** What a call of [find_dependencies] on a closed set adds to it: nodes in
    order after the set, reached from the input, the node of its link among
    them or in the set. *)
Definition resolved (g : ShaderGraph) (ty : ShaderType) (deps : gset node_id)
    (i : ShaderInput) (deps' : gset node_id) : Prop :=
  ∃ added, deps' = list_to_set added ∪ deps ∧
           in_order g ty deps added ∧
           (∀ l, link i = Some l → parent l ∈ deps') ∧
           (∀ n, n ∈ added → reaches g ty i n).

(** The members of a shader that [add] and [generate_nodes] never write. *)
Definition settled (s : Shader) :=
  (shader_name s, graph s, is_modified s, reference_count s, displacement_method s,
   (has_surface s, has_volume s, has_displacement s),
   (osl_surface_ref s, osl_surface_bump_ref s, osl_volume_ref s,
    osl_displacement_ref s)).

(** In a context other than Surface they do not write [has_bump] and
    [has_bssrdf_bump] either. *)
Definition frame (ty : ShaderType) (s s' : Shader) : Prop :=
  settled s' = settled s ∧
  (ty ≠ SHADER_TYPE_SURFACE →
   has_bump s' = has_bump s ∧ has_bssrdf_bump s' = has_bssrdf_bump s).

(** A step of the compiler that keeps the context, the log of the compiled
    nodes, the number of groups begun and the settled members of the
    shader. *)
Definition kept (c c' : OSLCompiler) : Prop :=
  current_type c' = current_type c ∧
  node_compiles c' = node_compiles c ∧
  groups_begun (manager c') = groups_begun (manager c) ∧
  option_Forall2 (frame (current_type c)) (current_shader c) (current_shader c').

(** [kept], the log of the compiled nodes aside. *)
Definition kept_shader (c c' : OSLCompiler) : Prop :=
  current_type c' = current_type c ∧
  groups_begun (manager c') = groups_begun (manager c) ∧
  option_Forall2 (frame (current_type c)) (current_shader c) (current_shader c').

(** What the loop body does with a node: nothing when it is done; it
    compiles it when its inputs are done; it puts it off otherwise. *)
Inductive visited (g : ShaderGraph) (s : Scan) (n : node_id) (s' : Scan) : Prop :=
| visited_done :
    n ∈ done_set s → s' = s → visited g s n s'
| visited_compiled :
    n ∉ done_set s →
    (∀ p, depends_on g (current_type (compiler s)) n p → p ∈ done_set s) →
    done_set s' = {[n]} ∪ done_set s →
    nodes_done s' = nodes_done s →
    node_compiles (compiler s') = node_compiles (compiler s) ++ [n] →
    kept_shader (compiler s) (compiler s') →
    visited g s n s'
| visited_put_off :
    n ∉ done_set s →
    ¬ (∀ p, depends_on g (current_type (compiler s)) n p → p ∈ done_set s) →
    done_set s' = done_set s →
    nodes_done s' = false →
    compiler s' = compiler s →
    visited g s n s'.

(** The nodes that have a layer among some calls of the shading system. *)
Definition layers (calls : list SSCall) : list node_id :=
  omap (λ call, match call with
                | SS_Shader _ _ n => Some n
                | _ => None
                end) calls.

(** A step of the compiler that adds calls to those the shading system has
    received, with layers for nodes in [P] only. *)
Definition emits (P : node_id → Prop) (c c' : OSLCompiler) : Prop :=
  ∃ extra, ss_calls (manager c') = ss_calls (manager c) ++ extra ∧
           ∀ n, n ∈ layers extra → P n.

(** The position of a node in a list. *)
Fixpoint position (n : node_id) (l : list node_id) : nat :=
  match l with
  | [] => 0
  | a :: l' => if decide (a = n) then 0 else S (position n l')
  end.

End Vocabulary.

(** The cases of a sequence of [when] and [on_shader]. *)
Ltac flag_cases :=
  unfold when, on_shader;
  repeat (simpl in *;
          match goal with
          | |- context [if ?b then _ else _] => destruct b
          | H : context [if ?b then _ else _] |- _ => destruct b
          end);
  simpl in *.

(** ** The life of a manager *)

Section Lifecycle.
Context `{Ext : External}.

(** [OSLShaderManager::OSLShaderManager()], on the object [m] before its
    members [ts], [ss] and [services] are set. *)
Definition OSLShaderManager_construct (st : Statics) (m : OSLShaderManager)
    : Statics * OSLShaderManager :=
  let '(st, m) := texture_system_init st m in
  shading_system_init st m.

(** [OSLShaderManager::~OSLShaderManager()] *)
Definition OSLShaderManager_destruct (st : Statics) (m : OSLShaderManager)
    : outcome (Statics * OSLShaderManager) :=
  let '(st, m) := shading_system_free st m in
  texture_system_free st m.

(** [OSLShaderManager::reset] *)
Definition reset (st : Statics) (m : OSLShaderManager) : Statics * OSLShaderManager :=
  let '(st, m) := shading_system_free st m in
  shading_system_init st m.

End Lifecycle.

(** What the owners of the managers do, one after the other: construct a
    manager, destroy the k-th of the managers that live, or reset it. *)
Inductive ManagerOp `{Ext : External} :=
| Op_construct (m : OSLShaderManager)
| Op_destruct (k : nat)
| Op_reset (k : nat).

Section History.
Context `{Ext : External}.

(** One step of a history, on the static members and the managers that
    live; a step on a manager that is not there does nothing. *)
Definition manager_op (w : Statics * list OSLShaderManager) (op : ManagerOp)
    : outcome (Statics * list OSLShaderManager) :=
  let '(st, live) := w in
  match op with
  | Op_construct m =>
      let '(st, m) := OSLShaderManager_construct st m in
      Ok (st, live ++ [m])
  | Op_destruct k =>
      match live !! k with
      | Some m =>
          '(st, _) ← OSLShaderManager_destruct st m;
          Ok (st, delete k live)
      | None => Ok (st, live)
      end
  | Op_reset k =>
      match live !! k with
      | Some m =>
          let '(st, m) := reset st m in
          Ok (st, <[k := m]> live)
      | None => Ok (st, live)
      end
  end.

(** The static members and the managers that live agree: both counts are
    the number of the managers, every manager holds the shared systems, and
    the shared shading system and render services were made with the shared
    texture system. *)
Definition shared_by (st : Statics) (live : list OSLShaderManager) : Prop :=
  ts_shared_users st = Z.of_nat (length live) ∧
  ss_shared_users st = Z.of_nat (length live) ∧
  ts_invariant st ∧ ss_invariant st ∧
  (∀ m, m ∈ live →
     ts m = ts_shared st ∧ ss m = ss_shared st ∧ services m = services_shared st) ∧
  (∀ sv, services_shared st = Some sv → services_texture_system sv = ts_shared st) ∧
  (∀ s, ss_shared st = Some s →
     ss_texture_system s = ts_shared st ∧ ss_renderer s = services_shared st).

End History.

(** ** Nodes from shader files *)

(** [OIIO::TypeDesc], as far as osl.cpp reads and builds it. *)
Module TypeDesc.
Inductive BASETYPE := INT | FLOAT | STRING | BASETYPE_OTHER (tag : nat).
Inductive AGGREGATE := SCALAR | VEC2 | VEC3 | MATRIX44 | AGGREGATE_OTHER (tag : nat).
Inductive VECSEMANTICS :=
| NOSEMANTICS | COLOR | POINT | VECTOR | NORMAL | VECSEMANTICS_OTHER (tag : nat).
Record t := {
  basetype : BASETYPE;
  aggregate : AGGREGATE;
  vecsemantics : VECSEMANTICS;
  arraylen : Z
}.
End TypeDesc.

(** A [float], by its bits: osl.cpp copies floats and computes nothing with
    them. *)
Definition float := Z.

(** [OSL::OSLQuery::Parameter], the members that [osl_node] reads. *)
Record QueryParameter := {
  param_name : string;
  param_type : TypeDesc.t;
  isoutput : bool;
  validdefault : bool;
  varlenarray : bool;
  isstruct : bool;
  isclosure : bool;
  idefault : list Z;
  fdefault : list float;
  sdefault : list string
}.

(** What [osl_node] writes to [node->input_default_value()]. *)
Inductive DefaultValue :=
| Default_float3 (x y z : float)
| Default_int (i : Z)
| Default_float (f : float)
| Default_string (s : string).

(** An [OSLNode] as [osl_node] builds it: the [num_inputs] that
    [OSLNode::create] was given, the sockets added in order (an input with
    the default value written for it, if one was), and the hash or the path
    it was given. *)
Record OSLNode := {
  osl_num_inputs : nat;
  osl_inputs : list (string * SocketType.Type_ * option DefaultValue);
  osl_outputs : list (string * SocketType.Type_);
  osl_bytecode_hash : string;
  osl_filepath : string
}.

(** "skip unsupported types" *)
Definition unsupported (p : QueryParameter) : bool :=
  varlenarray p || isstruct p || (1 <? TypeDesc.arraylen (param_type p)).

(** "count number of inputs" *)
Definition count_inputs (params : list QueryParameter) : nat :=
  foldl (λ n p, if unsupported p then n else if isoutput p then n else S n)
    0%nat params.

(** [v[k]] on a [std::vector]. *)
Definition at_index {A} (v : list A) (k : nat) : outcome A :=
  match v !! k with
  | Some a => Ok a
  | None => Fail out_of_range
  end.

(** [!param->isoutput && param->validdefault] *)
Definition writes_default (p : QueryParameter) : bool :=
  negb (isoutput p) && validdefault p.

(** The three components of a default value of a vector-like parameter. *)
Definition default_float3 (p : QueryParameter) : outcome (option DefaultValue) :=
  if writes_default p then
    x ← at_index (fdefault p) 0;
    y ← at_index (fdefault p) 1;
    z ← at_index (fdefault p) 2;
    Ok (Some (Default_float3 x y z))
  else Ok None.

(** The socket type that [osl_node] chooses for a parameter and the default
    value it writes, or nothing where the loop says [continue]. *)
Definition socket_of (p : QueryParameter)
    : outcome (option (SocketType.Type_ * option DefaultValue)) :=
  let ty := param_type p in
  if isclosure p then Ok (Some (SocketType.CLOSURE, None))
  else
    match TypeDesc.vecsemantics ty with
    | TypeDesc.COLOR => d ← default_float3 p; Ok (Some (SocketType.COLOR, d))
    | TypeDesc.POINT => d ← default_float3 p; Ok (Some (SocketType.POINT, d))
    | TypeDesc.VECTOR => d ← default_float3 p; Ok (Some (SocketType.VECTOR, d))
    | TypeDesc.NORMAL => d ← default_float3 p; Ok (Some (SocketType.NORMAL, d))
    | TypeDesc.VECSEMANTICS_OTHER _ => Ok None
    | TypeDesc.NOSEMANTICS =>
        match TypeDesc.aggregate ty with
        | TypeDesc.SCALAR =>
            match TypeDesc.basetype ty with
            | TypeDesc.INT =>
                if writes_default p then
                  i ← at_index (idefault p) 0;
                  Ok (Some (SocketType.INT, Some (Default_int i)))
                else Ok (Some (SocketType.INT, None))
            | TypeDesc.FLOAT =>
                if writes_default p then
                  f ← at_index (fdefault p) 0;
                  Ok (Some (SocketType.FLOAT, Some (Default_float f)))
                else Ok (Some (SocketType.FLOAT, None))
            | TypeDesc.STRING =>
                if writes_default p then
                  s ← at_index (sdefault p) 0;
                  Ok (Some (SocketType.STRING, Some (Default_string s)))
                else Ok (Some (SocketType.STRING, None))
            | TypeDesc.BASETYPE_OTHER _ => Ok None
            end
        | _ => Ok None
        end
    end.

(** [node->add_output(name, type)] and [node->add_input(name, type)] *)
Definition add_output (name : string) (ty : SocketType.Type_) (node : OSLNode) : OSLNode :=
  {| osl_num_inputs := osl_num_inputs node; osl_inputs := osl_inputs node;
     osl_outputs := osl_outputs node ++ [(name, ty)];
     osl_bytecode_hash := osl_bytecode_hash node; osl_filepath := osl_filepath node |}.

Definition add_input (name : string) (ty : SocketType.Type_) (d : option DefaultValue)
    (node : OSLNode) : OSLNode :=
  {| osl_num_inputs := osl_num_inputs node;
     osl_inputs := osl_inputs node ++ [(name, ty, d)];
     osl_outputs := osl_outputs node;
     osl_bytecode_hash := osl_bytecode_hash node; osl_filepath := osl_filepath node |}.

(** The body of "add new sockets from parameters". *)
Definition add_socket (node : OSLNode) (p : QueryParameter) : outcome OSLNode :=
  if unsupported p then Ok node
  else
    socket ← socket_of p;
    match socket with
    | None => Ok node
    | Some (ty, d) =>
        if isoutput p then Ok (add_output (param_name p) ty node)
        else Ok (add_input (param_name p) ty d node)
    end.

(** "Set byte-code hash or file-path." *)
Definition set_source (filepath bytecode_hash : string) (node : OSLNode) : OSLNode :=
  {| osl_num_inputs := osl_num_inputs node; osl_inputs := osl_inputs node;
     osl_outputs := osl_outputs node;
     osl_bytecode_hash := if String.eqb bytecode_hash "" then osl_bytecode_hash node
                          else bytecode_hash;
     osl_filepath := if String.eqb bytecode_hash "" then filepath
                     else osl_filepath node |}.

(** [OSLNode::create(graph, num_inputs)] *)
Definition OSLNode_create (num_inputs : nat) : OSLNode :=
  {| osl_num_inputs := num_inputs; osl_inputs := []; osl_outputs := [];
     osl_bytecode_hash := ""; osl_filepath := "" |}.

Section Nodes.
Context `{Ext : External}.

(** The parameters of the query of a loaded shader; [getparams] gives the
    parameters that [OSLQuery] finds in a bytecode, and a query that was not
    opened has none. *)
Definition query_params (getparams : string → list QueryParameter)
    (info : OSLShaderInfo) : list QueryParameter :=
  match info_query info with
  | Some bytecode => getparams bytecode
  | None => []
  end.

(** [OSLShaderManager::osl_node]; [use_osl] is the answer of
    [manager->use_osl()]. *)
Definition osl_node (getparams : string → list QueryParameter) (use_osl : bool)
    (m : OSLShaderManager) (filepath bytecode_hash bytecode : string)
    : outcome (option OSLNode * OSLShaderManager) :=
  if negb use_osl then Ok (None, m)
  else
    '(hash, m) ← (if negb (String.eqb filepath "") then shader_load_filepath m filepath
                  else match shader_test_loaded m bytecode_hash with
                       | Some hash => Ok (Some hash, m)
                       | None => Ok (shader_load_bytecode m bytecode_hash bytecode)
                       end);
    match hash with
    | None => Ok (None, m)
    | Some hash =>
        match shader_loaded_info m hash with
        | None => Fail null_pointer
        | Some info =>
            let params := query_params getparams info in
            let node := OSLNode_create (count_inputs params) in
            node ← for_each add_socket node params;
            Ok (Some (set_source filepath bytecode_hash node), m)
        end
    end.

End Nodes.

(** The socket types that [osl_node] gives to a socket. *)
Definition osl_socket_type (ty : SocketType.Type_) : bool :=
  match ty with
  | SocketType.CLOSURE | SocketType.COLOR | SocketType.POINT | SocketType.VECTOR
  | SocketType.NORMAL | SocketType.INT | SocketType.FLOAT | SocketType.STRING => true
  | _ => false
  end.

(** A parameter for which [osl_node] finds a socket type. *)
Definition typed (p : QueryParameter) : bool :=
  isclosure p ||
  match TypeDesc.vecsemantics (param_type p) with
  | TypeDesc.VECSEMANTICS_OTHER _ => false
  | TypeDesc.NOSEMANTICS =>
      match TypeDesc.aggregate (param_type p), TypeDesc.basetype (param_type p) with
      | TypeDesc.SCALAR, (TypeDesc.INT | TypeDesc.FLOAT | TypeDesc.STRING) => true
      | _, _ => false
      end
  | _ => true
  end.

(** ** Textures *)

(** [OSLTextureHandle::Type], the values that osl.cpp names. *)
Module OSLTextureHandle.
Inductive Type_ := OIIO | SVM | IES | BEVEL | AO.
End OSLTextureHandle.

(** An [OSLTextureHandle] as osl.cpp makes it: its type, the slot it was
    constructed with, if one was given, and the colour space of the
    processor it was given, if any. *)
Record OSLTextureHandle := {
  handle_type : OSLTextureHandle.Type_;
  handle_svm_slot : option Z;
  handle_colorspace : option string
}.

(** The calls of [insert] on [services->textures], in order, and the static
    member [OSLCompiler::texture_shared_unique_id]. *)
Record Textures := {
  inserted : list (string * OSLTextureHandle);
  texture_shared_unique_id : Z
}.

(** [string_printf("@svm%d", id)] *)
Definition svm_name (id : Z) : string := "@svm" +:+ pretty id.

Section TextureParameters.
Context `{Ext : External}.

(** [OSLCompiler::parameter(const char *name, ustring s)] *)
Definition parameter_string (name : string) (c : OSLCompiler) : OSLCompiler :=
  ss_do (SS_Parameter name SocketType.STRING) c.

(** [OSLCompiler::parameter_texture(name, filename, colorspace)] *)
Definition parameter_texture (name filename colorspace : string)
    (t : Textures) (c : OSLCompiler) : Textures * OSLCompiler :=
  let handle := {| handle_type := OSLTextureHandle.OIIO; handle_svm_slot := None;
                   handle_colorspace := Some colorspace |} in
  ({| inserted := inserted t ++ [(filename, handle)];
      texture_shared_unique_id := texture_shared_unique_id t |},
   parameter_string name c).

(** [OSLCompiler::parameter_texture(name, svm_slot)] *)
Definition parameter_texture_svm (name : string) (svm_slot : Z)
    (t : Textures) (c : OSLCompiler) : Textures * OSLCompiler :=
  let filename := svm_name (texture_shared_unique_id t) in
  let handle := {| handle_type := OSLTextureHandle.SVM; handle_svm_slot := Some svm_slot;
                   handle_colorspace := None |} in
  ({| inserted := inserted t ++ [(filename, handle)];
      texture_shared_unique_id := wrap_int (texture_shared_unique_id t + 1) |},
   parameter_string name c).

(** [OSLCompiler::parameter_texture_ies(name, svm_slot)] *)
Definition parameter_texture_ies (name : string) (svm_slot : Z)
    (t : Textures) (c : OSLCompiler) : Textures * OSLCompiler :=
  let filename := svm_name (texture_shared_unique_id t) in
  let handle := {| handle_type := OSLTextureHandle.IES; handle_svm_slot := Some svm_slot;
                   handle_colorspace := None |} in
  ({| inserted := inserted t ++ [(filename, handle)];
      texture_shared_unique_id := wrap_int (texture_shared_unique_id t + 1) |},
   parameter_string name c).

End TextureParameters.

(** A call of one of the two functions that make a name for a texture. *)
Inductive TextureCall :=
| Texture_svm (name : string) (svm_slot : Z)
| Texture_ies (name : string) (svm_slot : Z).

Section TextureCalls.
Context `{Ext : External}.

Definition texture_call (s : Textures * OSLCompiler) (call : TextureCall)
    : Textures * OSLCompiler :=
  match call with
  | Texture_svm name slot => parameter_texture_svm name slot s.1 s.2
  | Texture_ies name slot => parameter_texture_ies name slot s.1 s.2
  end.

End TextureCalls.

(** ** More vocabulary: cycles, steps of the compiler, programs *)

Section MoreVocabulary.
Context `{Ext : External}.

(** A set of nodes each of which depends on a node of the set: a non-empty
    one holds a cycle of the graph. *)
Definition knot (g : ShaderGraph) (ty : ShaderType) (s : gset node_id) : Prop :=
  ∀ n, n ∈ s → ∃ p, p ∈ s ∧ depends_on g ty n p.

(** The flags of a shader that only the Surface context writes, and those
    that only the Volume context writes. *)
Definition surface_flags (s : Shader) :=
  (has_surface_emission s, has_surface_transparent s, has_surface_bssrdf s,
   has_surface_spatial_varying s, has_surface_raytrace s, has_bump s,
   has_bssrdf_bump s).

Definition volume_flags (s : Shader) :=
  (has_volume_spatial_varying s, has_volume_attribute_dependency s).

(** What compiling the nodes of a context does to a shader: it leaves the
    settled members, it does not write the flags of the other contexts, and
    it does not clear [has_surface_raytrace]. *)
Definition grows (ty : ShaderType) (s s' : Shader) : Prop :=
  settled s' = settled s ∧
  (ty ≠ SHADER_TYPE_SURFACE → surface_flags s' = surface_flags s) ∧
  (ty ≠ SHADER_TYPE_VOLUME → volume_flags s' = volume_flags s) ∧
  (has_surface_raytrace s = true → has_surface_raytrace s' = true).

(** A step of the compiler that keeps the context and lets the shader
    grow. *)
Definition grown (c c' : OSLCompiler) : Prop :=
  current_type c' = current_type c ∧
  option_Forall2 (grows (current_type c)) (current_shader c) (current_shader c').

(** Calls of the shading system in which a connection comes after the layers
    of both of its ends; [seen] are the nodes that have a layer before the
    calls. *)
Fixpoint connected_after (seen : gset node_id) (calls : list SSCall) : Prop :=
  match calls with
  | [] => True
  | SS_Shader _ _ n :: calls => connected_after ({[n]} ∪ seen) calls
  | SS_ConnectShaders id_from _ id_to _ :: calls =>
      id_from ∈ seen ∧ id_to ∈ seen ∧ connected_after seen calls
  | _ :: calls => connected_after seen calls
  end.

(** A call that neither begins nor ends a group, and calls of which none
    does. *)
Definition node_call (call : SSCall) : Prop :=
  match call with
  | SS_ShaderGroupBegin _ | SS_ShaderGroupEnd => False
  | _ => True
  end.

Definition inside_group (calls : list SSCall) : Prop :=
  ∀ call, call ∈ calls → node_call call.

(** A step of the compiler that tells the shading system calls inside a
    group only. *)
Definition told (c c' : OSLCompiler) : Prop :=
  ∃ extra, ss_calls (manager c') = ss_calls (manager c) ++ extra ∧ inside_group extra.

(** Calls that are made of whole groups: a group is begun only when none is
    open, every other call is made while one is open, and the last group is
    ended; [open] tells whether a group is open before the calls. And the
    number of groups that the calls begin. *)
Fixpoint well_grouped (open : bool) (calls : list SSCall) : bool :=
  match calls with
  | [] => negb open
  | SS_ShaderGroupBegin _ :: calls => negb open && well_grouped true calls
  | SS_ShaderGroupEnd :: calls => open && well_grouped false calls
  | _ :: calls => open && well_grouped open calls
  end.

Definition groups_in (calls : list SSCall) : nat :=
  length (List.filter (λ call, match call with
                               | SS_ShaderGroupBegin _ => true
                               | _ => false
                               end) calls).

(** A step of the compiler that tells the shading system whole groups, as
    many as it begins. *)
Definition grouped (c c' : OSLCompiler) : Prop :=
  ∃ extra, ss_calls (manager c') = ss_calls (manager c) ++ extra ∧
           well_grouped false extra = true ∧
           groups_begun (manager c') = (groups_begun (manager c) + groups_in extra)%nat.

(** A node whose [compile] sets parameters and adds one layer, by name: the
    nodes of nodes.cpp with a shader of their own. *)
Definition adds_one_layer (g : ShaderGraph) (ty : ShaderType) (n : node_id) : bool :=
  (length (List.filter (λ call, match call with Call_add _ _ => true | _ => false end)
             (node_compile_calls (node_at g n) ty)) =? 1)%nat &&
  forallb (λ call, match call with Call_add _ true => false | _ => true end)
    (node_compile_calls (node_at g n) ty).

(** The calls that set a parameter, and the calls that connect a node from
    which [n] depends to [n]. *)
Definition is_parameter (call : SSCall) : Prop :=
  match call with
  | SS_Parameter _ _ => True
  | _ => False
  end.

Definition connects (g : ShaderGraph) (ty : ShaderType) (n : node_id) (call : SSCall)
    : Prop :=
  match call with
  | SS_ConnectShaders id_from _ id_to _ => id_to = n ∧ depends_on g ty n id_from
  | _ => False
  end.

(** The Output node depends, in a context, on the node on the input of the
    context only. *)
Definition output_ready (g : ShaderGraph) (ty : ShaderType) : bool :=
  match input (node_at g (output g)) (context_input ty) with
  | Some i =>
      forallb (λ p, bool_decide (parent <$> link i = Some p))
        (relevant_parents g ty (output g))
  | None => false
  end.

(** A graph of nodes that add one layer each, with sound links and an Output
    node that is one of its nodes. *)
Definition program_ready (g : ShaderGraph) (ty : ShaderType) : bool :=
  well_linked g && (output g <? length (nodes g))%nat &&
  forallb (adds_one_layer g ty) (seq 0 (length (nodes g))) &&
  output_ready g ty.

End MoreVocabulary.

(** ** The loop of [compatible_name] *)

(** [sname.find(" ")] *)
Definition find_blank (sname : string) : option nat := String.index 0 " " sname.

(** [sname.replace(i, 1, "")] *)
Definition erase_at (i : nat) (sname : string) : string :=
  (substring 0 i sname ++ substring (S i) (String.length sname - S i) sname)%string.

(** "strip whitespace": the [while] loop as it is written; [fuel] bounds its
    iterations. *)
Fixpoint strip_loop (fuel : nat) (sname : string) : outcome string :=
  match find_blank sname with
  | None => Ok sname
  | Some i =>
      match fuel with
      | O => Fail out_of_fuel
      | S fuel' => strip_loop fuel' (erase_at i sname)
      end
  end.

(** The bytes that [shader_filepath_hash] gives to MD5. *)
Definition hash_message (filepath : string) (modified_time : Z) : list Z :=
  string_bytes filepath ++ uint64_bytes modified_time.

(** ** The updates of the scene *)

(** A shader of the scene, with the answer of its [get_use_mis()]. *)
Record SceneShader := {
  scene_shader : Shader;
  use_mis : bool
}.

(** [Scene], as far as the updates of the manager read and write it: the
    shaders, the texture system that the image manager was given, and the
    number of times the light manager was tagged. *)
Record Scene := {
  shaders : list SceneShader;
  image_manager_osl_texture_system : option TextureSystem;
  light_manager_tags : nat
}.

(** What [host_update_specific] acts on besides the scene: the manager, the
    textures of the render services, and the number of calls of
    [optimize_all_groups] on the shading system. *)
Record Host `{Ext : External} := {
  host_manager : OSLShaderManager;
  host_textures : Textures;
  optimize_all_groups_calls : nat
}.

(** The state of the loop over the shaders: the manager, the shaders met so
    far, the tags of the light manager, and whether the function has
    returned. *)
Record HostLoop `{Ext : External} := {
  loop_manager : OSLShaderManager;
  loop_shaders : list SceneShader;
  loop_tags : nat;
  loop_returned : bool
}.

(** [struct OSLGlobals], the members that osl.cpp writes. *)
Record OSLGlobals := {
  og_use : bool;
  og_ss : option ShadingSystem;
  og_ts : option TextureSystem;
  og_services : option OSLRenderServices;
  surface_state : list ShaderGroupRef;
  volume_state : list ShaderGroupRef;
  displacement_state : list ShaderGroupRef;
  bump_state : list ShaderGroupRef;
  background_state : ShaderGroupRef
}.

(** [shader->clear_modified()] *)
Definition clear_modified (s : Shader) : Shader :=
  {| shader_name := shader_name s; graph := graph s; is_modified := false;
     reference_count := reference_count s;
     displacement_method := displacement_method s;
     has_surface := has_surface s; has_surface_emission := has_surface_emission s;
     has_surface_transparent := has_surface_transparent s;
     has_surface_raytrace := has_surface_raytrace s;
     has_volume := has_volume s; has_displacement := has_displacement s;
     has_surface_bssrdf := has_surface_bssrdf s; has_bump := has_bump s;
     has_bssrdf_bump := has_bssrdf_bump s;
     has_surface_spatial_varying := has_surface_spatial_varying s;
     has_volume_spatial_varying := has_volume_spatial_varying s;
     has_volume_attribute_dependency := has_volume_attribute_dependency s;
     has_integrator_dependency := has_integrator_dependency s;
     osl_surface_ref := osl_surface_ref s;
     osl_surface_bump_ref := osl_surface_bump_ref s;
     osl_volume_ref := osl_volume_ref s;
     osl_displacement_ref := osl_displacement_ref s |}.

(** The part of [OSLShaderManager::device_free] on the globals; the rest is
    [device_free_common] of shader.cpp. *)
Definition device_free (og : OSLGlobals) : OSLGlobals :=
  {| og_use := false; og_ss := None; og_ts := None;
     og_services := og_services og;
     surface_state := []; volume_state := []; displacement_state := [];
     bump_state := []; background_state := None |}.

(** "push state to array for lookup" *)
Definition push_state (og : OSLGlobals) (s : Shader) : OSLGlobals :=
  {| og_use := og_use og; og_ss := og_ss og; og_ts := og_ts og;
     og_services := og_services og;
     surface_state := surface_state og ++ [osl_surface_ref s];
     volume_state := volume_state og ++ [osl_volume_ref s];
     displacement_state := displacement_state og ++ [osl_displacement_ref s];
     bump_state := bump_state og ++ [osl_surface_bump_ref s];
     background_state := background_state og |}.

Section Updates.
Context `{Ext : External}.

(** [OSLCompiler::OSLCompiler(manager, services, ss, scene)] *)
Definition OSLCompiler_new (m : OSLShaderManager) : OSLCompiler :=
  {| manager := m; current_type := SHADER_TYPE_SURFACE; current_shader := None;
     node_compiles := [] |}.

(** The body of the loop of [host_update_specific]; [get_cancel k] is the
    answer of [progress.get_cancel()] at the k-th shader. A shader without a
    graph fails the assertion. The [background] of the compiler is read by
    the [compile] of the nodes only, whose calls a node carries. *)
Definition host_update_shader (fuel : nat) (get_cancel : nat → bool)
    (u : HostLoop) (sh : SceneShader) : outcome HostLoop :=
  if loop_returned u then
    Ok {| loop_manager := loop_manager u; loop_shaders := loop_shaders u ++ [sh];
          loop_tags := loop_tags u; loop_returned := true |}
  else
    match graph (scene_shader sh) with
    | None => Fail null_pointer
    | Some _ =>
        if get_cancel (length (loop_shaders u)) then
          Ok {| loop_manager := loop_manager u; loop_shaders := loop_shaders u ++ [sh];
                loop_tags := loop_tags u; loop_returned := true |}
        else
          '(c, shader) ← compile fuel (OSLCompiler_new (loop_manager u)) (scene_shader sh);
          Ok {| loop_manager := manager c;
                loop_shaders := loop_shaders u ++
                                [{| scene_shader := shader; use_mis := use_mis sh |}];
                loop_tags := if use_mis sh && has_surface_emission shader
                             then S (loop_tags u) else loop_tags u;
                loop_returned := false |}
    end.

(** The handle of a built-in texture. *)
Definition builtin_texture (ty : OSLTextureHandle.Type_) : OSLTextureHandle :=
  {| handle_type := ty; handle_svm_slot := None; handle_colorspace := None |}.

(** [OSLShaderManager::host_update_specific]; [need_update] is the answer of
    [need_update()]. The timer and the log are left out. *)
Definition host_update_specific (fuel : nat) (need_update : bool)
    (get_cancel : nat → bool) (h : Host) (scene : Scene) : outcome (Host * Scene) :=
  if negb need_update then Ok (h, scene)
  else
    u ← for_each (host_update_shader fuel get_cancel)
          {| loop_manager := host_manager h; loop_shaders := [];
             loop_tags := light_manager_tags scene; loop_returned := false |}
          (shaders scene);
    let scene :=
      {| shaders := loop_shaders u;
         image_manager_osl_texture_system := ts (host_manager h);
         light_manager_tags := loop_tags u |} in
    if loop_returned u then
      Ok ({| host_manager := loop_manager u; host_textures := host_textures h;
             optimize_all_groups_calls := optimize_all_groups_calls h |}, scene)
    else
      Ok ({| host_manager := loop_manager u;
             host_textures :=
               {| inserted := inserted (host_textures h) ++
                              [("@ao", builtin_texture OSLTextureHandle.AO);
                               ("@bevel", builtin_texture OSLTextureHandle.BEVEL)];
                  texture_shared_unique_id :=
                    texture_shared_unique_id (host_textures h) |};
             optimize_all_groups_calls := S (optimize_all_groups_calls h) |}, scene).

(** [OSLShaderManager::device_update_specific], on the globals and the
    shaders; [background_id] is the answer of [get_shader_id] for the
    shader of the background and [SHADER_MASK] the mask of kernel_types.h.
    The returned number is [update_flags]. What [device_free_common] and
    [device_update_common] of shader.cpp do is left out. *)
Definition device_update_specific (need_update : bool) (background_id SHADER_MASK : Z)
    (update_flags : Z) (m : OSLShaderManager) (og : OSLGlobals) (scene : Scene)
    : outcome (OSLGlobals * Scene * Z) :=
  if negb need_update then Ok (og, scene, update_flags)
  else
    let og := device_free og in
    let og :=
      {| og_use := og_use og; og_ss := ss m; og_ts := ts m; og_services := services m;
         surface_state := surface_state og; volume_state := volume_state og;
         displacement_state := displacement_state og; bump_state := bump_state og;
         background_state := background_state og |} in
    let og := foldl (λ og sh, push_state og (scene_shader sh)) og (shaders scene) in
    let scene :=
      {| shaders := (λ sh, {| scene_shader := clear_modified (scene_shader sh);
                              use_mis := use_mis sh |}) <$> shaders scene;
         image_manager_osl_texture_system := image_manager_osl_texture_system scene;
         light_manager_tags := light_manager_tags scene |} in
    let background_state_index := Z.land background_id SHADER_MASK in
    if background_state_index <? 0 then Fail out_of_range
    else
      match surface_state og !! Z.to_nat background_state_index with
      | None => Fail out_of_range
      | Some state =>
          Ok ({| og_use := true; og_ss := og_ss og; og_ts := og_ts og;
                 og_services := og_services og;
                 surface_state := surface_state og; volume_state := volume_state og;
                 displacement_state := displacement_state og;
                 bump_state := bump_state og; background_state := state |},
              scene, 0)
      end.

End Updates.

(** ** Arrays of vectors as parameters *)

(** [float3], the three components that osl.cpp reads. *)
Module Float3.
Record t := { x : float; y : float; z : float }.
End Float3.

(** The components of a vector, in the order in which they are copied. *)
Definition components (v : Float3.t) : list float :=
  [Float3.x v; Float3.y v; Float3.z v].

(** [array<T> a(size)]: [size] elements that were not written yet; [junk] is
    what the memory holds. *)
Definition array_new {A} (junk : nat → A) (size : nat) : list A :=
  junk <$> seq 0 size.

(** [a[k] = v] *)
Definition array_set {A} (k : nat) (v : A) (a : list A) : outcome (list A) :=
  if (k <? length a)%nat then Ok (<[k := v]> a) else Fail out_of_range.

(** [TypeDesc::TypeColor] of OpenImageIO. *)
Definition TypeColor : TypeDesc.t :=
  {| TypeDesc.basetype := TypeDesc.FLOAT; TypeDesc.aggregate := TypeDesc.VEC3;
     TypeDesc.vecsemantics := TypeDesc.COLOR; TypeDesc.arraylen := 0 |}.

(** [array_typedesc]; a size is converted to the [int] that it takes by
    [wrap_int]. *)
Definition array_typedesc (typedesc : TypeDesc.t) (arraylength : Z) : TypeDesc.t :=
  {| TypeDesc.basetype := TypeDesc.basetype typedesc;
     TypeDesc.aggregate := TypeDesc.aggregate typedesc;
     TypeDesc.vecsemantics := TypeDesc.vecsemantics typedesc;
     TypeDesc.arraylen := arraylength |}.

(** The body of the loop "convert to tightly packed array since float3 has
    padding", on [fvalue] and [j]. *)
Definition pack_float3 (s : list float * nat) (v : Float3.t)
    : outcome (list float * nat) :=
  let '(fvalue, j) := s in
  fvalue ← array_set j (Float3.x v) fvalue;
  let j := S j in
  fvalue ← array_set j (Float3.y v) fvalue;
  let j := S j in
  fvalue ← array_set j (Float3.z v) fvalue;
  let j := S j in
  Ok (fvalue, j).

(** The case of the arrays of colours, vectors, points and normals in
    [OSLCompiler::parameter(node, name)], after the inner [switch] has chosen
    [typedesc]: the type and the data that [ss->Parameter] is given. *)
Definition parameter_float3_array (junk : nat → float) (typedesc : TypeDesc.t)
    (value : list Float3.t) : outcome (TypeDesc.t * list float) :=
  '(fvalue, _) ← for_each pack_float3 (array_new junk (length value * 3), 0%nat) value;
  Ok (array_typedesc typedesc (wrap_int (Z.of_nat (length value))), fvalue).

(** [table[i][k] = v] on an array of [float[3]]. *)
Definition table_set (i k : nat) (v : float) (table : list (list float))
    : outcome (list (list float)) :=
  cell ← at_index table i;
  cell ← array_set k v cell;
  array_set i cell table.

(** The body of the loop of [parameter_color_array]. *)
Definition color_table_step (f : list Float3.t) (table : list (list float)) (i : nat)
    : outcome (list (list float)) :=
  v ← at_index f i;
  table ← table_set i 0 (Float3.x v) table;
  table ← table_set i 1 (Float3.y v) table;
  table_set i 2 (Float3.z v) table.

(** [OSLCompiler::parameter_color_array]: the type and the data that
    [ss->Parameter] is given. The index of the loop is an [int], which goes
    through the indices of [f] if these are no more than [INT_MAX]. *)
Definition parameter_color_array (junk : nat → nat → float) (f : list Float3.t)
    : outcome (TypeDesc.t * list float) :=
  let table := array_new (λ i, array_new (junk i) 3) (length f) in
  table ← for_each (color_table_step f) table (seq 0 (length f));
  let type := array_typedesc TypeColor (wrap_int (Z.of_nat (length table))) in
  Ok (type, concat table).

(** ** More examples *)

(** A graph with a cycle: the node on the Surface input of the Output node
    and the node on its input are linked from each other. *)
Definition cycle : ShaderGraph :=
  {| nodes := [example_output (from 1) None None None;
               example_node SHADER_SPECIAL_TYPE_NONE [example_input "In" (from 2)] "node_a";
               example_node SHADER_SPECIAL_TYPE_NONE [example_input "In" (from 1)] "node_b"];
     output := 0%nat |}.

(** The parameters of a bytecode: a colour with a default value, an array of
    floats, a closure that is an output, and a matrix. *)
Definition example_parameter (name : string) (ty : TypeDesc.t) (out closure : bool)
    (defaults : list float) : QueryParameter :=
  {| param_name := name; param_type := ty; isoutput := out; validdefault := true;
     varlenarray := false; isstruct := false; isclosure := closure;
     idefault := []; fdefault := defaults; sdefault := [] |}.

Definition example_getparams (bytecode : string) : list QueryParameter :=
  [example_parameter "Color"
     {| TypeDesc.basetype := TypeDesc.FLOAT; TypeDesc.aggregate := TypeDesc.VEC3;
        TypeDesc.vecsemantics := TypeDesc.COLOR; TypeDesc.arraylen := 0 |}
     false false [1; 2; 3];
   example_parameter "Ramp"
     {| TypeDesc.basetype := TypeDesc.FLOAT; TypeDesc.aggregate := TypeDesc.SCALAR;
        TypeDesc.vecsemantics := TypeDesc.NOSEMANTICS; TypeDesc.arraylen := 8 |}
     false false [];
   example_parameter "BSDF"
     {| TypeDesc.basetype := TypeDesc.BASETYPE_OTHER 0; TypeDesc.aggregate := TypeDesc.SCALAR;
        TypeDesc.vecsemantics := TypeDesc.NOSEMANTICS; TypeDesc.arraylen := 0 |}
     true true [];
   example_parameter "Matrix"
     {| TypeDesc.basetype := TypeDesc.FLOAT; TypeDesc.aggregate := TypeDesc.MATRIX44;
        TypeDesc.vecsemantics := TypeDesc.NOSEMANTICS; TypeDesc.arraylen := 0 |}
     false false []].

(** The node that [osl_node] makes of these parameters, under the hash
    "hash". *)
Definition example_osl_node : OSLNode :=
  {| osl_num_inputs := 2;
     osl_inputs := [("Color", SocketType.COLOR, Some (Default_float3 1 2 3))];
     osl_outputs := [("BSDF", SocketType.CLOSURE)];
     osl_bytecode_hash := "hash"; osl_filepath := "" |}.

(** The result of a call, or [d] if it failed. *)
Definition result_or {A} (d : A) (r : outcome A) : A :=
  match r with
  | Ok a => a
  | Fail _ => d
  end.

(** Whether a call returned. *)
Definition succeeded {A} (r : outcome A) : bool :=
  match r with
  | Ok _ => true
  | Fail _ => false
  end.

(** The shared systems and the manager after the first manager was
    constructed. *)
Definition first_manager : Statics * @OSLShaderManager example_external :=
  OSLShaderManager_construct no_systems (example_manager ∅).

(** Textures before any was inserted. *)
Definition no_textures : Textures :=
  {| inserted := []; texture_shared_unique_id := 0 |}.

(** A scene of a shader that was compiled before and a shader that was
    modified, and the host before an update. *)
Definition example_scene : Scene :=
  {| shaders := [ {| scene_shader := compiled_before; use_mis := true |};
                  {| scene_shader := example_shader diamond 1 DISPLACE_BUMP;
                     use_mis := false |} ];
     image_manager_osl_texture_system := None;
     light_manager_tags := 0 |}.

Definition idle_scene : Scene :=
  {| shaders := [ {| scene_shader := compiled_before; use_mis := true |} ];
     image_manager_osl_texture_system := None;
     light_manager_tags := 0 |}.

Definition example_host : @Host example_external :=
  {| host_manager := example_manager ∅; host_textures := no_textures;
     optimize_all_groups_calls := 0 |}.

(** Globals of the device before any update. *)
Definition no_globals : OSLGlobals :=
  {| og_use := false; og_ss := None; og_ts := None; og_services := None;
     surface_state := []; volume_state := []; displacement_state := [];
     bump_state := []; background_state := None |}.

Section PolicyProofs.
Context `{Ext : External}.

(** ** The skip-input policy *)

Lemma name_guard (a b : string) (ty ty' : ShaderType) :
  String.eqb a b && negb (bool_decide (ty = ty')) = true ↔ a = b ∧ ty ≠ ty'.
Proof.
  rewrite andb_true_iff, negb_true_iff, bool_decide_eq_false.
  by rewrite String.eqb_eq.
Qed.

(** C1 (amended): [node_skip_input] returns true exactly when the input is
    internal-only, or the node is the Output node and the input is the
    "Surface", "Volume", "Displacement" or "Normal" input of another context,
    or the node is a Bump node and the input is "Height", or the node is
    neither the Output node nor a Bump node, the context is Displacement and
    the input is linked from a Bump node. *)
Theorem node_skip_input_policy g ty node i :
  node_skip_input g ty node i = true ↔ skip_rules g ty node i.
Proof.
  unfold node_skip_input, skip_rules, rule_internal, rule_output,
    rule_bump_height, rule_from_bump.
  destruct (svm_internal i) eqn:Hint; [tauto|].
  destruct (decide (special_type node = SHADER_SPECIAL_TYPE_OUTPUT)) as [Ho|Ho].
  { rewrite bool_decide_eq_true_2 by done. rewrite <- !name_guard.
    repeat match goal with
           | |- context [if ?c then true else _] => destruct c
           end; intuition congruence. }
  rewrite bool_decide_eq_false_2 by done.
  destruct (decide (special_type node = SHADER_SPECIAL_TYPE_BUMP)) as [Hb|Hb].
  { rewrite bool_decide_eq_true_2 by done.
    destruct (String.eqb_spec (input_name i) "Height"); intuition congruence. }
  rewrite bool_decide_eq_false_2 by done.
  case_bool_decide as Hty.
  - destruct (link i) as [l|]; [case_bool_decide as Hp|].
    + split; [|done]. intros _. do 3 right. eauto 10.
    + split; [done|]. intros [?|[[? _]|[[? _]|(_ & _ & _ & l' & Hl & ?)]]]; try done.
      by simplify_eq.
    + split; [done|]. intros [?|[[? _]|[[? _]|(_ & _ & _ & l' & Hl & ?)]]]; done.
  - split; [done|]. intros [?|[[? _]|[[? _]|(_ & _ & ? & _)]]]; done.
Qed.

End PolicyProofs.

Section SharedProofs.
Context `{Ext : External}.

(** ** The shared systems *)

Lemma wrap_int_id z : INT_MIN ≤ z ≤ INT_MAX → wrap_int z = z.
Proof.
  unfold INT_MIN, INT_MAX, wrap_int. intros H.
  rewrite Z.mod_small; lia.
Qed.

Lemma texture_system_init_invariant st m :
  ts_shared_users st < INT_MAX → INT_MIN < ts_shared_users st →
  ts_invariant st → ts_invariant (texture_system_init st m).1.
Proof.
  unfold ts_invariant, texture_system_init. simpl. intros Hmax Hmin Hinv.
  rewrite wrap_int_id by lia.
  destruct (Z.eqb_spec (ts_shared_users st) 0) as [E|E].
  - rewrite E. split; [lia|]. eauto.
  - rewrite Hinv. lia.
Qed.

Lemma texture_system_free_invariant st m :
  ts_shared_users st < INT_MAX → INT_MIN < ts_shared_users st →
  ts_invariant st →
  ∃ st' m', texture_system_free st m = Ok (st', m') ∧
    ts_shared_users st' = ts_shared_users st - 1 ∧
    ts_shared st' = (if Z.eqb (ts_shared_users st') 0 then None else ts_shared st) ∧
    ts m' = None ∧
    ts_invariant st'.
Proof.
  unfold ts_invariant, texture_system_free. intros Hmax Hmin Hinv.
  rewrite wrap_int_id by lia.
  destruct (Z.eqb_spec (ts_shared_users st - 1) 0) as [E|E].
  - destruct (ts_shared st) as [t|] eqn:Hts.
    + simpl. do 2 eexists. split; [done|]. simpl. rewrite E. simpl.
      split_and!; [done..|]. split; [intros [? ?]; done | lia].
    + assert (0 < ts_shared_users st) as H%Hinv by lia. by destruct H.
  - simpl. do 2 eexists. split; [done|]. simpl.
    destruct (Z.eqb_spec (ts_shared_users st - 1) 0); [done|].
    split_and!; [done..|]. rewrite Hinv; lia.
Qed.

Lemma shading_system_init_invariant st m :
  ss_shared_users st < INT_MAX → INT_MIN < ss_shared_users st →
  ss_invariant st → ss_invariant (shading_system_init st m).1.
Proof.
  unfold ss_invariant, shading_system_init. simpl. intros Hmax Hmin [Hss Hsv].
  rewrite wrap_int_id by lia.
  destruct (Z.eqb_spec (ss_shared_users st) 0) as [E|E].
  - rewrite E. split; (split; [lia|eauto]).
  - rewrite Hss, Hsv. lia.
Qed.

Lemma shading_system_free_invariant st m :
  ss_shared_users st < INT_MAX → INT_MIN < ss_shared_users st →
  ss_invariant st → ss_invariant (shading_system_free st m).1.
Proof.
  unfold ss_invariant, shading_system_free. simpl. intros Hmax Hmin [Hss Hsv].
  rewrite wrap_int_id by lia.
  destruct (Z.eqb_spec (ss_shared_users st - 1) 0) as [E|E].
  - rewrite E. split; (split; [intros [? ?]; done | lia]).
  - rewrite Hss, Hsv. lia.
Qed.

(** C9: the shared texture system and the shared shading system are counted
    by their users. While the count stays inside the range of [int]:
    [texture_system_init] and [shading_system_init] construct the shared
    instance only when the count is zero and always add one to the count;
    [texture_system_free] and [shading_system_free] always take one from the
    count and destroy the shared instance only when the count comes to zero;
    each of them keeps "the shared instance is there exactly when the count is
    positive", and an init followed by a free gives back the shared state. *)
Theorem shared_systems_reference_counted (st : Statics) (m : OSLShaderManager) :
  INT_MIN < ts_shared_users st < INT_MAX →
  INT_MIN < ss_shared_users st < INT_MAX →
  (* texture_system_init *)
  (let '(st', m') := texture_system_init st m in
   ts_shared_users st' = ts_shared_users st + 1 ∧
   ts_shared st' = (if Z.eqb (ts_shared_users st) 0 then Some TextureSystem_create
                    else ts_shared st) ∧
   ts m' = ts_shared st' ∧
   (ts_invariant st → ts_invariant st')) ∧
  (* texture_system_free *)
  (ts_invariant st →
   ∃ st' m', texture_system_free st m = Ok (st', m') ∧
     ts_shared_users st' = ts_shared_users st - 1 ∧
     ts_shared st' = (if Z.eqb (ts_shared_users st') 0 then None else ts_shared st) ∧
     ts m' = None ∧
     ts_invariant st') ∧
  (* shading_system_init *)
  (let '(st', m') := shading_system_init st m in
   ss_shared_users st' = ss_shared_users st + 1 ∧
   (ss_shared_users st ≠ 0 →
    ss_shared st' = ss_shared st ∧ services_shared st' = services_shared st) ∧
   (ss_shared_users st = 0 → is_Some (ss_shared st') ∧ is_Some (services_shared st')) ∧
   ss m' = ss_shared st' ∧ services m' = services_shared st' ∧
   (ss_invariant st → ss_invariant st')) ∧
  (* shading_system_free *)
  (let '(st', m') := shading_system_free st m in
   ss_shared_users st' = ss_shared_users st - 1 ∧
   ss_shared st' = (if Z.eqb (ss_shared_users st') 0 then None else ss_shared st) ∧
   services_shared st' =
     (if Z.eqb (ss_shared_users st') 0 then None else services_shared st) ∧
   ss m' = None ∧ services m' = None ∧
   (ss_invariant st → ss_invariant st')) ∧
  (* an init and the free that follows it *)
  (ts_invariant st →
   let '(st1, m1) := texture_system_init st m in
   ∃ m2, texture_system_free st1 m1 = Ok (st, m2)) ∧
  (ss_invariant st →
   let '(st1, m1) := shading_system_init st m in
   (shading_system_free st1 m1).1 = st).
Proof.
  intros [Htmin Htmax] [Hsmin Hsmax].
  split; [|split; [|split; [|split; [|split]]]].
  - pose proof (texture_system_init_invariant st m Htmax Htmin) as Hinv.
    unfold texture_system_init in *. simpl in *.
    split_and!; [apply wrap_int_id; lia | done | done | exact Hinv].
  - by apply texture_system_free_invariant.
  - pose proof (shading_system_init_invariant st m Hsmax Hsmin) as Hinv.
    unfold shading_system_init in *. simpl in *.
    split_and!; [apply wrap_int_id; lia | | | done | done | exact Hinv].
    + intros E. by destruct (Z.eqb_spec (ss_shared_users st) 0).
    + intros ->. simpl. eauto.
  - pose proof (shading_system_free_invariant st m Hsmax Hsmin) as Hinv.
    unfold shading_system_free in *. simpl in *.
    split_and!; [apply wrap_int_id; lia | done.. | exact Hinv].
  - intros Hinv. unfold texture_system_init, texture_system_free. simpl.
    unfold ts_invariant in Hinv.
    rewrite (wrap_int_id (_ + 1)) by lia.
    replace (ts_shared_users st + 1 - 1) with (ts_shared_users st) by lia.
    rewrite wrap_int_id by lia.
    destruct st as [tsh tu ssh svs su]; simpl in *.
    destruct (Z.eqb_spec tu 0) as [E|E]; simpl.
    + eexists. do 3 f_equal. destruct tsh; [|done].
      assert (0 < tu) by (apply Hinv; eauto). lia.
    + eexists. done.
  - intros [Hss Hsv]. unfold shading_system_init, shading_system_free. simpl.
    rewrite (wrap_int_id (_ + 1)) by lia.
    replace (ss_shared_users st + 1 - 1) with (ss_shared_users st) by lia.
    rewrite wrap_int_id by lia.
    destruct st as [tsh tu ssh svs su]; simpl in *.
    destruct (Z.eqb_spec su 0) as [E|E]; simpl; [|done].
    f_equal.
    + destruct ssh; [|done]. assert (0 < su) by (apply Hss; eauto). lia.
    + destruct svs; [|done]. assert (0 < su) by (apply Hsv; eauto). lia.
Qed.

End SharedProofs.

Section LoaderProofs.
Context `{Ext : External}.

(** ** The shader loader *)

Lemma shader_test_loaded_Some m key hash :
  shader_test_loaded m key = Some hash ↔
  hash = key ∧ is_Some (loaded_shaders m !! key).
Proof.
  unfold shader_test_loaded.
  destruct (loaded_shaders m !! key); split; [|intros [-> _]| |intros [_ [? ?]]];
    naive_solver.
Qed.

Lemma read_and_load_Some m path time hash m1 :
  read_and_load m path time = (Some hash, m1) →
  hash = shader_filepath_hash path time ∧
  is_Some (loaded_shaders m1 !! hash) ∧
  files m1 = files m ∧
  file_reads m1 = file_reads m ++ [path].
Proof.
  unfold read_and_load, read_text, shader_load_bytecode.
  destruct (path_read_text (files m) path) as [bytecode|]; [|done].
  intros [= <- <-]. simpl. rewrite lookup_insert_eq. eauto.
Qed.

Lemma read_and_load_None m path time m1 :
  read_and_load m path time = (None, m1) →
  path_read_text (files m) path = None ∧
  loaded_shaders m1 =
    <[shader_filepath_hash path time := OSLShaderInfo_new]> (loaded_shaders m) ∧
  files m1 = files m ∧
  file_reads m1 = file_reads m ++ [path].
Proof.
  unfold read_and_load, read_text, shader_load_bytecode.
  destruct (path_read_text (files m) path) as [bytecode|]; [done|].
  by intros [= <-].
Qed.

(** What a first call that returns a hash leaves behind. *)
Lemma shader_load_filepath_Some m filepath hash m1 :
  shader_load_filepath m filepath = Ok (Some hash, m1) →
  hash = shader_filepath_hash (bytecode_path filepath)
           (bytecode_time (files m1) filepath) ∧
  is_Some (loaded_shaders m1 !! hash).
Proof.
  unfold shader_load_filepath, bytecode_path, bytecode_time.
  destruct (String.length filepath <? 4)%nat; [done|].
  destruct (String.eqb (file_extension filepath) ".osl").
  - destruct (Z.eqb_spec (path_modified_time (files m) (oso_path filepath)) 0) as [E|E].
    + simpl. intros [= H].
      apply read_and_load_Some in H as (-> & ? & Hf & _). by rewrite Hf.
    + destruct (shader_test_loaded m _) as [h|] eqn:Ht.
      * intros [= <- <-]. by apply shader_test_loaded_Some in Ht as [-> ?].
      * simpl. destruct (Z.ltb _ _); intros [= H];
          apply read_and_load_Some in H as (-> & ? & Hf & _); by rewrite Hf.
  - destruct (String.eqb (file_extension filepath) ".oso");
      [|destruct (String.eqb (path_dirname filepath) ""); [|done]];
      (destruct (shader_test_loaded m _) as [h|] eqn:Ht;
       [intros [= <- <-]; by apply shader_test_loaded_Some in Ht as [-> ?]
       |intros [= H]; apply read_and_load_Some in H as (-> & ? & Hf & _);
        by rewrite Hf]).
Qed.

(** C7: a call of [shader_load_filepath] that returned a hash is answered
    from [loaded_shaders] when it is repeated on the same path with the files
    unchanged: the second call returns the same hash and changes nothing, so
    it reads no file and runs no compiler; the entry is under the hash of the
    bytecode path and the modification time. For a .osl source the
    modification time of its .oso file is not zero (zero is what
    [path_modified_time] gives for a file that is not there). *)
Theorem shader_load_filepath_memoizes m filepath hash m1 :
  shader_load_filepath m filepath = Ok (Some hash, m1) →
  (file_extension filepath = ".osl" →
   path_modified_time (files m1) (oso_path filepath) ≠ 0) →
  shader_load_filepath m1 filepath = Ok (Some hash, m1) ∧
  hash = shader_filepath_hash (bytecode_path filepath)
           (bytecode_time (files m1) filepath) ∧
  is_Some (loaded_shaders m1 !! hash).
Proof.
  intros Hfirst Hoso.
  destruct (shader_load_filepath_Some _ _ _ _ Hfirst) as [Hhash Hloaded].
  split; [|done].
  assert (shader_test_loaded m1 hash = Some hash) as Htest
    by by apply shader_test_loaded_Some.
  revert Hfirst Hhash. unfold shader_load_filepath, bytecode_path, bytecode_time.
  destruct (String.length filepath <? 4)%nat; [done|].
  destruct (String.eqb_spec (file_extension filepath) ".osl") as [Hext|Hext].
  - intros _ Hhash. apply Hoso in Hext.
    destruct (Z.eqb_spec (path_modified_time (files m1) (oso_path filepath)) 0);
      [done|].
    by rewrite <- Hhash, Htest.
  - intros Hfirst Hhash.
    destruct (String.eqb (file_extension filepath) ".oso");
      [|destruct (String.eqb (path_dirname filepath) ""); [|done]];
      by rewrite <- Hhash, Htest.
Qed.

End LoaderProofs.

Section ResolverProofs.
Context `{Ext : External}.
Implicit Types (g : ShaderGraph) (ty : ShaderType) (n p : node_id)
  (deps : gset node_id) (i : ShaderInput).

(** ** The dependency resolver *)

Lemma depends_on_inv g ty n p :
  depends_on g ty n p ↔
  ∃ i l, i ∈ inputs (node_at g n) ∧ node_skip_input g ty (node_at g n) i = false ∧
         link i = Some l ∧ parent l = p.
Proof.
  unfold depends_on, relevant_parents. rewrite list_elem_of_omap. split.
  - intros (i & Hi & Hp). destruct (node_skip_input _ _ _ i) eqn:Hs; [done|].
    destruct (link i) as [l|] eqn:Hl; simplify_eq/=. eauto 10.
  - intros (i & l & Hi & Hs & Hl & <-). exists i. by rewrite Hs, Hl.
Qed.

Lemma reaches_through g ty i n i' m :
  reaches g ty i n → i' ∈ inputs (node_at g n) →
  node_skip_input g ty (node_at g n) i' = false →
  reaches g ty i' m → reaches g ty i m.
Proof.
  intros Hn Hi' Hs. induction 1 as [l Hl|m' m _ IH Hd].
  - eapply reaches_step; [done|]. apply depends_on_inv. eauto 10.
  - by eapply reaches_step.
Qed.

Lemma for_each_app {A S} (body : S → A → outcome S) s l1 l2 :
  for_each body s (l1 ++ l2) = (s' ← for_each body s l1; for_each body s' l2).
Proof.
  revert s. induction l1 as [|a l1 IH]; intros s; simpl; [done|].
  destruct (body s a); simpl; [apply IH|done].
Qed.

Lemma in_order_app g ty before l1 l2 :
  in_order g ty before (l1 ++ l2) ↔
  in_order g ty before l1 ∧ in_order g ty (list_to_set l1 ∪ before) l2.
Proof.
  revert before. induction l1 as [|n l1 IH]; intros before; simpl.
  - rewrite (left_id_L ∅ (∪)). tauto.
  - rewrite IH. replace (list_to_set l1 ∪ ({[n]} ∪ before))
      with ({[n]} ∪ list_to_set l1 ∪ before) by set_solver. tauto.
Qed.

Lemma in_order_closed g ty before l :
  closed g ty before → in_order g ty before l →
  closed g ty (list_to_set l ∪ before).
Proof.
  revert before. induction l as [|n l IH]; intros before Hc Ho; simpl in *.
  - by rewrite (left_id_L ∅ (∪)).
  - destruct Ho as (Hn & Hp & Ho).
    replace ({[n]} ∪ list_to_set l ∪ before)
      with (list_to_set l ∪ ({[n]} ∪ before)) by set_solver.
    apply IH; [|done]. intros m p [->%elem_of_singleton|Hm]%elem_of_union Hd.
    + set_solver.
    + apply elem_of_union_r. by eapply Hc.
Qed.

Lemma closed_reaches g ty s i n :
  closed g ty s → (∀ l, link i = Some l → parent l ∈ s) →
  reaches g ty i n → n ∈ s.
Proof. intros Hc Hl. induction 1; [by apply Hl|by eapply Hc]. Qed.

Lemma resolved_nothing g ty deps i :
  (∀ l, link i = Some l → parent l ∈ deps) → resolved g ty deps i deps.
Proof.
  intros Hl. exists []. simpl. split_and!; [set_solver|done|done|].
  by intros n ?%elem_of_nil.
Qed.

Lemma find_dependencies_resolved fuel g ty deps i deps' :
  closed g ty deps →
  find_dependencies fuel g ty deps i = Ok deps' →
  resolved g ty deps i deps'.
Proof.
  revert deps i deps'. induction fuel as [|fuel IH]; intros deps i deps' Hc; simpl.
  - destruct (link i) as [l|] eqn:Hl.
    + case_bool_decide as Hin; [|done]. intros [= <-].
      apply resolved_nothing. intros ??. by simplify_eq.
    + intros [= <-]. apply resolved_nothing. intros ??. by simplify_eq.
  - destruct (link i) as [l|] eqn:Hl.
    2:{ intros [= <-]. apply resolved_nothing. intros ??. by simplify_eq. }
    case_bool_decide as Hin.
    { intros [= <-]. apply resolved_nothing. intros ??. by simplify_eq. }
    set (n := parent l) in *.
    (* the loop over the inputs of the node *)
    assert (∀ ins deps0 deps1,
      ins ⊆ inputs (node_at g n) → closed g ty deps0 →
      for_each (λ d i', if node_skip_input g ty (node_at g n) i' then Ok d
                        else find_dependencies fuel g ty d i') deps0 ins = Ok deps1 →
      ∃ added, deps1 = list_to_set added ∪ deps0 ∧
               in_order g ty deps0 added ∧
               (∀ i' l', i' ∈ ins → node_skip_input g ty (node_at g n) i' = false →
                         link i' = Some l' → parent l' ∈ deps1) ∧
               (∀ m, m ∈ added → ∃ i', i' ∈ ins ∧
                  node_skip_input g ty (node_at g n) i' = false ∧
                  reaches g ty i' m)) as Hloop.
    { induction ins as [|i' ins IHins]; intros deps0 deps1 Hsub Hc0; simpl.
      - intros [= <-]. exists []. simpl.
        split_and!; [set_solver|done|set_solver|set_solver].
      - destruct (node_skip_input g ty (node_at g n) i') eqn:Hs; simpl.
        + intros (added & -> & Ho & Hl' & Hr)%IHins; [|set_solver|done].
          exists added. split_and!; [done..| |].
          * intros i2 l2 [->|?]%elem_of_cons ??; [congruence|by eapply Hl'].
          * intros m (i2 & ? & ? & ?)%Hr. exists i2. set_solver.
        + destruct (find_dependencies fuel g ty deps0 i') as [d|] eqn:Hfd; [|done].
          simpl. apply IH in Hfd as (a1 & -> & Ho1 & Hl1 & Hr1); [|done].
          intros (a2 & -> & Ho2 & Hl2 & Hr2)%IHins;
            [|set_solver|by apply in_order_closed].
          exists (a1 ++ a2). split_and!.
          * rewrite list_to_set_app_L. set_solver.
          * by apply in_order_app.
          * intros i2 l2 [->|?]%elem_of_cons ??; [|by eapply Hl2].
            apply elem_of_union_r. by eapply Hl1.
          * intros m [Hm|Hm]%elem_of_app.
            -- exists i'. split_and!; [set_solver|done|by apply Hr1].
            -- apply Hr2 in Hm as (i2 & ? & ? & ?). exists i2. set_solver. }
    destruct (for_each _ deps (inputs (node_at g n))) as [deps1|] eqn:Hfold; [|done].
    simpl. intros [= <-].
    apply Hloop in Hfold as (added & -> & Ho & Hl' & Hr); [|done..].
    assert (closed g ty (list_to_set added ∪ deps)) as Hc1 by by apply in_order_closed.
    (* the node is not among the nodes that its inputs added *)
    assert (n ∉ added) as Hfresh.
    { intros Hn. destruct (Hr n Hn) as (i' & Hi' & Hs & Hreach).
      apply list_elem_of_split in Hn as (l1 & l2 & ->).
      apply in_order_app in Ho as [Ho1 Ho2]. simpl in Ho2.
      destruct Ho2 as (Hnot & Hp & _).
      apply Hnot. eapply closed_reaches; [by apply in_order_closed| |done].
      intros l' Hl2. apply Hp, depends_on_inv. eauto 10. }
    exists (added ++ [n]). split_and!.
    + rewrite list_to_set_app_L. set_solver.
    + apply in_order_app. split; [done|]. simpl. split_and!; [set_solver| |done].
      intros p (i' & l' & Hi' & Hs & Hl2 & <-)%depends_on_inv. by eapply Hl'.
    + intros l0 Hl0. assert (l0 = l) as -> by congruence. set_solver.
    + intros m [Hm| ->%list_elem_of_singleton]%elem_of_app.
      * destruct (Hr m Hm) as (i' & Hi' & Hs & Hreach).
        eapply reaches_through; [by apply reaches_link|done..].
      * by apply reaches_link.
Qed.

End ResolverProofs.

Section FrameProofs.
Context `{Ext : External}.
Implicit Types (g : ShaderGraph) (ty : ShaderType) (n p : node_id)
  (c : OSLCompiler) (s : Shader).

(** ** What compiling a node leaves as it is *)

Lemma frame_refl ty s : frame ty s s.
Proof. by split. Qed.

Lemma frame_trans ty s1 s2 s3 : frame ty s1 s2 → frame ty s2 s3 → frame ty s1 s3.
Proof.
  intros [H1 H1'] [H2 H2']. split; [congruence|].
  intros Hty. destruct (H1' Hty), (H2' Hty). split; congruence.
Qed.

Lemma kept_refl c : kept c c.
Proof.
  split_and!; [done..|]. destruct (current_shader c); constructor.
  apply frame_refl.
Qed.

Lemma kept_trans c1 c2 c3 : kept c1 c2 → kept c2 c3 → kept c1 c3.
Proof.
  intros (Ht1 & Hl1 & Hg1 & Hs1) (Ht2 & Hl2 & Hg2 & Hs2).
  split_and!; [congruence..|]. rewrite Ht1 in Hs2.
  destruct Hs1 as [s1 s2 H1|]; inversion Hs2; simplify_eq; constructor.
  by eapply frame_trans.
Qed.

Lemma kept_ss_do call c : kept c (ss_do call c).
Proof.
  split_and!; [done..|]. simpl. destruct (current_shader c); constructor.
  apply frame_refl.
Qed.

Lemma kept_foldl {A} (f : OSLCompiler → A → OSLCompiler) (l : list A) c :
  (∀ c a, kept c (f c a)) → kept c (foldl f c l).
Proof.
  intros Hf. revert c. induction l as [|a l IH]; intros c; simpl.
  - apply kept_refl.
  - eapply kept_trans; [apply Hf|apply IH].
Qed.

Lemma kept_for_each {A} (body : OSLCompiler → A → outcome OSLCompiler) (l : list A) c c' :
  (∀ c a c', body c a = Ok c' → kept c c') →
  for_each body c l = Ok c' → kept c c'.
Proof.
  intros Hf. revert c. induction l as [|a l IH]; intros c; simpl.
  - intros [= <-]. apply kept_refl.
  - destruct (body c a) as [c1|] eqn:Hb; [|done]. simpl. intros H.
    eapply kept_trans; [by eapply Hf|by apply IH].
Qed.

Lemma add_flags_kept (node : ShaderNode) info c c' :
  add_flags node info c = Ok c' → kept c c'.
Proof.
  unfold add_flags, kept.
  destruct (current_shader c) as [s|] eqn:Hs, (current_type c) eqn:Hty, info as [info|];
    flag_cases; rewrite ?Hs; simpl;
    intros ?; simplify_eq/=; rewrite ?Hs, ?Hty;
    (split_and!; [done..|]); constructor; by split.
Qed.

Lemma add_flags_total (node : ShaderNode) info c :
  is_Some (current_shader c) → ∃ c', add_flags node info c = Ok c'.
Proof.
  intros [s Hs]. unfold add_flags.
  destruct (current_type c) eqn:Hty, info as [info|];
    flag_cases; rewrite ?Hs; simpl; eauto.
Qed.

Lemma generate_flags_kept (node : ShaderNode) c c' :
  generate_flags node c = Ok c' → kept c c'.
Proof.
  unfold generate_flags, kept.
  destruct (current_shader c) as [s|] eqn:Hs, (current_type c) eqn:Hty;
    flag_cases; rewrite ?Hs; simpl;
    intros ?; simplify_eq/=; rewrite ?Hs, ?Hty;
    (split_and!; [done..|]); constructor; by split.
Qed.

Lemma generate_flags_total (node : ShaderNode) c :
  is_Some (current_shader c) → ∃ c', generate_flags node c = Ok c'.
Proof.
  intros [s Hs]. unfold generate_flags.
  destruct (current_type c) eqn:Hty; flag_cases; rewrite ?Hs; simpl; eauto.
Qed.

End FrameProofs.

Section NodeCompileProofs.
Context `{Ext : External}.
Implicit Types (g : ShaderGraph) (ty : ShaderType) (n p : node_id)
  (c : OSLCompiler) (s : Shader).

Lemma read_and_load_groups m path time :
  groups_begun (read_and_load m path time).2 = groups_begun m.
Proof.
  unfold read_and_load, read_text, shader_load_bytecode.
  by destruct (path_read_text (files m) path).
Qed.

Lemma shader_load_filepath_groups m filepath r m' :
  shader_load_filepath m filepath = Ok (r, m') → groups_begun m' = groups_begun m.
Proof.
  unfold shader_load_filepath.
  pose proof (read_and_load_groups m) as Hm.
  pose proof (read_and_load_groups (osl_compile filepath (oso_path filepath) m)) as Hc.
  intros H.
  repeat match goal with
         | H : context [if ?b then _ else _] |- _ => destruct b
         | H : context [match ?x with _ => _ end] |- _ => destruct x
         end;
    simplify_eq/=; try done;
    match goal with
    | H : read_and_load ?m0 ?p ?t = _ |- _ =>
        first [specialize (Hm p t); by rewrite H in Hm
              |specialize (Hc p t); by rewrite H in Hc]
    end.
Qed.

Lemma shader_load_filepath_total m filepath :
  (4 ≤ String.length filepath)%nat →
  ∃ r m', shader_load_filepath m filepath = Ok (r, m').
Proof.
  intros Hlen. unfold shader_load_filepath.
  destruct (Nat.ltb_spec (String.length filepath) 4); [lia|].
  repeat match goal with
         | |- context [if ?b then _ else _] => destruct b
         | |- context [match ?x with _ => _ end] => destruct x
         end;
    try destruct (read_and_load _ _ _); eauto.
Qed.

Lemma load_kept c name (isfilepath : bool) loaded m :
  (if isfilepath then shader_load_filepath (manager c) name
   else Ok (Some name, manager c)) = Ok (loaded, m) →
  kept c (set_manager m c).
Proof.
  intros Hload. split_and!; [done..| |]; simpl.
  - destruct isfilepath; [|by simplify_eq].
    by eapply shader_load_filepath_groups.
  - destruct (current_shader c); constructor. apply frame_refl.
Qed.

Lemma add_parameters_kept g n c : kept c (add_parameters g n c).
Proof.
  apply kept_foldl. intros c0 i. destruct (link i); [apply kept_refl|].
  repeat case_match; first [apply kept_refl|apply kept_ss_do].
Qed.

Lemma add_connections_kept g n c : kept c (add_connections g n c).
Proof.
  apply kept_foldl. intros c0 i. destruct (link i); [|apply kept_refl].
  repeat case_match; first [apply kept_refl|apply kept_ss_do].
Qed.

Lemma add_kept g c n name isfilepath c' :
  add g c n name isfilepath = Ok c' → kept c c'.
Proof.
  unfold add.
  destruct (if isfilepath then _ else _) as [[loaded m]|] eqn:Hload; [|done]. simpl.
  apply load_kept in Hload.
  destruct loaded as [name'|]; [|by intros [= <-]].
  intros Hflags%add_flags_kept.
  eapply kept_trans; [exact Hload|]. eapply kept_trans; [|exact Hflags].
  eapply kept_trans; [apply add_parameters_kept|].
  eapply kept_trans; [apply kept_ss_do|apply add_connections_kept].
Qed.

Lemma kept_is_Some c c' :
  kept c c' → is_Some (current_shader c) → is_Some (current_shader c').
Proof. intros (_ & _ & _ & H) [s Hs]. rewrite Hs in H. inversion H. eauto. Qed.

Lemma add_total g c n name isfilepath :
  is_Some (current_shader c) →
  (isfilepath = true → (4 ≤ String.length name)%nat) →
  ∃ c', add g c n name isfilepath = Ok c'.
Proof.
  intros Hs Hlen. unfold add.
  destruct (if isfilepath then _ else _) as [[loaded m]|] eqn:Hload.
  2:{ destruct isfilepath; [|done].
      destruct (shader_load_filepath_total (manager c) name) as (? & ? & ?);
        [auto|congruence]. }
  simpl. apply load_kept in Hload. destruct loaded as [name'|]; [|eauto].
  apply add_flags_total.
  eapply kept_is_Some; [|exact Hs].
  eapply kept_trans; [exact Hload|].
  eapply kept_trans; [apply add_parameters_kept|].
  eapply kept_trans; [apply kept_ss_do|apply add_connections_kept].
Qed.

(** [node->compile] logs the node, and leaves the context and the settled
    members of the shader as they are. *)
Lemma node_compile_kept g c n c' :
  node_compile g c n = Ok c' →
  kept (log_node_compile n c) c' ∧ node_compiles c' = node_compiles c ++ [n].
Proof.
  unfold node_compile. intros H.
  assert (kept (log_node_compile n c) c') as Hk.
  { eapply kept_for_each; [|exact H]. intros c0 [param ty|name b] c1.
    - intros [= <-]. apply kept_ss_do.
    - apply add_kept. }
  split; [done|]. by destruct Hk as (_ & -> & _).
Qed.

Lemma compile_calls_total g n calls c :
  is_Some (current_shader c) →
  forallb (λ call, match call with
                   | Call_add name true => (4 <=? String.length name)%nat
                   | _ => true
                   end) calls = true →
  ∃ c', for_each (λ c call,
          match call with
          | Call_parameter param ty => Ok (ss_do (SS_Parameter param ty) c)
          | Call_add name isfilepath => add g c n name isfilepath
          end) c calls = Ok c'.
Proof.
  revert c. induction calls as [|call calls IH]; intros c Hs Hl; simpl in *; [eauto|].
  apply andb_true_iff in Hl as [Hcall Hl].
  destruct call as [param ty'|name b]; simpl.
  - by apply IH.
  - destruct (add_total g c n name b) as [c1 Hc1]; [done| |].
    { intros ->. by apply Nat.leb_le. }
    rewrite Hc1. simpl. apply IH; [|done].
    eapply kept_is_Some; [by eapply add_kept|done].
Qed.

Lemma node_compile_total g c n :
  is_Some (current_shader c) → loads g (current_type c) n = true →
  ∃ c', node_compile g c n = Ok c'.
Proof. intros Hs Hl. by apply compile_calls_total. Qed.

End NodeCompileProofs.

Section GeneratorProofs.
Context `{Ext : External}.
Implicit Types (g : ShaderGraph) (ty : ShaderType) (n p : node_id)
  (c : OSLCompiler) (s : Scan) (l : list node_id).

(** ** The node generator *)

Lemma kept_kept_shader c c' : kept c c' → kept_shader c c'.
Proof. intros (? & _ & ? & ?). by split_and!. Qed.

Lemma kept_shader_refl c : kept_shader c c.
Proof. apply kept_kept_shader, kept_refl. Qed.

Lemma kept_shader_trans c1 c2 c3 :
  kept_shader c1 c2 → kept_shader c2 c3 → kept_shader c1 c3.
Proof.
  intros (Ht1 & Hg1 & Hs1) (Ht2 & Hg2 & Hs2).
  split_and!; [congruence..|]. rewrite Ht1 in Hs2.
  destruct Hs1 as [s1 s2 H1|]; inversion Hs2; simplify_eq; constructor.
  by eapply frame_trans.
Qed.

Lemma kept_shader_is_Some c c' :
  kept_shader c c' → is_Some (current_shader c) → is_Some (current_shader c').
Proof. intros (_ & _ & H) [s Hs]. rewrite Hs in H. inversion H. eauto. Qed.

Lemma inputs_done_spec g ty (done : gset node_id) n :
  inputs_done g ty done (node_at g n) = true ↔
  ∀ p, depends_on g ty n p → p ∈ done.
Proof.
  unfold inputs_done. rewrite forallb_forall. split.
  - intros H p (i & l & Hi & Hs & Hl & <-)%depends_on_inv.
    apply list_elem_of_In in Hi. specialize (H i Hi).
    rewrite Hs, Hl in H. simpl in H. by apply bool_decide_eq_true in H.
  - intros H i Hi%list_elem_of_In.
    destruct (node_skip_input g ty (node_at g n) i) eqn:Hs; [done|]. simpl.
    destruct (link i) as [l|] eqn:Hl; [|done].
    apply bool_decide_eq_true, H, depends_on_inv. eauto 10.
Qed.

Lemma generate_node_visited g s n s' :
  generate_node g s n = Ok s' → visited g s n s'.
Proof.
  unfold generate_node. case_bool_decide as Hdone.
  { intros [= <-]. by apply visited_done. }
  destruct (inputs_done _ _ _ _) eqn:Hin.
  - destruct (node_compile g (compiler s) n) as [c1|] eqn:Hc; [|done]. simpl.
    destruct (generate_flags (node_at g n) c1) as [c2|] eqn:Hf; [|done]. simpl.
    intros [= <-]. apply node_compile_kept in Hc as [Hk Hlog].
    apply generate_flags_kept in Hf.
    apply visited_compiled; simpl; [done|by apply inputs_done_spec|done|done| |].
    + destruct Hf as (_ & -> & _). done.
    + apply kept_kept_shader in Hk, Hf.
      eapply kept_shader_trans; [exact Hk|exact Hf].
  - intros [= <-]. apply visited_put_off; simpl; [done| |done..].
    rewrite <- inputs_done_spec. by rewrite Hin.
Qed.

Lemma generate_node_total g s n :
  is_Some (current_shader (compiler s)) →
  loads g (current_type (compiler s)) n = true →
  ∃ s', generate_node g s n = Ok s'.
Proof.
  intros Hs Hl. unfold generate_node. case_bool_decide; [eauto|].
  destruct (inputs_done _ _ _ _); [|eauto].
  destruct (node_compile_total g (compiler s) n Hs Hl) as [c1 Hc]. rewrite Hc. simpl.
  destruct (generate_flags_total (node_at g n) c1) as [c2 Hf].
  { apply node_compile_kept in Hc as [Hk _].
    eapply kept_is_Some; [exact Hk|done]. }
  rewrite Hf. simpl. eauto.
Qed.

(** One pass: the nodes it compiles, in the order of the log. *)
Lemma pass_compiled g l s s' :
  for_each (generate_node g) s l = Ok s' →
  ∃ compiled,
    node_compiles (compiler s') = node_compiles (compiler s) ++ compiled ∧
    done_set s' = list_to_set compiled ∪ done_set s ∧
    in_order g (current_type (compiler s)) (done_set s) compiled ∧
    (∀ n, n ∈ compiled → n ∈ l) ∧
    kept_shader (compiler s) (compiler s') ∧
    (nodes_done s' = true → nodes_done s = true).
Proof.
  revert s. induction l as [|n l IH]; intros s; simpl.
  - intros [= <-]. exists []. rewrite app_nil_r. simpl.
    split_and!; [done|set_solver|done|done|apply kept_shader_refl|done].
  - destruct (generate_node g s n) as [s1|] eqn:Hn; [|done]. simpl.
    intros (compiled & Hlog & Hdone & Hord & Hsub & Hk & Hnd)%IH.
    apply generate_node_visited in Hn as [Hin ->|Hin Hready Hd1 Hn1 Hl1 Hk1|Hin _ Hd1 Hn1 Hc1].
    + exists compiled. split_and!; [done..|set_solver|done|done].
    + exists (n :: compiled). destruct Hk1 as (Ht & Hk1).
      rewrite Hlog, Hl1, <- app_assoc. rewrite Hdone, Hd1. rewrite Ht, Hd1 in Hord.
      split_and!; [done|set_solver|by simpl|set_solver| |intros ?%Hnd; congruence].
      eapply kept_shader_trans; [by split|done].
    + exists compiled. rewrite Hc1, Hd1 in *.
      split_and!; [done..|set_solver|done|intros ?%Hnd; congruence].
Qed.

Lemma pass_done_grows g l s s' :
  for_each (generate_node g) s l = Ok s' → done_set s ⊆ done_set s'.
Proof. intros (? & _ & -> & _)%pass_compiled. set_solver. Qed.

(** A node whose inputs are done when the pass begins is done when it ends. *)
Lemma pass_ready g ty l s s' n :
  current_type (compiler s) = ty →
  for_each (generate_node g) s l = Ok s' →
  n ∈ l → (∀ p, depends_on g ty n p → p ∈ done_set s) → n ∈ done_set s'.
Proof.
  revert s. induction l as [|a l IH]; intros s Hty; simpl; [by intros _ ?%elem_of_nil|].
  destruct (generate_node g s a) as [s1|] eqn:Ha; [|done]. simpl.
  intros Hrest Hn Hready. pose proof (pass_done_grows _ _ _ _ Hrest) as Hsub.
  apply generate_node_visited in Ha.
  assert (done_set s ⊆ done_set s1 ∧ current_type (compiler s1) = ty) as [Hsub1 Hty1].
  { destruct Ha as [? ->|? ? Hd ? ? (? & _)|? ? Hd ? Hc]; rewrite ?Hd, ?Hc;
      split; first [set_solver|congruence]. }
  apply elem_of_cons in Hn as [->|Hn].
  - destruct Ha as [? ->|? ? Hd ? ? ?|? Hnot ? ? ?].
    + set_solver.
    + set_solver.
    + destruct Hnot. by rewrite Hty.
  - eapply IH; [done..|]. set_solver.
Qed.

(** The pass ends with [nodes_done] only when every node is done. *)
Lemma pass_all_done g l s s' :
  for_each (generate_node g) s l = Ok s' → nodes_done s' = true →
  ∀ n, n ∈ l → n ∈ done_set s'.
Proof.
  revert s. induction l as [|a l IH]; intros s; simpl; [by intros _ _ ? ?%elem_of_nil|].
  destruct (generate_node g s a) as [s1|] eqn:Ha; [|done]. simpl.
  intros Hrest Hnd n Hn. pose proof (pass_done_grows _ _ _ _ Hrest) as Hsub.
  apply elem_of_cons in Hn as [->|Hn]; [|by eapply IH].
  apply generate_node_visited in Ha as [? ->|? ? Hd ? ? ?|? ? ? Hn1 ?].
  - set_solver.
  - set_solver.
  - apply pass_compiled in Hrest as (? & _ & _ & _ & _ & _ & Hnd1).
    rewrite Hnd1 in Hn1; done.
Qed.

(** No node is put off when every node is done or has its inputs done. *)
Lemma pass_none_put_off g ty l s s' :
  current_type (compiler s) = ty →
  for_each (generate_node g) s l = Ok s' →
  (∀ n, n ∈ l → n ∈ done_set s ∨ ∀ p, depends_on g ty n p → p ∈ done_set s) →
  nodes_done s' = nodes_done s.
Proof.
  revert s. induction l as [|a l IH]; intros s Hty; simpl; [by intros [= <-]|].
  destruct (generate_node g s a) as [s1|] eqn:Ha; [|done]. simpl.
  intros Hrest Hall. apply generate_node_visited in Ha.
  assert (done_set s ⊆ done_set s1 ∧ current_type (compiler s1) = ty ∧
          nodes_done s1 = nodes_done s) as (Hsub1 & Hty1 & Hnd1).
  { destruct Ha as [? ->|? ? Hd ? ? (? & _)|? Hnot Hd ? Hc]; rewrite ?Hd, ?Hc;
      [split_and!; first [set_solver|congruence]..|].
    destruct (Hall a) as [?|?]; [set_solver|done|]. destruct Hnot. by rewrite Hty. }
  rewrite <- Hnd1. eapply IH; [done..|].
  intros n Hn. destruct (Hall n) as [?|?]; [set_solver|set_solver|].
  right. set_solver.
Qed.

(** A pass that ends without [nodes_done] leaves a node that is not done. *)
Lemma pass_put_off g l s s' :
  NoDup l → for_each (generate_node g) s l = Ok s' →
  nodes_done s = true → nodes_done s' = false →
  ∃ n, n ∈ l ∧ n ∉ done_set s'.
Proof.
  revert s. induction l as [|a l IH]; intros s Hnodup; simpl; [by intros [= <-] ->|].
  apply NoDup_cons in Hnodup as [Ha_l Hnodup].
  destruct (generate_node g s a) as [s1|] eqn:Ha; [|done]. simpl.
  intros Hrest Hnd Hnd'.
  apply generate_node_visited in Ha as [? ->|? ? Hd Hn1 ? ?|Hin ? Hd ? ?].
  - destruct (IH s Hnodup Hrest Hnd Hnd') as (n & ? & ?). exists n. set_solver.
  - rewrite <- Hn1 in Hnd.
    destruct (IH s1 Hnodup Hrest Hnd Hnd') as (n & ? & ?). exists n. set_solver.
  - exists a. split; [set_solver|].
    apply pass_compiled in Hrest as (compiled & _ & -> & _ & Hsub & _).
    rewrite Hd. intros [Hc%elem_of_list_to_set|?]%elem_of_union; [|done].
    by apply Ha_l, Hsub.
Qed.

Lemma pass_total g l s :
  is_Some (current_shader (compiler s)) →
  (∀ n, n ∈ l → loads g (current_type (compiler s)) n = true) →
  ∃ s', for_each (generate_node g) s l = Ok s'.
Proof.
  revert s. induction l as [|a l IH]; intros s Hs Hl; simpl; [eauto|].
  destruct (generate_node_total g s a) as [s1 Ha]; [done|set_solver|].
  rewrite Ha. simpl. apply generate_node_visited in Ha.
  assert (kept_shader (compiler s) (compiler s1)) as Hk.
  { destruct Ha as [? ->|? ? ? ? ? ?|? ? ? ? ->]; first [done|apply kept_shader_refl]. }
  apply IH; [by eapply kept_shader_is_Some|].
  destruct Hk as (-> & _). set_solver.
Qed.

End GeneratorProofs.

Section LoopProofs.
Context `{Ext : External}.
Implicit Types (g : ShaderGraph) (ty : ShaderType) (n p : node_id)
  (c : OSLCompiler) (s : Scan) (l : list node_id).

Lemma in_order_fresh g ty (before : gset node_id) l :
  in_order g ty before l → NoDup l ∧ ∀ n, n ∈ l → n ∉ before.
Proof.
  revert before. induction l as [|a l IH]; intros before; simpl.
  - intros _. split; [constructor|]. by intros n ?%elem_of_nil.
  - intros (Ha & _ & [Hnodup Hfresh]%IH). split.
    + constructor; [|done]. intros Hin. apply (Hfresh a Hin). set_solver.
    + intros n [->|Hn]%elem_of_cons; [done|]. specialize (Hfresh n Hn). set_solver.
Qed.

Lemma in_order_earlier g ty (before : gset node_id) l1 n l2 p :
  in_order g ty before (l1 ++ n :: l2) → depends_on g ty n p →
  p ∈ before ∨ p ∈ l1.
Proof.
  intros [_ (_ & Hp & _)]%in_order_app Hd. specialize (Hp p Hd). set_solver.
Qed.

Lemma closed_list_spec g ty l n p :
  closed_list g ty l = true → n ∈ l → depends_on g ty n p → p ∈ l.
Proof.
  unfold closed_list, depends_on. rewrite forallb_forall.
  intros H Hn%list_elem_of_In Hp%list_elem_of_In. specialize (H n Hn).
  rewrite forallb_forall in H. specialize (H p Hp).
  by apply bool_decide_eq_true in H.
Qed.

Lemma ranked_spec g ty rank l n p :
  ranked g ty rank l = true → n ∈ l → depends_on g ty n p → (rank p < rank n)%nat.
Proof.
  unfold ranked, depends_on. rewrite forallb_forall.
  intros H Hn%list_elem_of_In Hp%list_elem_of_In. specialize (H n Hn).
  rewrite forallb_forall in H. by apply Nat.ltb_lt, H.
Qed.

(** The loop, when it ends: the nodes it compiled, in the order of the log. *)
Lemma generate_loop_compiled fuel g l (seen : gset node_id) c c' :
  generate_loop fuel g l seen c = Ok c' →
  ∃ order,
    node_compiles c' = node_compiles c ++ order ∧
    in_order g (current_type c) seen order ∧
    (∀ n, n ∈ order → n ∈ l) ∧
    (∀ n, n ∈ l → n ∈ seen ∨ n ∈ order) ∧
    kept_shader c c'.
Proof.
  revert seen c. induction fuel as [|fuel IH]; intros seen c; simpl; [done|].
  unfold generate_pass.
  destruct (for_each _ _ l) as [s|] eqn:Hpass; [|done]. simpl.
  pose proof (pass_compiled _ _ _ _ Hpass) as
    (compiled & Hlog & Hdone & Hord & Hsub & Hk & _). simpl in *.
  destruct (nodes_done s) eqn:Hnd.
  - intros [= <-]. exists compiled. split_and!; [done..| |done].
    intros n Hn. pose proof (pass_all_done _ _ _ _ Hpass Hnd n Hn) as Hin.
    rewrite Hdone in Hin. set_solver.
  - intros (order & Hlog' & Hord' & Hsub' & Hall & Hk')%IH.
    exists (compiled ++ order). destruct Hk as (Ht & Hk).
    rewrite Ht, Hdone in Hord'. rewrite Hdone in Hall.
    split_and!.
    + by rewrite Hlog', Hlog, app_assoc.
    + by apply in_order_app.
    + set_solver.
    + intros n Hn. specialize (Hall n Hn). set_solver.
    + eapply kept_shader_trans; [by split|done].
Qed.

Section Ranked.
Variables (g : ShaderGraph) (ty : ShaderType) (l : list node_id) (rank : node_id → nat).
Hypothesis l_closed : ∀ n p, n ∈ l → depends_on g ty n p → p ∈ l.
Hypothesis l_ranked : ∀ n p, n ∈ l → depends_on g ty n p → (rank p < rank n)%nat.

(** While a node is left there is one that can be compiled. *)
Lemma ready_node (seen : gset node_id) n :
  n ∈ l → n ∉ seen →
  ∃ m, m ∈ l ∧ (m ∉ seen) ∧ ∀ p, depends_on g ty m p → p ∈ seen.
Proof.
  remember (rank n) as r eqn:Hr. revert n Hr.
  induction r as [r IH] using lt_wf_ind. intros n -> Hn Hnot.
  destruct (decide (Forall (λ p, p ∈ seen) (relevant_parents g ty n))) as [Hall|Hsome].
  - exists n. split_and!; [done..|]. intros p Hp.
    by eapply Forall_forall in Hall.
  - apply not_Forall_Exists in Hsome; [|apply _].
    apply Exists_exists in Hsome as (p & Hp & Hpnot).
    eapply (IH (rank p)); [by eapply l_ranked|done|by eapply l_closed|done].
Qed.

(** A pass that does not end the loop compiles a node. *)
Lemma pass_progress (seen : gset node_id) c s :
  NoDup l → current_type c = ty →
  generate_pass g l seen c = Ok s → nodes_done s = false →
  ∃ n, n ∈ l ∧ (n ∉ seen) ∧ n ∈ done_set s.
Proof.
  intros Hnodup Hty Hpass Hnd. unfold generate_pass in Hpass.
  destruct (pass_put_off _ _ _ _ Hnodup Hpass eq_refl Hnd) as (n & Hn & Hleft).
  pose proof (pass_done_grows _ _ _ _ Hpass) as Hsub. simpl in Hsub.
  destruct (ready_node seen n) as (m & Hm & Hmnot & Hready); [done|set_solver|].
  exists m. split_and!; [done..|].
  eapply (pass_ready g ty); [|exact Hpass|done|done]. done.
Qed.

Hypothesis l_loads : ∀ n, n ∈ l → loads g ty n = true.

(** The loop ends: the [k]-th pass leaves no node of a rank below [k]. *)
Lemma generate_loop_total fuel k (seen : gset node_id) c :
  current_type c = ty → is_Some (current_shader c) →
  (∀ n, n ∈ l → (rank n < k)%nat → n ∈ seen) →
  (∀ n, n ∈ l → (rank n < k + fuel)%nat) → (0 < fuel)%nat →
  ∃ c', generate_loop fuel g l seen c = Ok c'.
Proof.
  revert k seen c. induction fuel as [|fuel IH]; intros k seen c Hty Hs Hk Hfuel Hpos;
    [lia|]. simpl. unfold generate_pass.
  destruct (pass_total g l {| done_set := seen; nodes_done := true; compiler := c |})
    as [s Hpass]; [done|by simpl; rewrite Hty|].
  rewrite Hpass. simpl.
  destruct (nodes_done s) eqn:Hnd; [eauto|].
  pose proof (pass_compiled _ _ _ _ Hpass) as (_ & _ & _ & _ & _ & Hkept & _).
  simpl in Hkept.
  assert (∀ n, n ∈ l → (rank n < S k)%nat →
               ∀ p, depends_on g ty n p → p ∈ seen) as Hready.
  { intros n Hn Hrank p Hp. apply Hk; [by eapply l_closed|].
    pose proof (l_ranked n p Hn Hp). lia. }
  destruct fuel as [|fuel].
  - assert (nodes_done s = true) as Hnd'; [|congruence].
    change true with
      (nodes_done {| done_set := seen; nodes_done := true; compiler := c |}).
    eapply (pass_none_put_off g ty); [|exact Hpass|]; [done|].
    intros n Hn. right. apply Hready; [done|]. specialize (Hfuel n Hn). lia.
  - apply (IH (S k)).
    + destruct Hkept as (-> & _). done.
    + by eapply kept_shader_is_Some.
    + intros n Hn Hrank. eapply (pass_ready g ty); [|exact Hpass|done|]; [done|].
      simpl. by apply Hready.
    + intros n Hn. specialize (Hfuel n Hn). lia.
    + lia.
Qed.

End Ranked.

Lemma position_lt n l : n ∈ l → (position n l < length l)%nat.
Proof.
  induction l as [|a l IH]; simpl; [by intros ?%elem_of_nil|].
  intros Hn. case_decide; [lia|].
  apply elem_of_cons in Hn as [->|Hn]; [done|]. specialize (IH Hn). lia.
Qed.

Lemma position_app_l n l1 l2 : n ∈ l1 → position n (l1 ++ l2) = position n l1.
Proof.
  induction l1 as [|a l1 IH]; simpl; [by intros ?%elem_of_nil|].
  intros Hn. case_decide; [done|].
  apply elem_of_cons in Hn as [->|Hn]; [done|]. by rewrite IH.
Qed.

Lemma position_app_r n l1 l2 :
  n ∉ l1 → position n (l1 ++ n :: l2) = length l1.
Proof.
  induction l1 as [|a l1 IH]; simpl; intros Hn.
  - by rewrite decide_True.
  - rewrite decide_False by set_solver. rewrite IH; [done|set_solver].
Qed.

(** In a sequence in order the position goes down along the dependencies. *)
Lemma in_order_position g ty l n p :
  in_order g ty ∅ l → n ∈ l → depends_on g ty n p →
  p ∈ l ∧ (position p l < position n l)%nat.
Proof.
  intros Hord Hn Hp. pose proof (in_order_fresh _ _ _ _ Hord) as [Hnodup _].
  apply list_elem_of_split in Hn as (l1 & l2 & ->).
  destruct (in_order_earlier _ _ _ _ _ _ _ Hord Hp) as [?|Hp1]; [set_solver|].
  apply NoDup_app in Hnodup as (_ & Hdisj & _).
  split; [set_solver|].
  rewrite position_app_l by done. rewrite position_app_r.
  - by apply position_lt.
  - intros Hn. apply (Hdisj n Hn). set_solver.
Qed.

End LoopProofs.

Section ProgramProofs.
Context `{Ext : External}.
Implicit Types (g : ShaderGraph) (ty : ShaderType) (n p : node_id)
  (c : OSLCompiler) (s : Scan) (l : list node_id) (P : node_id → Prop).

(** ** The layers of the generated program *)

Lemma layers_app (a b : list SSCall) : layers (a ++ b) = layers a ++ layers b.
Proof. apply omap_app. Qed.

Lemma emits_same P c c' : manager c' = manager c → emits P c c'.
Proof.
  intros Hm. exists []. rewrite app_nil_r, Hm. split; [done|].
  by intros n ?%elem_of_nil.
Qed.

Lemma emits_trans P c1 c2 c3 : emits P c1 c2 → emits P c2 c3 → emits P c1 c3.
Proof.
  intros (e1 & H1 & Hp1) (e2 & H2 & Hp2). exists (e1 ++ e2).
  rewrite H2, H1, app_assoc. split; [done|].
  intros n. rewrite layers_app, elem_of_app. intros [?|?]; auto.
Qed.

Lemma emits_weaken P (Q : node_id → Prop) c c' :
  (∀ n, P n → Q n) → emits P c c' → emits Q c c'.
Proof. intros HPQ (e & H & Hp). exists e. split; [done|]. auto. Qed.

Lemma emits_ss_do P call c :
  (∀ usage name n, call = SS_Shader usage name n → P n) →
  emits P c (ss_do call c).
Proof.
  intros Hcall. exists [call]. split; [done|]. intros n.
  destruct call; simpl; try (by intros ?%elem_of_nil).
  intros ->%list_elem_of_singleton. eauto.
Qed.

Lemma emits_foldl {A} P (f : OSLCompiler → A → OSLCompiler) (la : list A) c :
  (∀ c a, emits P c (f c a)) → emits P c (foldl f c la).
Proof.
  intros Hf. revert c. induction la as [|a la IH]; intros c; simpl.
  - by apply emits_same.
  - eapply emits_trans; [apply Hf|apply IH].
Qed.

Lemma emits_for_each {A} P (body : OSLCompiler → A → outcome OSLCompiler)
    (la : list A) c c' :
  (∀ c a c', body c a = Ok c' → emits P c c') →
  for_each body c la = Ok c' → emits P c c'.
Proof.
  intros Hf. revert c. induction la as [|a la IH]; intros c; simpl.
  - intros [= <-]. by apply emits_same.
  - destruct (body c a) as [c1|] eqn:Hb; [|done]. simpl. intros H.
    eapply emits_trans; [by eapply Hf|by apply IH].
Qed.

Lemma read_and_load_calls m path time :
  ∃ extra, ss_calls (read_and_load m path time).2 = ss_calls m ++ extra ∧
           layers extra = [].
Proof.
  unfold read_and_load, read_text, shader_load_bytecode.
  destruct (path_read_text (files m) path); simpl.
  - eexists [_]. by split.
  - exists []. by rewrite app_nil_r.
Qed.

Lemma shader_load_filepath_calls m filepath r m' :
  shader_load_filepath m filepath = Ok (r, m') →
  ∃ extra, ss_calls m' = ss_calls m ++ extra ∧ layers extra = [].
Proof.
  unfold shader_load_filepath.
  pose proof (read_and_load_calls m) as Hm.
  pose proof (read_and_load_calls (osl_compile filepath (oso_path filepath) m)) as Hc.
  intros H.
  repeat match goal with
         | H : context [if ?b then _ else _] |- _ => destruct b
         | H : context [match ?x with _ => _ end] |- _ => destruct x
         end;
    simplify_eq/=; try (exists []; by rewrite app_nil_r);
    match goal with
    | H : read_and_load ?m0 ?p ?t = _ |- _ =>
        first [specialize (Hm p t); by rewrite H in Hm
              |specialize (Hc p t); by rewrite H in Hc]
    end.
Qed.

Lemma add_flags_manager (node : ShaderNode) info c c' :
  add_flags node info c = Ok c' → manager c' = manager c.
Proof.
  unfold add_flags.
  destruct (current_shader c) as [s|] eqn:Hs, (current_type c) eqn:Hty, info as [info|];
    flag_cases; rewrite ?Hs; simpl; intros ?; by simplify_eq/=.
Qed.

Lemma generate_flags_manager (node : ShaderNode) c c' :
  generate_flags node c = Ok c' → manager c' = manager c.
Proof.
  unfold generate_flags.
  destruct (current_shader c) as [s|] eqn:Hs, (current_type c) eqn:Hty;
    flag_cases; rewrite ?Hs; simpl; intros ?; by simplify_eq/=.
Qed.

Lemma add_parameters_emits P g n c : emits P c (add_parameters g n c).
Proof.
  apply emits_foldl. intros c0 i. destruct (link i); [by apply emits_same|].
  repeat case_match; first [by apply emits_same|by apply emits_ss_do].
Qed.

Lemma add_connections_emits P g n c : emits P c (add_connections g n c).
Proof.
  apply emits_foldl. intros c0 i. destruct (link i); [|by apply emits_same].
  repeat case_match; first [by apply emits_same|by apply emits_ss_do].
Qed.

(** [add] for a node makes a layer for that node only. *)
Lemma add_emits g c n name isfilepath c' :
  add g c n name isfilepath = Ok c' → emits (λ x, x = n) c c'.
Proof.
  unfold add.
  destruct (if isfilepath then _ else _) as [[loaded m]|] eqn:Hload; [|done]. simpl.
  assert (emits (λ x, x = n) c (set_manager m c)) as Hm.
  { destruct isfilepath; [|simplify_eq; by apply emits_same].
    apply shader_load_filepath_calls in Hload as (extra & Hcalls & Hnone).
    exists extra. split; [done|]. rewrite Hnone. by intros x ?%elem_of_nil. }
  destruct loaded as [name'|]; [|by intros [= <-]].
  intros Hflags%add_flags_manager.
  eapply emits_trans; [exact Hm|]. eapply emits_trans; [|by apply emits_same].
  eapply emits_trans; [apply add_parameters_emits|].
  eapply emits_trans; [apply emits_ss_do|apply add_connections_emits].
  by intros ??? [= _ _ <-].
Qed.

Lemma node_compile_emits g c n c' :
  node_compile g c n = Ok c' → emits (λ x, x = n) c c'.
Proof.
  unfold node_compile. intros H.
  eapply (emits_trans _ _ (log_node_compile n c)); [by apply emits_same|].
  eapply emits_for_each; [|exact H]. intros c0 [param ty|name b] c1.
  - intros [= <-]. by apply emits_ss_do.
  - apply add_emits.
Qed.

Lemma generate_node_emits g s n s' :
  generate_node g s n = Ok s' → emits (λ x, x = n) (compiler s) (compiler s').
Proof.
  unfold generate_node. case_bool_decide.
  { intros [= <-]. by apply emits_same. }
  destruct (inputs_done _ _ _ _).
  - destruct (node_compile g (compiler s) n) as [c1|] eqn:Hc; [|done]. simpl.
    destruct (generate_flags (node_at g n) c1) as [c2|] eqn:Hf; [|done]. simpl.
    intros [= <-]. simpl.
    eapply emits_trans; [exact (node_compile_emits _ _ _ _ Hc)|].
    apply emits_same. by eapply generate_flags_manager.
  - intros [= <-]. by apply emits_same.
Qed.

Lemma pass_emits g l l0 s s' :
  (∀ x, x ∈ l0 → x ∈ l) →
  for_each (generate_node g) s l0 = Ok s' →
  emits (λ x, x ∈ l) (compiler s) (compiler s').
Proof.
  revert s. induction l0 as [|a l0 IH]; intros s Hsub; simpl.
  - intros [= <-]. by apply emits_same.
  - destruct (generate_node g s a) as [s1|] eqn:Ha; [|done]. simpl. intros H.
    eapply emits_trans; [|apply IH; [set_solver|exact H]].
    eapply emits_weaken; [|exact (generate_node_emits _ _ _ _ Ha)].
    intros x ->. set_solver.
Qed.

(** [generate_nodes] makes layers for the nodes it is given only. *)
Lemma generate_loop_emits fuel g l (seen : gset node_id) c c' :
  generate_loop fuel g l seen c = Ok c' → emits (λ x, x ∈ l) c c'.
Proof.
  revert seen c. induction fuel as [|fuel IH]; intros seen c; simpl; [done|].
  unfold generate_pass.
  destruct (for_each _ _ l) as [s|] eqn:Hpass; [|done]. simpl.
  apply (pass_emits g l) in Hpass; [|done]. simpl in Hpass.
  destruct (nodes_done s); [by intros [= <-]|].
  intros H%IH. by eapply emits_trans.
Qed.

End ProgramProofs.

Section GraphTheorems.
Context `{Ext : External}.
Implicit Types (g : ShaderGraph) (ty : ShaderType) (n p : node_id)
  (c : OSLCompiler) (s : Scan) (l : list node_id) (i : ShaderInput).

Lemma iteration_elem_of (deps : gset node_id) n : n ∈ iteration deps ↔ n ∈ deps.
Proof. unfold iteration. by rewrite merge_sort_Permutation, elem_of_elements. Qed.

Lemma iteration_NoDup (deps : gset node_id) : NoDup (iteration deps).
Proof. unfold iteration. rewrite merge_sort_Permutation. apply NoDup_elements. Qed.

Lemma ranked_graph g ty rank n p :
  ranked g ty rank (seq 0 (length (nodes g))) = true →
  depends_on g ty n p → (rank p < rank n)%nat.
Proof.
  intros Hr Hd. eapply ranked_spec; [exact Hr| |exact Hd].
  apply elem_of_seq. split; [lia|]. simpl.
  destruct (decide (n < length (nodes g))%nat) as [|Hge]; [done|].
  unfold depends_on, relevant_parents, node_at in Hd.
  rewrite lookup_ge_None_2 in Hd by lia. simpl in Hd. by apply elem_of_nil in Hd.
Qed.

(** The recursion of [find_dependencies] is no deeper than the rank of the
    node it starts from. *)
Lemma find_dependencies_total g ty rank fuel (deps : gset node_id) i :
  (∀ n p, depends_on g ty n p → (rank p < rank n)%nat) →
  (∀ o, link i = Some o → (rank (parent o) < fuel)%nat) →
  ∃ deps', find_dependencies fuel g ty deps i = Ok deps'.
Proof.
  intros Hrank. revert deps i. induction fuel as [|fuel IH]; intros deps i Hi; simpl.
  - destruct (link i) as [o|]; [|eauto]. specialize (Hi o eq_refl). lia.
  - destruct (link i) as [o|] eqn:Hl; [|eauto].
    case_bool_decide; [eauto|]. specialize (Hi o eq_refl).
    assert (∀ ins deps0, ins ⊆ inputs (node_at g (parent o)) →
      ∃ deps1, for_each (λ d i', if node_skip_input g ty (node_at g (parent o)) i'
                                 then Ok d else find_dependencies fuel g ty d i')
                 deps0 ins = Ok deps1) as Hloop.
    { induction ins as [|i' ins IHins]; intros deps0 Hsub; simpl; [eauto|].
      destruct (node_skip_input g ty (node_at g (parent o)) i') eqn:Hs; simpl.
      - apply IHins. set_solver.
      - destruct (IH deps0 i') as [d Hd].
        { intros l2 Hl2.
          assert (depends_on g ty (parent o) (parent l2)) as Hdep.
          { apply depends_on_inv. exists i', l2. split_and!; [set_solver|done..]. }
          apply Hrank in Hdep. lia. }
        rewrite Hd. simpl. apply IHins. set_solver. }
    destruct (Hloop (inputs (node_at g (parent o))) deps) as [d ->]; [done|].
    simpl. eauto.
Qed.

(** C3: on a graph without a cycle of linked inputs that are not skipped,
    [find_dependencies] from the empty set returns (given fuel for the depth
    of the graph). The set that it computes holds the node the input is
    linked from, holds with a node the node of every linked input of it that
    is not skipped, and holds no other node: its nodes are those reached from
    the input along linked inputs that are not skipped. Its iteration meets
    no node twice, and [generate_nodes] on it compiles nodes of the set only,
    and makes layers of the program for nodes of the set only. *)
Theorem find_dependencies_closed_set g ty rank fuel i :
  (∀ n p, depends_on g ty n p → (rank p < rank n)%nat) →
  (∀ o, link i = Some o → (rank (parent o) < fuel)%nat) →
  ∃ deps : gset node_id,
    find_dependencies fuel g ty ∅ i = Ok deps ∧
    (∀ o, link i = Some o → parent o ∈ deps) ∧
    closed g ty deps ∧
    (∀ n, n ∈ deps ↔ reaches g ty i n) ∧
    NoDup (iteration deps) ∧
    (∀ fuel' c c',
       generate_nodes fuel' g (iteration deps) c = Ok c' →
       ∃ order calls,
         node_compiles c' = node_compiles c ++ order ∧
         ss_calls (manager c') = ss_calls (manager c) ++ calls ∧
         ∀ n, n ∈ order ∨ n ∈ layers calls → reaches g ty i n).
Proof.
  intros Hrank Hfuel.
  destruct (find_dependencies_total g ty rank fuel ∅ i Hrank Hfuel) as [deps Hfd].
  exists deps. split; [exact Hfd|].
  assert (closed g ty ∅) as Hempty by (intros n p ?; set_solver).
  destruct (find_dependencies_resolved _ _ _ _ _ _ Hempty Hfd)
    as (added & Hdeps & Hord & Hlink & Hreach).
  rewrite (right_id_L ∅ (∪)) in Hdeps.
  assert (closed g ty deps) as Hclosed.
  { pose proof (in_order_closed _ _ _ _ Hempty Hord) as Hc.
    by rewrite (right_id_L ∅ (∪)), <- Hdeps in Hc. }
  assert (∀ n, n ∈ deps ↔ reaches g ty i n) as Hiff.
  { intros n. split.
    - rewrite Hdeps, elem_of_list_to_set. apply Hreach.
    - by apply closed_reaches. }
  split_and!; [done|done|done|apply iteration_NoDup|].
  intros fuel' c c' Hrun.
  destruct (generate_loop_compiled _ _ _ _ _ _ Hrun) as (order & Hlog & _ & Hsub & _).
  destruct (generate_loop_emits _ _ _ _ _ _ Hrun) as (calls & Hcalls & Hlayers).
  exists order, calls. split_and!; [done..|].
  intros n [Hn%Hsub|Hn%Hlayers]; by apply Hiff, iteration_elem_of.
Qed.

(** C4: [generate_nodes] over a set that [find_dependencies] computed, met
    in any order: with fuel for one pass more than there are nodes (and the
    paths that the nodes load long enough for [substr]), it returns, the log
    has every node of the set once after it, and a node comes in the log
    after the nodes of its linked inputs that are not skipped. *)
Theorem generate_nodes_once_in_order fuel0 g i (deps : gset node_id) l fuel c :
  find_dependencies fuel0 g (current_type c) ∅ i = Ok deps →
  l ≡ₚ iteration deps →
  (length l < fuel)%nat →
  forallb (loads g (current_type c)) l = true →
  is_Some (current_shader c) →
  ∃ c' order,
    generate_nodes fuel g l c = Ok c' ∧
    node_compiles c' = node_compiles c ++ order ∧
    order ≡ₚ l ∧ NoDup order ∧
    ∀ l1 n l2, order = l1 ++ n :: l2 →
      ∀ p, depends_on g (current_type c) n p → p ∈ l1.
Proof.
  intros Hfd Hperm Hfuel Hloads Hshader.
  assert (closed g (current_type c) ∅) as Hempty by (intros n p ?; set_solver).
  destruct (find_dependencies_resolved _ _ _ _ _ _ Hempty Hfd)
    as (added & Hdeps & Hord & _ & _).
  rewrite (right_id_L ∅ (∪)) in Hdeps.
  pose proof (in_order_fresh _ _ _ _ Hord) as [Hnodup_added _].
  assert (∀ n, n ∈ l ↔ n ∈ added) as Hsame.
  { intros n. by rewrite Hperm, iteration_elem_of, Hdeps, elem_of_list_to_set. }
  assert (NoDup l) as Hnodup by (rewrite Hperm; apply iteration_NoDup).
  assert (l ≡ₚ added) as Hperm' by by apply NoDup_Permutation.
  destruct (generate_loop_total g (current_type c) l (λ n, position n added))
    with (fuel := fuel) (k := 0%nat) (seen := (∅ : gset node_id)) (c := c)
    as [c' Hrun].
  - intros n p Hn%Hsame Hp. apply Hsame. by eapply in_order_position.
  - intros n p Hn%Hsame Hp. by eapply in_order_position.
  - intros n Hn%list_elem_of_In. rewrite forallb_forall in Hloads. by apply Hloads.
  - done.
  - done.
  - intros n _ ?. lia.
  - intros n Hn%Hsame%position_lt. apply Permutation_length in Hperm'. simpl. lia.
  - lia.
  - pose proof (generate_loop_compiled _ _ _ _ _ _ Hrun)
      as (order & Hlog & Hord' & Hsub & Hall & _).
    pose proof (in_order_fresh _ _ _ _ Hord') as [Hnodup' _].
    exists c', order. split_and!; [done|done| |done|].
    + apply NoDup_Permutation; [done..|]. intros n. split; [apply Hsub|].
      intros Hn. destruct (Hall n Hn); [set_solver|done].
    + intros l1 n l2 -> p Hp.
      destruct (in_order_earlier _ _ _ _ _ _ _ Hord' Hp); [set_solver|done].
Qed.

(** C5: for a list of nodes without repetition that holds the nodes its
    nodes depend on, with a rank that goes down along the dependencies: with
    fuel for more passes than the highest rank, [generate_nodes] returns and
    the log has every node after it; a pass that does not end the loop has
    compiled a node that was left; and a pass ends the loop exactly when no
    node is left. *)
Theorem generate_nodes_terminates g l rank fuel c :
  NoDup l →
  closed_list g (current_type c) l = true →
  ranked g (current_type c) rank l = true →
  (0 < fuel)%nat →
  forallb (λ n, (rank n <? fuel)%nat) l = true →
  forallb (loads g (current_type c)) l = true →
  is_Some (current_shader c) →
  (∃ c' order, generate_nodes fuel g l c = Ok c' ∧
               node_compiles c' = node_compiles c ++ order ∧ order ≡ₚ l) ∧
  (∀ (seen : gset node_id) c0 s,
     current_type c0 = current_type c →
     generate_pass g l seen c0 = Ok s →
     (nodes_done s = false → ∃ n, n ∈ l ∧ (n ∉ seen) ∧ n ∈ done_set s) ∧
     (nodes_done s = true ↔ ∀ n, n ∈ l → n ∈ done_set s)).
Proof.
  intros Hnodup Hclosed Hranked Hpos Hfuel Hloads Hshader.
  assert (∀ n p, n ∈ l → depends_on g (current_type c) n p → p ∈ l) as Hc
    by (intros n p; by apply closed_list_spec).
  assert (∀ n p, n ∈ l → depends_on g (current_type c) n p → (rank p < rank n)%nat)
    as Hr by (intros n p; by apply ranked_spec).
  rewrite forallb_forall in Hfuel. rewrite forallb_forall in Hloads.
  split.
  - destruct (generate_loop_total g (current_type c) l rank Hc Hr)
      with (fuel := fuel) (k := 0%nat) (seen := (∅ : gset node_id)) (c := c)
      as [c' Hrun]; [|done|done| | |done|].
    + intros n Hn%list_elem_of_In. by apply Hloads.
    + intros n _ ?. lia.
    + intros n Hn%list_elem_of_In. by apply Nat.ltb_lt, Hfuel.
    + pose proof (generate_loop_compiled _ _ _ _ _ _ Hrun)
        as (order & Hlog & Hord & Hsub & Hall & _).
      pose proof (in_order_fresh _ _ _ _ Hord) as [Hnodup' _].
      exists c', order. split_and!; [done..|].
      apply NoDup_Permutation; [done..|]. intros n. split; [apply Hsub|].
      intros Hn. destruct (Hall n Hn); [set_solver|done].
  - intros seen c0 s Hty Hpass. split.
    + intros Hnd. by eapply (pass_progress g (current_type c) l rank).
    + split; [by eapply pass_all_done|]. intros Hall.
      destruct (nodes_done s) eqn:Hnd; [done|].
      destruct (pass_put_off g l _ s Hnodup Hpass eq_refl Hnd) as (n & Hn & Hleft).
      by destruct Hleft; apply Hall.
Qed.

End GraphTheorems.

Section CompileTypeProofs.
Context `{Ext : External}.
Implicit Types (g : ShaderGraph) (ty : ShaderType) (n p : node_id)
  (c : OSLCompiler) (s : Shader) (i : ShaderInput) (o : ShaderOutput).

(** ** Compiling a context *)

Lemma input_elem_of (node : ShaderNode) name i :
  input node name = Some i → i ∈ inputs node.
Proof. unfold input. intros [H _]%find_some. by apply list_elem_of_In. Qed.

Lemma node_at_inputs g n i :
  i ∈ inputs (node_at g n) → ∃ node, nodes g !! n = Some node ∧ i ∈ inputs node.
Proof.
  unfold node_at. destruct (nodes g !! n) as [node|]; simpl; [eauto|].
  by intros ?%elem_of_nil.
Qed.

Lemma well_linked_link g n i o :
  well_linked g = true → i ∈ inputs (node_at g n) → link i = Some o →
  (n < length (nodes g))%nat ∧ (parent o < length (nodes g))%nat.
Proof.
  unfold well_linked. rewrite forallb_forall.
  intros Hw (node & Hnode & Hi)%node_at_inputs Hl. split; [by eapply lookup_lt_Some|].
  apply list_elem_of_lookup_2, list_elem_of_In, Hw in Hnode.
  rewrite forallb_forall in Hnode. apply list_elem_of_In, Hnode in Hi.
  rewrite Hl in Hi. by apply Nat.ltb_lt.
Qed.

Lemma well_linked_reaches g ty i n :
  well_linked g = true →
  (∀ o, link i = Some o → (parent o < length (nodes g))%nat) →
  reaches g ty i n → (n < length (nodes g))%nat.
Proof.
  intros Hw Hi. induction 1 as [o Ho|m p _ _ Hd]; [by apply Hi|].
  apply depends_on_inv in Hd as (i' & o & Hi' & _ & Ho & <-).
  by eapply well_linked_link.
Qed.

Lemma find_dependencies_reaches fuel g ty i (deps : gset node_id) :
  find_dependencies fuel g ty ∅ i = Ok deps →
  closed g ty deps ∧ ∀ n, n ∈ deps → reaches g ty i n.
Proof.
  intros Hfd.
  assert (closed g ty ∅) as Hempty by (intros n p ?; set_solver).
  destruct (find_dependencies_resolved _ _ _ _ _ _ Hempty Hfd)
    as (added & Hdeps & Hord & _ & Hreach).
  rewrite (right_id_L ∅ (∪)) in Hdeps. split.
  - pose proof (in_order_closed _ _ _ _ Hempty Hord) as Hc.
    by rewrite (right_id_L ∅ (∪)), <- Hdeps in Hc.
  - intros n. rewrite Hdeps, elem_of_list_to_set. apply Hreach.
Qed.

(** [compile_type] returns the group that it begins, and writes none of the
    settled members of the shader. *)
Lemma compile_type_group fuel c name g ty c' group :
  compile_type fuel c name g ty = Ok (c', group) →
  group = Some (groups_begun (manager c)) ∧
  groups_begun (manager c') = S (groups_begun (manager c)) ∧
  option_Forall2 (frame ty) (current_shader c) (current_shader c').
Proof.
  unfold compile_type. simpl.
  destruct (input _ _) as [i|]; [|done].
  destruct (find_dependencies _ _ _ _ _) as [deps|]; [|done]. simpl.
  destruct (generate_nodes _ _ _ _) as [c1|] eqn:Hgen; [|done]. simpl.
  destruct (node_compile g c1 (output g)) as [c2|] eqn:Hout; [|done]. simpl.
  intros [= <- <-].
  apply generate_loop_compiled in Hgen as (_ & _ & _ & _ & _ & (Ht1 & Hg1 & Hs1)).
  apply node_compile_kept in Hout as [(Ht2 & _ & Hg2 & Hs2) _].
  simpl in *. split_and!; [done|congruence|].
  rewrite Ht1 in Hs2.
  destruct Hs1 as [s1 s2 H1|]; inversion Hs2; simplify_eq; constructor.
  by eapply frame_trans.
Qed.

Lemma compiles_spec g ty rank fuel :
  compiles g ty rank fuel = true →
  well_linked g = true ∧
  is_Some (input (node_at g (output g)) (context_input ty)) ∧
  (∀ n p, depends_on g ty n p → (rank p < rank n)%nat) ∧
  (∀ n, (n < length (nodes g))%nat → (rank n < fuel)%nat) ∧
  (∀ n, loads g ty n = true).
Proof.
  unfold compiles. rewrite !andb_true_iff, bool_decide_eq_true.
  intros ((((Hw & Hi) & Hr) & Hf) & Hl). split_and!; [done|done| | |].
  - intros n p. by apply ranked_graph.
  - intros n Hn. rewrite forallb_forall in Hf. apply Nat.ltb_lt, Hf.
    apply list_elem_of_In, elem_of_seq. lia.
  - intros n. destruct (decide (n < length (nodes g))%nat).
    + rewrite forallb_forall in Hl. apply Hl, list_elem_of_In, elem_of_seq. lia.
    + unfold loads, node_at. by rewrite lookup_ge_None_2 by lia.
Qed.

Lemma compile_type_total fuel c name g ty rank :
  compiles g ty rank fuel = true → is_Some (current_shader c) →
  ∃ c' group, compile_type fuel c name g ty = Ok (c', group).
Proof.
  intros (Hw & [i Hi] & Hrank & Hfuel & Hloads)%compiles_spec Hs.
  unfold compile_type. simpl. rewrite Hi.
  assert (∀ o, link i = Some o → (parent o < length (nodes g))%nat) as Hin.
  { intros o Ho. apply input_elem_of in Hi.
    by destruct (well_linked_link g (output g) i o Hw Hi Ho). }
  destruct (find_dependencies_total g ty rank fuel ∅ i) as [deps Hfd]; [done| |].
  { intros o Ho. by apply Hfuel, Hin. }
  rewrite Hfd. simpl.
  apply find_dependencies_reaches in Hfd as [Hclosed Hreach].
  set (c0 := set_manager _ _).
  assert (0 < fuel)%nat as Hpos.
  { apply input_elem_of, node_at_inputs in Hi as (node & Hnode%lookup_lt_Some & _).
    specialize (Hfuel _ Hnode). lia. }
  destruct (generate_loop_total g ty (iteration deps) rank)
    with (fuel := fuel) (k := 0%nat) (seen := (∅ : gset node_id)) (c := c0)
    as [c1 Hgen]; [| |done|done|done| | |done|].
  - intros n p Hn%iteration_elem_of Hp. apply iteration_elem_of. by eapply Hclosed.
  - intros n p _. apply Hrank.
  - intros n _ ?. lia.
  - intros n Hn%iteration_elem_of%Hreach. simpl.
    by eapply Hfuel, well_linked_reaches.
  - unfold generate_nodes. rewrite Hgen. simpl.
    apply generate_loop_compiled in Hgen as (_ & _ & _ & _ & _ & Hk).
    destruct (node_compile_total g c1 (output g)) as [c2 ->]; [| |simpl; eauto].
    + by eapply kept_shader_is_Some.
    + destruct Hk as (-> & _). apply Hloads.
Qed.

End CompileTypeProofs.

Section CompileProofs.
Context `{Ext : External}.
Implicit Types (g : ShaderGraph) (ty : ShaderType) (n p : node_id)
  (c : OSLCompiler) (s : Shader) (i : ShaderInput) (o : ShaderOutput).

(** ** Compiling a shader *)

Lemma on_shader_Some f c s :
  current_shader c = Some s →
  on_shader f c = Ok (set_current_shader (Some (f s)) c).
Proof. unfold on_shader. by intros ->. Qed.

Lemma frame_members ty s s' :
  frame ty s s' →
  graph s' = graph s ∧
  has_surface s' = has_surface s ∧ has_volume s' = has_volume s ∧
  has_displacement s' = has_displacement s ∧
  osl_surface_ref s' = osl_surface_ref s ∧
  osl_surface_bump_ref s' = osl_surface_bump_ref s ∧
  osl_volume_ref s' = osl_volume_ref s ∧
  osl_displacement_ref s' = osl_displacement_ref s ∧
  (ty ≠ SHADER_TYPE_SURFACE → has_bump s' = has_bump s).
Proof.
  unfold frame, settled. intros [H Hb]. injection H as ????????????.
  split_and!; [done..|]. intros Hty. by destruct (Hb Hty).
Qed.

(** [compile_type] on a compiler whose shader is [s]. *)
Lemma compile_type_shader fuel c name g ty c' group s :
  current_shader c = Some s →
  compile_type fuel c name g ty = Ok (c', group) →
  group = Some (groups_begun (manager c)) ∧
  groups_begun (manager c') = S (groups_begun (manager c)) ∧
  ∃ s', current_shader c' = Some s' ∧ frame ty s s'.
Proof.
  intros Hs (-> & Hg & Hf)%compile_type_group. rewrite Hs in Hf.
  inversion Hf; simplify_eq. eauto.
Qed.

(** The members of the shader after "generate surface shader". *)
Lemma compile_surface_shader fuel shader g out bump c c' s (wanted : bool) :
  current_shader c = Some s →
  context_wanted shader (node_at g out) "Surface" = Ok wanted →
  compile_surface fuel shader g out bump c = Ok c' →
  ∃ s', current_shader c' = Some s' ∧ graph s' = graph s ∧
    has_surface s' = wanted || has_surface s ∧
    osl_surface_ref s' = (if wanted then Some (groups_begun (manager c)) else None) ∧
    osl_surface_bump_ref s' =
      (if wanted && bump then Some (S (groups_begun (manager c))) else None) ∧
    groups_begun (manager c') =
      (groups_begun (manager c) + if wanted then (if bump then 2 else 1) else 0)%nat ∧
    has_volume s' = has_volume s ∧ has_displacement s' = has_displacement s ∧
    osl_volume_ref s' = osl_volume_ref s ∧
    osl_displacement_ref s' = osl_displacement_ref s ∧
    (wanted = false → has_bump s' = has_bump s).
Proof.
  intros Hs Hw. unfold compile_surface. rewrite Hw. simpl. destruct wanted.
  - destruct (compile_type _ _ _ _ _) as [[c1 group]|] eqn:H1; [|done]. simpl.
    destruct (compile_type_shader _ _ _ _ _ _ _ _ Hs H1)
      as (-> & Hg1 & s1 & Hs1 & Hf1%frame_members).
    rewrite (on_shader_Some _ _ _ Hs1). simpl. destruct bump.
    + destruct (compile_type _ _ _ _ SHADER_TYPE_BUMP) as [[c2 group]|] eqn:H2;
        [|done]. simpl.
      match type of H2 with
      | compile_type _ ?c0 _ _ _ = _ =>
          assert (∃ s0, current_shader c0 = Some s0 ∧
                        s0 = set_osl_surface_ref (Some (groups_begun (manager c))) s1)
            as (s0 & Hs0 & Heq) by (by eexists)
      end.
      destruct (compile_type_shader _ _ _ _ _ _ _ _ Hs0 H2)
        as (-> & Hg2 & s2 & Hs2 & Hf2%frame_members). subst s0.
      rewrite (on_shader_Some _ _ _ Hs2). simpl. intros [= <-]. simpl in *.
      eexists. split; [done|]. simpl. rewrite Hg2, Hg1.
      destruct Hf1 as (? & ? & ? & ? & ? & ? & ? & ? & _).
      destruct Hf2 as (? & ? & ? & ? & ? & ? & ? & ? & _).
      split_and!; try done; try congruence; lia.
    + intros [= <-]. simpl. eexists. split; [done|]. simpl. rewrite Hg1.
      destruct Hf1 as (? & ? & ? & ? & ? & ? & ? & ? & _).
      split_and!; try done; try congruence; lia.
  - rewrite (on_shader_Some _ _ _ Hs). simpl. intros [= <-]. simpl.
    eexists. split; [done|]. simpl. split_and!; try done; lia.
Qed.

(** The members of the shader after "generate volume shader". *)
Lemma compile_volume_shader fuel shader g out c c' s (wanted : bool) :
  current_shader c = Some s →
  context_wanted shader (node_at g out) "Volume" = Ok wanted →
  compile_volume fuel shader g out c = Ok c' →
  ∃ s', current_shader c' = Some s' ∧ graph s' = graph s ∧
    has_volume s' = wanted || has_volume s ∧
    osl_volume_ref s' = (if wanted then Some (groups_begun (manager c)) else None) ∧
    groups_begun (manager c') =
      (groups_begun (manager c) + if wanted then 1 else 0)%nat ∧
    has_surface s' = has_surface s ∧ has_displacement s' = has_displacement s ∧
    osl_surface_ref s' = osl_surface_ref s ∧
    osl_surface_bump_ref s' = osl_surface_bump_ref s ∧
    osl_displacement_ref s' = osl_displacement_ref s ∧
    has_bump s' = has_bump s.
Proof.
  intros Hs Hw. unfold compile_volume. rewrite Hw. simpl. destruct wanted.
  - destruct (compile_type _ _ _ _ _) as [[c1 group]|] eqn:H1; [|done]. simpl.
    destruct (compile_type_shader _ _ _ _ _ _ _ _ Hs H1)
      as (-> & Hg1 & s1 & Hs1 & Hf1%frame_members).
    rewrite (on_shader_Some _ _ _ Hs1). simpl. intros [= <-]. simpl.
    eexists. split; [done|]. simpl. rewrite Hg1.
    destruct Hf1 as (? & ? & ? & ? & ? & ? & ? & ? & Hb).
    split_and!; try done; try congruence; try lia. by apply Hb.
  - rewrite (on_shader_Some _ _ _ Hs). simpl. intros [= <-]. simpl.
    eexists. split; [done|]. simpl. split_and!; try done; lia.
Qed.

(** The members of the shader after "generate displacement shader". *)
Lemma compile_displacement_shader fuel shader g out c c' s (wanted : bool) :
  current_shader c = Some s →
  context_wanted shader (node_at g out) "Displacement" = Ok wanted →
  compile_displacement fuel shader g out c = Ok c' →
  ∃ s', current_shader c' = Some s' ∧ graph s' = graph s ∧
    has_displacement s' = wanted || has_displacement s ∧
    osl_displacement_ref s' =
      (if wanted then Some (groups_begun (manager c)) else None) ∧
    groups_begun (manager c') =
      (groups_begun (manager c) + if wanted then 1 else 0)%nat ∧
    has_surface s' = has_surface s ∧ has_volume s' = has_volume s ∧
    osl_surface_ref s' = osl_surface_ref s ∧
    osl_surface_bump_ref s' = osl_surface_bump_ref s ∧
    osl_volume_ref s' = osl_volume_ref s ∧
    has_bump s' = has_bump s.
Proof.
  intros Hs Hw. unfold compile_displacement. rewrite Hw. simpl. destruct wanted.
  - destruct (compile_type _ _ _ _ _) as [[c1 group]|] eqn:H1; [|done]. simpl.
    destruct (compile_type_shader _ _ _ _ _ _ _ _ Hs H1)
      as (-> & Hg1 & s1 & Hs1 & Hf1%frame_members).
    rewrite (on_shader_Some _ _ _ Hs1). simpl. intros [= <-]. simpl.
    eexists. split; [done|]. simpl. rewrite Hg1.
    destruct Hf1 as (? & ? & ? & ? & ? & ? & ? & ? & Hb).
    split_and!; try done; try congruence; try lia. by apply Hb.
  - rewrite (on_shader_Some _ _ _ Hs). simpl. intros [= <-]. simpl.
    eexists. split; [done|]. simpl. split_and!; try done; lia.
Qed.

End CompileProofs.

Section CompileTheorems.
Context `{Ext : External}.
Implicit Types (g : ShaderGraph) (ty : ShaderType) (n p : node_id)
  (c : OSLCompiler) (s : Shader) (i : ShaderInput) (o : ShaderOutput).

Lemma input_linked_true (node : ShaderNode) name (b : bool) :
  input_linked node name = Ok b → (b = true ↔ linked node name).
Proof.
  unfold input_linked, linked. destruct (input node name) as [i|]; [|done].
  intros [= <-]. rewrite bool_decide_eq_true. split.
  - intros [o Ho]. eauto.
  - intros (i' & o & [= <-] & Ho). eauto.
Qed.

Lemma input_linked_total (node : ShaderNode) name :
  is_Some (input node name) → ∃ b, input_linked node name = Ok b.
Proof. unfold input_linked. intros [i ->]. eauto. Qed.

Lemma context_wanted_true shader (node : ShaderNode) name (b : bool) :
  context_wanted shader node name = Ok b →
  (b = true ↔ reference_count shader ≠ 0 ∧ linked node name).
Proof.
  unfold context_wanted. destruct (Z.eqb_spec (reference_count shader) 0) as [E|E].
  - intros [= <-]. naive_solver.
  - intros H%input_linked_true. naive_solver.
Qed.

Lemma context_wanted_total shader (node : ShaderNode) name :
  is_Some (input node name) → ∃ b, context_wanted shader node name = Ok b.
Proof.
  unfold context_wanted. intros H. destruct (Z.eqb _ _); [eauto|].
  by apply input_linked_total.
Qed.

Lemma compile_type_keeps_shader fuel c name g ty rank :
  compiles g ty rank fuel = true → is_Some (current_shader c) →
  ∃ c' group, compile_type fuel c name g ty = Ok (c', group) ∧
              is_Some (current_shader c').
Proof.
  intros Hc [s Hs]. destruct (compile_type_total fuel c name g ty rank Hc) as (c' & gr & H);
    [by eauto|].
  exists c', gr. split; [done|].
  destruct (compile_type_shader _ _ _ _ _ _ _ _ Hs H) as (_ & _ & s' & -> & _). eauto.
Qed.

Lemma compile_surface_total fuel shader g out bump c rank (wanted : bool) :
  (∀ ty, compiles g ty rank fuel = true) → is_Some (current_shader c) →
  context_wanted shader (node_at g out) "Surface" = Ok wanted →
  ∃ c', compile_surface fuel shader g out bump c = Ok c'.
Proof.
  intros Hc Hs Hw. unfold compile_surface. rewrite Hw. simpl. destruct wanted.
  - destruct (compile_type_keeps_shader fuel c (shader_name shader) g
                SHADER_TYPE_SURFACE rank) as (c1 & gr & -> & [s1 Hs1]); [done..|].
    simpl. rewrite (on_shader_Some _ _ _ Hs1). simpl. destruct bump.
    + match goal with
      | |- context [compile_type _ ?c0 _ _ SHADER_TYPE_BUMP] =>
          destruct (compile_type_keeps_shader fuel c0 (shader_name shader) g
                      SHADER_TYPE_BUMP rank) as (c2 & gr2 & -> & [s2 Hs2]);
            [done|by eexists|]
      end.
      simpl. rewrite (on_shader_Some _ _ _ Hs2). simpl. eauto.
    + eauto.
  - destruct Hs as [s Hs]. rewrite (on_shader_Some _ _ _ Hs). simpl. eauto.
Qed.

Lemma compile_volume_total fuel shader g out c rank (wanted : bool) :
  (∀ ty, compiles g ty rank fuel = true) → is_Some (current_shader c) →
  context_wanted shader (node_at g out) "Volume" = Ok wanted →
  ∃ c', compile_volume fuel shader g out c = Ok c'.
Proof.
  intros Hc Hs Hw. unfold compile_volume. rewrite Hw. simpl. destruct wanted.
  - destruct (compile_type_keeps_shader fuel c (shader_name shader) g
                SHADER_TYPE_VOLUME rank) as (c1 & gr & -> & [s1 Hs1]); [done..|].
    simpl. rewrite (on_shader_Some _ _ _ Hs1). simpl. eauto.
  - destruct Hs as [s Hs]. rewrite (on_shader_Some _ _ _ Hs). simpl. eauto.
Qed.

Lemma compile_displacement_total fuel shader g out c rank (wanted : bool) :
  (∀ ty, compiles g ty rank fuel = true) → is_Some (current_shader c) →
  context_wanted shader (node_at g out) "Displacement" = Ok wanted →
  ∃ c', compile_displacement fuel shader g out c = Ok c'.
Proof.
  intros Hc Hs Hw. unfold compile_displacement. rewrite Hw. simpl. destruct wanted.
  - destruct (compile_type_keeps_shader fuel c (shader_name shader) g
                SHADER_TYPE_DISPLACEMENT rank) as (c1 & gr & -> & [s1 Hs1]); [done..|].
    simpl. rewrite (on_shader_Some _ _ _ Hs1). simpl. eauto.
  - destruct Hs as [s Hs]. rewrite (on_shader_Some _ _ _ Hs). simpl. eauto.
Qed.

Lemma compile_ready_spec shader g rank fuel :
  compile_ready shader g rank fuel = true →
  ∃ bump, bump_wanted shader g = Ok bump ∧
    let g' := finalized shader g bump in
    is_Some (input (node_at g' (output g)) "Surface") ∧
    is_Some (input (node_at g' (output g)) "Volume") ∧
    is_Some (input (node_at g' (output g)) "Displacement") ∧
    ∀ ty, compiles g' ty rank fuel = true.
Proof.
  unfold compile_ready. destruct (bump_wanted shader g) as [bump|]; [|done].
  simpl. rewrite !andb_true_iff, !bool_decide_eq_true.
  intros ((? & ? & ? & _) & (? & ? & ? & ? & _)). exists bump.
  split_and!; [done..|]. by intros [].
Qed.

(** The shader after [compile], context by context. *)
Lemma compile_result fuel c shader g rank :
  is_modified shader = true → graph shader = Some g →
  compile_ready shader g rank fuel = true →
  ∃ (bump surface volume displacement : bool) c' shader',
    bump_wanted shader g = Ok bump ∧
    context_wanted shader (node_at (finalized shader g bump) (output g)) "Surface"
      = Ok surface ∧
    context_wanted shader (node_at (finalized shader g bump) (output g)) "Volume"
      = Ok volume ∧
    context_wanted shader (node_at (finalized shader g bump) (output g)) "Displacement"
      = Ok displacement ∧
    compile fuel c shader = Ok (c', shader') ∧
    graph shader' = Some (finalized shader g bump) ∧
    let k0 := groups_begun (manager c) in
    let k1 := (k0 + if surface then (if bump then 2 else 1) else 0)%nat in
    let k2 := (k1 + if volume then 1 else 0)%nat in
    let k3 := (k2 + if displacement then 1 else 0)%nat in
    groups_begun (manager c') = k3 ∧
    has_surface shader' = surface ∧
    osl_surface_ref shader' = (if surface then Some k0 else None) ∧
    osl_surface_bump_ref shader' = (if surface && bump then Some (S k0) else None) ∧
    has_volume shader' = volume ∧
    osl_volume_ref shader' = (if volume then Some k1 else None) ∧
    has_displacement shader' = displacement ∧
    osl_displacement_ref shader' = (if displacement then Some k2 else None) ∧
    (surface = false → has_bump shader' = bump).
Proof.
  intros Hmod Hgraph (bump & Hbump & Hs & Hv & Hd & Hc)%compile_ready_spec.
  set (g' := finalized shader g bump) in *.
  destruct (context_wanted_total shader _ _ Hs) as [ws Hws].
  destruct (context_wanted_total shader _ _ Hv) as [wv Hwv].
  destruct (context_wanted_total shader _ _ Hd) as [wd Hwd].
  exists bump, ws, wv, wd.
  unfold compile. rewrite Hmod, Hgraph, Hbump. simpl. fold g'.
  set (shader0 := set_graph (Some g') shader).
  set (c0 := set_current_shader (Some (reset_flags bump shader0))
               (set_current_shader (Some shader0) c)).
  assert (current_shader c0 = Some (reset_flags bump shader0)) as Hs0 by done.
  destruct (compile_surface_total fuel shader0 g' (output g) bump c0 rank ws)
    as [c1 Hrun1]; [done|by eexists|done|].
  rewrite Hrun1. simpl.
  destruct (compile_surface_shader _ _ _ _ _ _ _ _ _ Hs0 Hws Hrun1)
    as (s1 & Hs1 & Hgr1 & ? & ? & ? & Hg1 & ? & ? & ? & ? & Hb1).
  destruct (compile_volume_total fuel shader0 g' (output g) c1 rank wv)
    as [c2 Hrun2]; [done|by eexists|done|].
  rewrite Hrun2. simpl.
  destruct (compile_volume_shader _ _ _ _ _ _ _ _ Hs1 Hwv Hrun2)
    as (s2 & Hs2 & Hgr2 & ? & ? & Hg2 & ? & ? & ? & ? & ? & Hb2).
  destruct (compile_displacement_total fuel shader0 g' (output g) c2 rank wd)
    as [c3 Hrun3]; [done|by eexists|done|].
  rewrite Hrun3. simpl.
  destruct (compile_displacement_shader _ _ _ _ _ _ _ _ Hs2 Hwd Hrun3)
    as (s3 & Hs3 & Hgr3 & ? & ? & Hg3 & ? & ? & ? & ? & ? & Hb3).
  rewrite Hs3. exists c3, s3. simpl in *.
  split_and!.
  all: try done.
  all: try (by rewrite Hgr3, Hgr2, Hgr1).
  all: try (intros Hws0; rewrite Hb3, Hb2, Hb1; done).
  all: try congruence.
  all: destruct ws, wv, wd; simpl in *; congruence.
Qed.

End CompileTheorems.

Section ShaderTheorems.
Context `{Ext : External}.
Implicit Types (g : ShaderGraph) (c : OSLCompiler).

Lemma finalized_graph_eq shader g bump :
  bump_wanted shader g = Ok bump → finalized_graph shader g = finalized shader g bump.
Proof. unfold finalized_graph. by intros ->. Qed.

(** C6 (amended): [compile] on a modified shader with a graph returns when
    the shader is ready for it, and then, for each of Surface, Volume and
    Displacement: the flag of the context is set, and a group begun in this
    call is stored in its reference, if and only if the reference count of
    the shader is not zero and the input of the Output node is linked in the
    finalized graph; otherwise the flag is false and the reference empty. *)
Theorem compile_contexts fuel c shader g rank :
  is_modified shader = true → graph shader = Some g →
  compile_ready shader g rank fuel = true →
  ∃ c' shader',
    compile fuel c shader = Ok (c', shader') ∧
    let out := node_at (finalized_graph shader g) (output g) in
    let wanted name := reference_count shader ≠ 0 ∧ linked out name in
    let begun k := (groups_begun (manager c) ≤ k < groups_begun (manager c'))%nat in
    (has_surface shader' = true ↔ wanted "Surface") ∧
    (is_Some (osl_surface_ref shader') ↔ wanted "Surface") ∧
    (has_volume shader' = true ↔ wanted "Volume") ∧
    (is_Some (osl_volume_ref shader') ↔ wanted "Volume") ∧
    (has_displacement shader' = true ↔ wanted "Displacement") ∧
    (is_Some (osl_displacement_ref shader') ↔ wanted "Displacement") ∧
    (∀ k, osl_surface_ref shader' = Some k → begun k) ∧
    (∀ k, osl_volume_ref shader' = Some k → begun k) ∧
    (∀ k, osl_displacement_ref shader' = Some k → begun k).
Proof.
  intros Hmod Hgraph Hready.
  destruct (compile_result fuel c shader g rank Hmod Hgraph Hready)
    as (bump & ws & wv & wd & c' & shader' & Hbump & Hws & Hwv & Hwd & Hrun & _ &
        Hk & Hs & Hsr & _ & Hv & Hvr & Hd & Hdr & _).
  exists c', shader'. split; [done|]. simpl.
  rewrite (finalized_graph_eq _ _ _ Hbump).
  apply context_wanted_true in Hws, Hwv, Hwd.
  rewrite Hs, Hsr, Hv, Hvr, Hd, Hdr, Hk, <- Hws, <- Hwv, <- Hwd.
  split_and!.
  all: try done.
  all: try (destruct ws, wv, wd; simpl; split;
            first [done|by intros [? ?]|by eauto]).
  all: destruct ws, wv, wd, bump; simpl; intros k ?; simplify_eq; lia.
Qed.

(** C2 (amended): a modified shader with the Bump displacement method whose
    Output node has its Displacement input linked, and its Surface and Volume
    inputs not: after [compile] the Surface context is empty (no group, no
    flag), the Bump context is not compiled ([osl_surface_bump_ref] is empty
    and [has_bump] is false), and the Displacement context is compiled, with
    [has_displacement] true, when the reference count of the shader is not
    zero. *)
Theorem compile_displacement_only fuel c shader g rank :
  is_modified shader = true → graph shader = Some g →
  compile_ready shader g rank fuel = true →
  displacement_method shader = DISPLACE_BUMP →
  ¬ linked (node_at g (output g)) "Surface" →
  ¬ linked (node_at (finalized_graph shader g) (output g)) "Surface" →
  ¬ linked (node_at (finalized_graph shader g) (output g)) "Volume" →
  linked (node_at (finalized_graph shader g) (output g)) "Displacement" →
  ∃ c' shader',
    compile fuel c shader = Ok (c', shader') ∧
    has_surface shader' = false ∧ osl_surface_ref shader' = None ∧
    osl_surface_bump_ref shader' = None ∧ has_bump shader' = false ∧
    has_volume shader' = false ∧ osl_volume_ref shader' = None ∧
    (reference_count shader ≠ 0 →
     has_displacement shader' = true ∧
     osl_displacement_ref shader' = Some (groups_begun (manager c)) ∧
     groups_begun (manager c') = S (groups_begun (manager c))) ∧
    (reference_count shader = 0 →
     has_displacement shader' = false ∧ osl_displacement_ref shader' = None ∧
     groups_begun (manager c') = groups_begun (manager c)).
Proof.
  intros Hmod Hgraph Hready Hmethod Hs0 Hs Hv Hd.
  destruct (compile_result fuel c shader g rank Hmod Hgraph Hready)
    as (bump & ws & wv & wd & c' & shader' & Hbump & Hws & Hwv & Hwd & Hrun & _ &
        Hk & Hfs & Hsr & Hbr & Hfv & Hvr & Hfd & Hdr & Hb).
  rewrite (finalized_graph_eq _ _ _ Hbump) in Hs, Hv, Hd.
  apply context_wanted_true in Hws, Hwv, Hwd.
  assert (bump = false) as ->.
  { revert Hbump. unfold bump_wanted. rewrite Hmethod. simpl.
    destruct (input_linked _ "Surface") as [[]|] eqn:Hl; simpl; [| |done].
    - apply input_linked_true in Hl. destruct Hs0. by apply Hl.
    - by intros [= <-]. }
  assert (ws = false) as -> by (destruct ws; [|done]; destruct Hs; by apply Hws).
  assert (wv = false) as -> by (destruct wv; [|done]; destruct Hv; by apply Hwv).
  exists c', shader'. simpl in *.
  split_and!; [done|done|done|done|by apply Hb|done|done| |].
  - intros Hcount. assert (wd = true) as -> by (by apply Hwd).
    rewrite Hk, Hfd, Hdr. split_and!; [done| |lia]. f_equal. lia.
  - intros Hcount. assert (wd = false) as ->.
    { destruct wd; [|done]. by destruct (proj1 Hwd eq_refl). }
    rewrite Hk, Hfd, Hdr. split_and!; [done|done|lia].
Qed.

(** C10: [compile] on a shader that is not modified returns the compiler and
    the shader as they were: no member of the shader is written, and the
    shading system receives no call. *)
Theorem compile_unmodified fuel c shader :
  is_modified shader = false →
  compile fuel c shader = Ok (c, shader).
Proof. intros Hmod. unfold compile. by rewrite Hmod. Qed.

End ShaderTheorems.

Section LifecycleProofs.
Context `{Ext : External}.

Lemma INT_bounds : INT_MIN = -2147483648 ∧ INT_MAX = 2147483647.
Proof. by compute. Qed.

(** A manager that resets itself keeps the count of the users. When it is the
    only user the shading system and the render services are destroyed and
    made again, and the manager forgets the shaders it has loaded; when the
    system has other users it stays, and so do the loaded shaders. *)
Theorem reset_alone_or_shared st m :
  0 < ss_shared_users st ≤ INT_MAX →
  ∃ st' m', reset st m = (st', m') ∧
    ss_shared_users st' = ss_shared_users st ∧
    ts_shared st' = ts_shared st ∧ ts_shared_users st' = ts_shared_users st ∧
    ss m' = ss_shared st' ∧ services m' = services_shared st' ∧ ts m' = ts m ∧
    (ss_shared_users st = 1 →
     loaded_shaders m' = ∅ ∧
     services_shared st' = Some {| services_texture_system := ts_shared st |} ∧
     ss_shared st' = Some (ShadingSystem_create (services_shared st') (ts_shared st))) ∧
    (ss_shared_users st ≠ 1 →
     loaded_shaders m' = loaded_shaders m ∧
     ss_shared st' = ss_shared st ∧ services_shared st' = services_shared st).
Proof.
  intros Hu. destruct INT_bounds as [Hmin Hmax].
  unfold reset, shading_system_free, shading_system_init. simpl.
  rewrite (wrap_int_id (ss_shared_users st - 1)) by lia.
  rewrite (wrap_int_id (ss_shared_users st - 1 + 1)) by lia.
  eexists _, _. split; [reflexivity|]. simpl.
  destruct (Z.eqb_spec (ss_shared_users st - 1) 0) as [He|Hne]; simpl.
  all: split_and!; first [done | lia].
Qed.

Lemma construct_shared st live m :
  shared_by st live → Z.of_nat (length live) < INT_MAX →
  ∃ st' m', OSLShaderManager_construct st m = (st', m') ∧
            shared_by st' (live ++ [m']).
Proof.
  intros (Hts & Hss & Hti & [Hsi1 Hsi2] & Hlive & Hsv & Hsys) Hn.
  destruct INT_bounds as [Hmin Hmax].
  unfold OSLShaderManager_construct, texture_system_init, shading_system_init.
  simpl. eexists _, _. split; [reflexivity|].
  unfold shared_by, ts_invariant, ss_invariant in *. simpl.
  rewrite Hts, Hss, length_app, !wrap_int_id by (simpl; lia). simpl.
  destruct (Z.eqb_spec (Z.of_nat (length live)) 0) as [He|Hne]; simpl.
  - assert (live = []) as -> by (apply nil_length_inv; lia). simpl.
    split_and!; try lia; try (split; [lia|eauto]).
    + intros m' ->%list_elem_of_singleton. done.
    + by intros sv [= <-].
    + by intros s [= <-].
  - split_and!; try lia.
    + rewrite Hti. lia.
    + rewrite Hsi1. lia.
    + rewrite Hsi2. lia.
    + intros m' [Hm| ->%list_elem_of_singleton]%elem_of_app.
      * by apply Hlive.
      * done.
    + done.
    + done.
Qed.

Lemma destruct_shared st live k m :
  shared_by st live → Z.of_nat (length live) ≤ INT_MAX → live !! k = Some m →
  ∃ st' m', OSLShaderManager_destruct st m = Ok (st', m') ∧
            shared_by st' (delete k live).
Proof.
  intros (Hts & Hss & Hti & [Hsi1 Hsi2] & Hlive & Hsv & Hsys) Hn Hk.
  destruct INT_bounds as [Hmin Hmax].
  pose proof (lookup_lt_Some _ _ _ Hk) as Hlt.
  unfold OSLShaderManager_destruct, shading_system_free, texture_system_free.
  simpl. rewrite Hts, Hss, !wrap_int_id by lia.
  unfold shared_by, ts_invariant, ss_invariant in *.
  assert (is_Some (ts_shared st)) as [t Ht] by (apply Hti; lia).
  rewrite length_delete by eauto.
  destruct (Z.eqb_spec (Z.of_nat (length live) - 1) 0) as [He|Hne]; rewrite Ht; simpl.
  - eexists _, _. split; [reflexivity|]. simpl.
    assert (delete k live = []) as ->.
    { apply nil_length_inv. rewrite length_delete by eauto. lia. }
    split_and!; try lia.
    + split; [by intros [? ?]|lia].
    + split; [by intros [? ?]|lia].
    + split; [by intros [? ?]|lia].
    + intros m' Hm'. by apply elem_of_nil in Hm'.
    + done.
    + done.
  - eexists _, _. split; [reflexivity|]. simpl.
    split_and!; try lia.
    + split; [lia|eauto].
    + rewrite Hsi1. lia.
    + rewrite Hsi2. lia.
    + intros m' Hm'%list_elem_of_delete_inv. rewrite <- Ht. by apply Hlive.
    + rewrite <- Ht. done.
    + rewrite <- Ht. done.
Qed.

Lemma reset_shared st live k m :
  shared_by st live → Z.of_nat (length live) ≤ INT_MAX → live !! k = Some m →
  ∃ st' m', reset st m = (st', m') ∧ shared_by st' (<[k := m']> live).
Proof.
  intros (Hts & Hss & Hti & [Hsi1 Hsi2] & Hlive & Hsv & Hsys) Hn Hk.
  destruct INT_bounds as [Hmin Hmax].
  pose proof (lookup_lt_Some _ _ _ Hk) as Hlt.
  destruct (Hlive m) as (Hm1 & Hm2 & Hm3); [by eapply list_elem_of_lookup_2|].
  unfold reset, shading_system_free, shading_system_init.
  simpl. rewrite Hss, !wrap_int_id by lia.
  unfold shared_by, ts_invariant, ss_invariant in *.
  eexists _, _. split; [reflexivity|]. simpl.
  rewrite length_insert.
  destruct (Z.eqb_spec (Z.of_nat (length live) - 1) 0) as [He|Hne]; simpl.
  - split_and!; try lia.
    + done.
    + split; [lia|eauto].
    + split; [lia|eauto].
    + intros m' [j Hj]%list_elem_of_lookup.
      pose proof (lookup_lt_Some _ _ _ Hj) as Hjlt. rewrite length_insert in Hjlt.
      assert (j = k) as -> by lia.
      rewrite list_lookup_insert_eq in Hj by done. by simplify_eq/=.
    + by intros sv [= <-].
    + by intros s [= <-].
  - split_and!; try lia.
    + done.
    + rewrite Hsi1. lia.
    + rewrite Hsi2. lia.
    + intros m' [j Hj]%list_elem_of_lookup.
      destruct (decide (j = k)) as [->|Hjk].
      * rewrite list_lookup_insert_eq in Hj by done. by simplify_eq/=.
      * rewrite list_lookup_insert_ne in Hj by done.
        apply Hlive. by eapply list_elem_of_lookup_2.
    + done.
    + done.
Qed.

Lemma manager_op_shared st live op :
  shared_by st live → Z.of_nat (length live) < INT_MAX →
  ∃ st' live', manager_op (st, live) op = Ok (st', live') ∧
               shared_by st' live' ∧ (length live' ≤ S (length live))%nat.
Proof.
  intros Hs Hn. destruct op as [m|k|k]; unfold manager_op.
  - destruct (construct_shared st live m Hs Hn) as (st' & m' & -> & Hs').
    eexists _, _. split_and!; [done..|]. rewrite length_app. simpl. lia.
  - destruct (live !! k) as [m|] eqn:Hk.
    + destruct (destruct_shared st live k m Hs ltac:(lia) Hk) as (st' & m' & -> & Hs').
      simpl. eexists _, _. split_and!; [done..|].
      rewrite length_delete by eauto. lia.
    + eexists _, _. split_and!; [done..|]. lia.
  - destruct (live !! k) as [m|] eqn:Hk.
    + destruct (reset_shared st live k m Hs ltac:(lia) Hk) as (st' & m' & -> & Hs').
      eexists _, _. split_and!; [done..|]. rewrite length_insert. lia.
    + eexists _, _. split_and!; [done..|]. lia.
Qed.

(** Through any history of constructions, destructions and resets that stays
    below [INT_MAX] managers, no step fails, and afterwards the two counts
    are the number of the managers that live, every one of them holds the
    shared texture system, shading system and render services, these exist
    exactly while a manager lives, and the shading system and the render
    services refer to the texture system that is shared. *)
Theorem managers_share_the_systems (ops : list ManagerOp) st live :
  shared_by st live →
  Z.of_nat (length live + length ops) ≤ INT_MAX →
  ∃ st' live', for_each manager_op (st, live) ops = Ok (st', live') ∧
               shared_by st' live'.
Proof.
  revert st live. induction ops as [|op ops IH]; intros st live Hs Hn.
  - simpl. eauto.
  - destruct (manager_op_shared st live op Hs) as (st1 & live1 & Hop & Hs1 & Hlen).
    { simpl in Hn. lia. }
    cbn [for_each]. rewrite Hop. simpl. apply IH; [done|]. simpl in Hn. lia.
Qed.

End LifecycleProofs.

Section LoaderFrameProofs.
Context `{Ext : External}.

Lemma read_and_load_frame m path time r m' :
  read_and_load m path time = (r, m') →
  files m' = files m ∧ oslc_runs m' = oslc_runs m ∧
  file_reads m' = file_reads m ++ [path] ∧
  groups_begun m' = groups_begun m ∧
  ts m' = ts m ∧ ss m' = ss m ∧ services m' = services m ∧
  ∀ h, h ≠ shader_filepath_hash path time →
       loaded_shaders m' !! h = loaded_shaders m !! h.
Proof.
  unfold read_and_load, read_text, shader_load_bytecode. simpl.
  destruct (path_read_text (files m) path); intros [= <- <-]; simpl.
  all: split_and!; try done.
  all: intros h Hh; by rewrite lookup_insert_ne.
Qed.

Lemma read_and_load_unread m path time m' :
  read_and_load m path time = (None, m') →
  path_read_text (files m') path = None ∧
  file_reads m' = file_reads m ++ [path] ∧
  loaded_shaders m' =
    <[shader_filepath_hash path time := OSLShaderInfo_new]> (loaded_shaders m) ∧
  ss_calls m' = ss_calls m ∧ groups_begun m' = groups_begun m.
Proof.
  unfold read_and_load, read_text, shader_load_bytecode. simpl.
  destruct (path_read_text (files m) path) eqn:Hr; intros [= <-]; simpl. done.
Qed.

(** When [shader_load_filepath] returns NULL, either the path is of no known
    kind (it ends neither in .osl nor in .oso and has a directory), and then
    the manager is as it was; or the file of the bytecode could not be read:
    it was asked for once, an empty [OSLShaderInfo] is stored under its hash,
    and the shading system was told nothing. *)
Theorem shader_load_filepath_null m filepath m' :
  shader_load_filepath m filepath = Ok (None, m') →
  (file_extension filepath ≠ ".osl" ∧ file_extension filepath ≠ ".oso" ∧
   path_dirname filepath ≠ "" ∧ m' = m) ∨
  (path_read_text (files m') (bytecode_path filepath) = None ∧
   file_reads m' = file_reads m ++ [bytecode_path filepath] ∧
   loaded_shaders m' =
     <[shader_filepath_hash (bytecode_path filepath)
         (bytecode_time (files m') filepath) := OSLShaderInfo_new]> (loaded_shaders m) ∧
   ss_calls m' = ss_calls m ∧ groups_begun m' = groups_begun m).
Proof.
  unfold shader_load_filepath, bytecode_path, bytecode_time.
  destruct (String.length filepath <? 4)%nat; [done|].
  destruct (String.eqb_spec (file_extension filepath) ".osl") as [Hosl|Hosl].
  - intros H. right. revert H.
    destruct (if Z.eqb _ 0 then None else _) as [hash|]; [done|].
    destruct (_ || _); intros [= H].
    + pose proof (read_and_load_frame _ _ _ _ _ H) as (Hf & _).
      apply read_and_load_unread in H as (Hr & Hreads & Hl & Hc & Hg).
      simpl in *. split_and!; congruence.
    + pose proof (read_and_load_frame _ _ _ _ _ H) as (Hf & _).
      apply read_and_load_unread in H as (Hr & Hreads & Hl & Hc & Hg).
      simpl in *. split_and!; congruence.
  - destruct (String.eqb_spec (file_extension filepath) ".oso") as [Hoso|Hoso].
    + intros H. right. revert H.
      destruct (shader_test_loaded _ _); [done|]. intros [= H].
      pose proof (read_and_load_frame _ _ _ _ _ H) as (Hf & _).
      apply read_and_load_unread in H as (Hr & Hreads & Hl & Hc & Hg).
      simpl in *. split_and!; congruence.
    + destruct (String.eqb_spec (path_dirname filepath) "") as [Hdir|Hdir].
      * intros H. right. revert H.
        destruct (shader_test_loaded _ _); [done|]. intros [= H].
        pose proof (read_and_load_frame _ _ _ _ _ H) as (Hf & _).
        apply read_and_load_unread in H as (Hr & Hreads & Hl & Hc & Hg).
        simpl in *. split_and!; congruence.
      * intros [= <-]. by left.
Qed.

(** [shader_load_filepath] runs the compiler for a source (a path that ends
    in .osl) exactly when its .oso file is missing, or is older than the
    source and is not the bytecode that is loaded already; it runs it once,
    from the source to the .oso file. For any other path it compiles
    nothing. In particular a source that was changed after its bytecode was
    loaded is not compiled again. *)
Theorem osl_compile_when_stale m filepath r m' :
  shader_load_filepath m filepath = Ok (r, m') →
  let t_osl := path_modified_time (files m) filepath in
  let t_oso := path_modified_time (files m) (oso_path filepath) in
  let cached :=
    is_Some (loaded_shaders m !! shader_filepath_hash (oso_path filepath) t_oso) in
  (file_extension filepath = ".osl" ∧ (t_oso = 0 ∨ (¬ cached ∧ t_oso < t_osl)) →
   oslc_runs m' = oslc_runs m ++ [(filepath, oso_path filepath)] ∧
   files m' = oslc (files m) filepath (oso_path filepath)) ∧
  (¬ (file_extension filepath = ".osl" ∧ (t_oso = 0 ∨ (¬ cached ∧ t_oso < t_osl))) →
   oslc_runs m' = oslc_runs m ∧ files m' = files m).
Proof.
  unfold shader_load_filepath.
  destruct (String.length filepath <? 4)%nat; [done|].
  destruct (String.eqb_spec (file_extension filepath) ".osl") as [Hosl|Hosl].
  - destruct (Z.eqb_spec (path_modified_time (files m) (oso_path filepath)) 0)
      as [Hz|Hz]; simpl.
    + destruct (read_and_load _ _ _) as [r0 m0] eqn:H. intros [= <- <-].
      apply read_and_load_frame in H as (Hf & Ho & _). simpl in *.
      split; [done|]. intros Hn. destruct Hn. auto.
    + unfold shader_test_loaded.
      destruct (loaded_shaders m !! _) as [info|] eqn:Hl.
      * intros [= <- <-]. split; [|done].
        intros [_ [?|[Hc _]]]; [done|]. destruct Hc. eauto.
      * destruct (Z.ltb_spec (path_modified_time (files m) (oso_path filepath))
                    (path_modified_time (files m) filepath)) as [Hlt|Hge].
        -- destruct (read_and_load _ _ _) as [r0 m0] eqn:H. intros [= <- <-].
           apply read_and_load_frame in H as (Hf & Ho & _). simpl in *.
           split; [done|]. intros Hn. destruct Hn. split; [done|]. right.
           split; [|done]. by intros [? ?].
        -- destruct (read_and_load _ _ _) as [r0 m0] eqn:H. intros [= <- <-].
           apply read_and_load_frame in H as (Hf & Ho & _).
           split; [|done]. intros [_ [?|[_ ?]]]; [done|lia].
  - intros H. split; [by intros [? _]|]. intros _. revert H.
    destruct (if String.eqb _ ".oso" then _ else _) as [path|]; [|by intros [= <- <-]].
    destruct (shader_test_loaded _ _); [by intros [= <- <-]|].
    destruct (read_and_load _ _ _) as [r0 m0] eqn:H. intros [= <- <-].
    by apply read_and_load_frame in H as (Hf & Ho & _).
Qed.

End LoaderFrameProofs.

Section NodeProofs.
Context `{Ext : External}.

Lemma count_inputs_filter params :
  count_inputs params
  = length (List.filter (λ p, negb (unsupported p) && negb (isoutput p)) params).
Proof.
  unfold count_inputs.
  assert (∀ n, foldl (λ n p, if unsupported p then n else if isoutput p then n else S n)
                 n params
               = (n + length (List.filter
                    (λ p, negb (unsupported p) && negb (isoutput p)) params))%nat) as H.
  { induction params as [|p params IH]; intros n; simpl; [lia|].
    rewrite IH. destruct (unsupported p), (isoutput p); simpl; lia. }
  by rewrite H.
Qed.

Lemma socket_of_typed p :
  match socket_of p with
  | Ok (Some (ty, _)) => typed p = true ∧ osl_socket_type ty = true
  | Ok None => typed p = false
  | Fail _ => True
  end.
Proof.
  unfold socket_of, typed, default_float3.
  destruct (isclosure p); simpl; [done|].
  destruct (TypeDesc.vecsemantics (param_type p)); simpl; try done.
  - destruct (TypeDesc.aggregate (param_type p)); try done.
    destruct (TypeDesc.basetype (param_type p)); try done.
    all: destruct (writes_default p); simpl; try done.
    + by destruct (at_index (idefault p) 0).
    + by destruct (at_index (fdefault p) 0).
    + by destruct (at_index (sdefault p) 0).
  - destruct (writes_default p); simpl; [|done].
    destruct (at_index _ 0); simpl; [|done]. destruct (at_index _ 1); simpl; [|done].
    by destruct (at_index _ 2).
  - destruct (writes_default p); simpl; [|done].
    destruct (at_index _ 0); simpl; [|done]. destruct (at_index _ 1); simpl; [|done].
    by destruct (at_index _ 2).
  - destruct (writes_default p); simpl; [|done].
    destruct (at_index _ 0); simpl; [|done]. destruct (at_index _ 1); simpl; [|done].
    by destruct (at_index _ 2).
  - destruct (writes_default p); simpl; [|done].
    destruct (at_index _ 0); simpl; [|done]. destruct (at_index _ 1); simpl; [|done].
    by destruct (at_index _ 2).
Qed.

Lemma add_socket_spec node p node1 :
  add_socket node p = Ok node1 →
  (node1 = node ∧ negb (unsupported p) && typed p = false) ∨
  (∃ ty d, negb (unsupported p) && typed p = true ∧ osl_socket_type ty = true ∧
           node1 = if isoutput p then add_output (param_name p) ty node
                   else add_input (param_name p) ty d node).
Proof.
  unfold add_socket. destruct (unsupported p); simpl; [intros [= <-]; by left|].
  pose proof (socket_of_typed p) as Ht.
  destruct (socket_of p) as [[[ty d]|]|]; simpl; [| |done].
  - destruct Ht as [Ht Hty]. intros H. right. exists ty, d. split_and!; try done.
    destruct (isoutput p); congruence.
  - intros [= <-]. by left.
Qed.

Lemma add_sockets_spec params node node' :
  for_each add_socket node params = Ok node' →
  osl_num_inputs node' = osl_num_inputs node ∧
  osl_bytecode_hash node' = osl_bytecode_hash node ∧
  osl_filepath node' = osl_filepath node ∧
  (osl_inputs node').*1.*1
  = (osl_inputs node).*1.*1 ++
    (param_name <$> List.filter
       (λ p, negb (unsupported p) && typed p && negb (isoutput p)) params) ∧
  (osl_outputs node').*1
  = (osl_outputs node).*1 ++
    (param_name <$> List.filter
       (λ p, negb (unsupported p) && typed p && isoutput p) params) ∧
  (Forall (λ i, osl_socket_type i.1.2 = true) (osl_inputs node) →
   Forall (λ i, osl_socket_type i.1.2 = true) (osl_inputs node')) ∧
  (Forall (λ o, osl_socket_type o.2 = true) (osl_outputs node) →
   Forall (λ o, osl_socket_type o.2 = true) (osl_outputs node')).
Proof.
  revert node. induction params as [|p params IH]; intros node.
  - simpl. intros [= <-]. by rewrite !app_nil_r.
  - cbn [for_each List.filter].
    destruct (add_socket node p) as [node1|] eqn:Hadd; simpl; [|done].
    intros H. apply IH in H as (H1 & H2 & H3 & H4 & H5 & Hi & Ho).
    apply add_socket_spec in Hadd as [[-> Hp]|(ty & d & Hp & Hty & ->)]; rewrite Hp.
    + done.
    + destruct (isoutput p); simpl in *.
      * rewrite H1, H2, H3, H4, H5, !fmap_app, <- !app_assoc. simpl.
        split_and!; try done. intros Hall. apply Ho, Forall_app. split; [done|].
        by apply Forall_singleton.
      * rewrite H1, H2, H3, H4, H5, !fmap_app, <- !app_assoc. simpl.
        split_and!; try done. intros Hall. apply Hi, Forall_app. split; [done|].
        by apply Forall_singleton.
Qed.

Lemma filter_length_le {A} (f h : A → bool) (l : list A) :
  (∀ a, f a = true → h a = true) →
  (length (List.filter f l) ≤ length (List.filter h l))%nat.
Proof.
  intros Hfh. induction l as [|a l IH]; simpl; [done|].
  destruct (f a) eqn:Hf.
  - rewrite (Hfh a Hf). simpl. lia.
  - destruct (h a); simpl; lia.
Qed.

(** The sockets of the node that [osl_node] returns: with the parameters of
    the query of the loaded shader, unsupported ones aside, the node was
    created for as many inputs as there are parameters that are not outputs;
    its inputs are, in order, those of them that have a socket type, and its
    outputs the outputs that have one. So it never has more inputs than it
    was created for, and every socket has one of the eight types. *)
Theorem osl_node_sockets getparams use_osl m filepath bytecode_hash bytecode node m' :
  osl_node getparams use_osl m filepath bytecode_hash bytecode = Ok (Some node, m') →
  ∃ hash info,
    loaded_shaders m' !! hash = Some info ∧
    let params := List.filter (λ p, negb (unsupported p)) (query_params getparams info) in
    osl_num_inputs node = length (List.filter (λ p, negb (isoutput p)) params) ∧
    (osl_inputs node).*1.*1
    = (param_name <$> List.filter (λ p, typed p && negb (isoutput p)) params) ∧
    (osl_outputs node).*1
    = (param_name <$> List.filter (λ p, typed p && isoutput p) params) ∧
    (length (osl_inputs node) ≤ osl_num_inputs node)%nat ∧
    Forall (λ i, osl_socket_type i.1.2 = true) (osl_inputs node) ∧
    Forall (λ o, osl_socket_type o.2 = true) (osl_outputs node) ∧
    (if String.eqb bytecode_hash ""
     then osl_filepath node = filepath ∧ osl_bytecode_hash node = ""
     else osl_bytecode_hash node = bytecode_hash ∧ osl_filepath node = "").
Proof.
  unfold osl_node. destruct use_osl; simpl; [|done].
  destruct (if negb _ then _ else _) as [[[hash|] m1]|]; simpl; [|done|done].
  unfold shader_loaded_info.
  destruct (loaded_shaders m1 !! hash) as [info|] eqn:Hinfo; [|done].
  destruct (for_each add_socket _ _) as [node1|] eqn:Hrun; simpl; [|done].
  intros [= <- <-]. exists hash, info. split; [done|].
  apply add_sockets_spec in Hrun as (Hn & Hh & Hf & Hi & Ho & Hit & Hot).
  simpl in *. rewrite count_inputs_filter in Hn.
  assert (∀ (f : QueryParameter → bool) l,
            List.filter f (List.filter (λ p, negb (unsupported p)) l)
            = List.filter (λ p, negb (unsupported p) && f p) l) as Hff.
  { intros f l. induction l as [|p l IH]; simpl; [done|].
    destruct (unsupported p); simpl; [done|]. destruct (f p); by rewrite IH. }
  rewrite !Hff.
  assert (∀ (f h : QueryParameter → bool) (l : list QueryParameter),
            (∀ p, f p = h p) → List.filter f l = List.filter h l) as Hext.
  { intros f h l Hfh. induction l as [|p l IH]; simpl; [done|].
    by rewrite Hfh, IH. }
  rewrite (Hext _ _ _ (λ p, andb_assoc (negb (unsupported p)) (typed p) (negb (isoutput p)))).
  rewrite (Hext _ _ _ (λ p, andb_assoc (negb (unsupported p)) (typed p) (isoutput p))).
  split_and!; try done.
  - rewrite <- (length_fmap fst), <- (length_fmap fst), Hi, length_fmap, Hn.
    apply filter_length_le. intros p. destruct (unsupported p), (typed p); naive_solver.
  - by apply Hit.
  - by apply Hot.
  - unfold set_source. simpl. rewrite Hh, Hf. by destruct (String.eqb bytecode_hash "").
Qed.

(** [osl_node] for a bytecode hash (an empty file path) loads the bytecode
    once: when the hash is loaded already the manager is as it was, whatever
    the bytecode; otherwise the shading system is given the bytecode once and
    the hash is loaded afterwards. The call never returns NULL, and a second
    request for the hash, with any bytecode, returns the same node and
    leaves the manager as it is. *)
Theorem osl_node_bytecode_once getparams m bytecode_hash bytecode r m' :
  osl_node getparams true m "" bytecode_hash bytecode = Ok (r, m') →
  is_Some r ∧
  is_Some (loaded_shaders m' !! bytecode_hash) ∧
  (is_Some (loaded_shaders m !! bytecode_hash) → m' = m) ∧
  (loaded_shaders m !! bytecode_hash = None →
   ss_calls m' = ss_calls m ++ [SS_LoadMemoryCompiledShader bytecode_hash bytecode] ∧
   ∀ h, h ≠ bytecode_hash → loaded_shaders m' !! h = loaded_shaders m !! h) ∧
  ∀ bytecode',
    osl_node getparams true m' "" bytecode_hash bytecode' = Ok (r, m').
Proof.
  unfold osl_node, shader_test_loaded, shader_loaded_info. simpl.
  destruct (loaded_shaders m !! bytecode_hash) as [info|] eqn:Hl; simpl.
  - rewrite Hl.
    destruct (for_each add_socket _ _) as [node|] eqn:Hrun; simpl; [|done].
    intros [= <- <-]. split_and!; try done; try by eauto.
    intros bytecode'. rewrite Hl. simpl. by rewrite Hl, Hrun.
  - rewrite lookup_insert_eq.
    destruct (for_each add_socket _ _) as [node|] eqn:Hrun; simpl; [|done].
    intros [= <- <-]. simpl. rewrite lookup_insert_eq.
    split_and!; try done; try by eauto.
    + intros _. split; [done|]. intros h Hh. by rewrite lookup_insert_ne.
    + intros bytecode'. simpl. rewrite lookup_insert_eq. simpl.
      by rewrite Hrun.
Qed.

End NodeProofs.

Section TextureProofs.
Context `{Ext : External}.

Lemma svm_name_inj : Inj (=) (=) svm_name.
Proof.
  intros i j H. unfold svm_name in H.
  apply (inj pretty). by simplify_eq/=.
Qed.

Lemma texture_calls_spec calls t c :
  INT_MIN ≤ texture_shared_unique_id t →
  texture_shared_unique_id t + Z.of_nat (length calls) ≤ INT_MAX →
  (inserted (foldl texture_call (t, c) calls).1).*1
  = (inserted t).*1 ++
    ((λ k, svm_name (texture_shared_unique_id t + Z.of_nat k)) <$> seq 0 (length calls)) ∧
  texture_shared_unique_id (foldl texture_call (t, c) calls).1
  = texture_shared_unique_id t + Z.of_nat (length calls).
Proof.
  revert t c. induction calls as [|call calls IH]; intros t c Hlo Hhi.
  - simpl. rewrite app_nil_r. split; [done|lia].
  - cbn [foldl length seq fmap list_fmap]. simpl in Hhi.
    destruct (IH (texture_call (t, c) call).1 (texture_call (t, c) call).2)
      as [Hn Hid].
    + destruct call; simpl; rewrite wrap_int_id; lia.
    + destruct call; simpl; rewrite wrap_int_id; lia.
    + rewrite <- surjective_pairing in Hn, Hid. rewrite Hn, Hid.
      assert (texture_shared_unique_id (texture_call (t, c) call).1
              = texture_shared_unique_id t + 1) as ->.
      { destruct call; simpl; rewrite wrap_int_id; lia. }
      assert ((inserted (texture_call (t, c) call).1).*1
              = (inserted t).*1 ++ [svm_name (texture_shared_unique_id t)]) as ->.
      { destruct call; simpl; by rewrite fmap_app. }
      rewrite <- app_assoc, Z.add_0_r. simpl. split; [|lia].
      do 2 f_equal. rewrite <- fmap_S_seq, <- list_fmap_compose.
      apply list_fmap_ext. intros _ k _. simpl. f_equal. lia.
Qed.

(** The names that [parameter_texture(name, svm_slot)] and
    [parameter_texture_ies] make for their textures: as long as the counter
    does not leave the range of an [int], the calls insert their handles
    under "@svm" and the successive values of the counter, so no two of them
    use the same name, and none uses the name of the built-in "@ao" or
    "@bevel" texture. *)
Theorem texture_names_unique calls t c :
  INT_MIN ≤ texture_shared_unique_id t →
  texture_shared_unique_id t + Z.of_nat (length calls) ≤ INT_MAX →
  ∃ names,
    (inserted (foldl texture_call (t, c) calls).1).*1 = (inserted t).*1 ++ names ∧
    names = (λ k, svm_name (texture_shared_unique_id t + Z.of_nat k))
              <$> seq 0 (length calls) ∧
    NoDup names ∧ ("@ao" ∉ names) ∧ ("@bevel" ∉ names) ∧
    texture_shared_unique_id (foldl texture_call (t, c) calls).1
    = texture_shared_unique_id t + Z.of_nat (length calls).
Proof.
  intros Hlo Hhi. destruct (texture_calls_spec calls t c Hlo Hhi) as [Hn Hid].
  eexists. split; [exact Hn|]. split; [done|]. split_and!.
  - apply NoDup_fmap_2; [|apply NoDup_seq].
    intros i j H. apply svm_name_inj in H. lia.
  - intros (k & H & _)%list_elem_of_fmap. by simplify_eq/=.
  - intros (k & H & _)%list_elem_of_fmap. by simplify_eq/=.
  - done.
Qed.

End TextureProofs.

Section ResolverMoreProofs.
Context `{Ext : External}.
Implicit Types (g : ShaderGraph) (ty : ShaderType) (i : ShaderInput).
Implicit Types (deps : gset node_id).

Lemma find_dependencies_union fuel g ty deps i deps' :
  closed g ty deps →
  find_dependencies fuel g ty deps i = Ok deps' →
  closed g ty deps' ∧ (∀ n, n ∈ deps' ↔ n ∈ deps ∨ reaches g ty i n).
Proof.
  intros Hc Hfd.
  destruct (find_dependencies_resolved _ _ _ _ _ _ Hc Hfd)
    as (added & -> & Hord & Hlink & Hreach).
  pose proof (in_order_closed _ _ _ _ Hc Hord) as Hc'.
  split; [done|]. intros n. split.
  - intros [Hn%elem_of_list_to_set|Hn]%elem_of_union; auto.
  - intros [Hn|Hn]; [set_solver|]. by eapply closed_reaches.
Qed.

(** [find_dependencies] on a set that is closed already adds to it exactly
    the nodes from which the input is computed, and the result is closed. A
    second call for the same input, with any fuel, changes nothing. *)
Theorem find_dependencies_accumulates fuel g ty deps i deps' :
  closed g ty deps →
  find_dependencies fuel g ty deps i = Ok deps' →
  closed g ty deps' ∧
  (∀ n, n ∈ deps' ↔ n ∈ deps ∨ reaches g ty i n) ∧
  ∀ fuel', find_dependencies fuel' g ty deps' i = Ok deps'.
Proof.
  intros Hc Hfd. destruct (find_dependencies_union _ _ _ _ _ _ Hc Hfd) as [Hc' Hin].
  split_and!; [done..|]. intros fuel'.
  destruct fuel'; simpl; destruct (link i) as [l|] eqn:Hl; try done.
  all: rewrite bool_decide_eq_true_2; [done|].
  all: apply Hin; right; by constructor.
Qed.

(** The set that [find_dependencies] computes for two inputs, one after the
    other, does not depend on which of them comes first. *)
Theorem find_dependencies_commutes fuel g ty deps i1 i2 d1 d12 d2 d21 :
  closed g ty deps →
  find_dependencies fuel g ty deps i1 = Ok d1 →
  find_dependencies fuel g ty d1 i2 = Ok d12 →
  find_dependencies fuel g ty deps i2 = Ok d2 →
  find_dependencies fuel g ty d2 i1 = Ok d21 →
  d12 = d21.
Proof.
  intros Hc H1 H12 H2 H21.
  destruct (find_dependencies_union _ _ _ _ _ _ Hc H1) as [Hc1 Hin1].
  destruct (find_dependencies_union _ _ _ _ _ _ Hc H2) as [Hc2 Hin2].
  destruct (find_dependencies_union _ _ _ _ _ _ Hc1 H12) as [_ Hin12].
  destruct (find_dependencies_union _ _ _ _ _ _ Hc2 H21) as [_ Hin21].
  apply set_eq. intros n. rewrite Hin12, Hin21, Hin1, Hin2. tauto.
Qed.

Lemma find_dependencies_failure fuel g ty deps i f :
  find_dependencies fuel g ty deps i = Fail f → f = out_of_fuel.
Proof.
  revert deps i. induction fuel as [|fuel IH]; intros deps i; simpl.
  - destruct (link i); [|done]. case_bool_decide; [done|]. congruence.
  - destruct (link i) as [l|]; [|done]. case_bool_decide; [done|].
    assert (∀ ins d, for_each (λ d i', if node_skip_input g ty (node_at g (parent l)) i'
                                      then Ok d else find_dependencies fuel g ty d i')
                       d ins = Fail f → f = out_of_fuel) as Hloop.
    { induction ins as [|i' ins IHins]; intros d; simpl; [done|].
      destruct (node_skip_input _ _ _ i'); simpl; [apply IHins|].
      destruct (find_dependencies fuel g ty d i') as [d'|f'] eqn:Hfd; simpl.
      - apply IHins.
      - intros [= <-]. by eapply IH. }
    destruct (for_each _ _ _) as [d|f'] eqn:Hrun; simpl; [done|].
    intros [= <-]. by eapply Hloop.
Qed.

Lemma in_order_no_knot g ty (s : gset node_id) l n :
  knot g ty s → in_order g ty ∅ l → n ∈ s → n ∈ l → False.
Proof.
  intros Hk Hord. remember (position n l) as k eqn:Hpos.
  revert n Hpos. induction (lt_wf k) as [k _ IH]. intros n -> Hs Hl.
  destruct (Hk n Hs) as (p & Hp & Hdep).
  destruct (in_order_position _ _ _ _ _ Hord Hl Hdep) as [Hpl Hlt].
  by eapply (IH (position p l)).
Qed.

(** On a graph with a cycle that the input reaches, [find_dependencies] does
    not return: whatever the fuel, the recursion is still running when it is
    spent. *)
Theorem find_dependencies_cycle g ty (s : gset node_id) i n :
  knot g ty s → n ∈ s → reaches g ty i n →
  ∀ fuel, find_dependencies fuel g ty ∅ i = Fail out_of_fuel.
Proof.
  intros Hk Hs Hreach fuel.
  destruct (find_dependencies fuel g ty ∅ i) as [deps|f] eqn:Hfd.
  - exfalso.
    assert (closed g ty ∅) as Hempty by (intros ? ? ?; set_solver).
    destruct (find_dependencies_resolved _ _ _ _ _ _ Hempty Hfd)
      as (added & Hdeps & Hord & Hlink & _).
    destruct (find_dependencies_union _ _ _ _ _ _ Hempty Hfd) as [_ Hin].
    assert (n ∈ added) as Hn.
    { assert (n ∈ deps) as Hd by (apply Hin; by right).
      rewrite Hdeps in Hd. set_solver. }
    by eapply in_order_no_knot.
  - f_equal. by eapply find_dependencies_failure.
Qed.

Lemma pass_knot g ty (s : gset node_id) l sc sc' :
  knot g ty s → current_type (compiler sc) = ty →
  for_each (generate_node g) sc l = Ok sc' →
  (∀ n, n ∈ s → n ∉ done_set sc) →
  (∀ n, n ∈ s → n ∉ done_set sc') ∧
  ((∃ n, n ∈ s ∧ n ∈ l) → nodes_done sc' = false) ∧
  (nodes_done sc = false → nodes_done sc' = false) ∧
  current_type (compiler sc') = ty.
Proof.
  intros Hk. revert sc. induction l as [|a l IH]; intros sc Hty; simpl.
  - intros [= <-] Hd. split_and!; try done. intros (n & _ & Hn). by apply elem_of_nil in Hn.
  - destruct (generate_node g sc a) as [sc1|] eqn:Hnode; [|done]. simpl.
    intros Hrun Hd. apply generate_node_visited in Hnode.
    assert ((∀ n, n ∈ s → n ∉ done_set sc1) ∧
            (a ∈ s → nodes_done sc1 = false) ∧
            (nodes_done sc = false → nodes_done sc1 = false) ∧
            current_type (compiler sc1) = ty) as (Hd1 & Ha & Hmono & Hty1).
    { destruct Hnode as [Hin ->|Hnin Hready Hdone Hnd _ Hkept|Hnin _ Hdone Hnd Hc].
      - split_and!; try done. intros Has. by destruct (Hd a Has).
      - assert (a ∉ s) as Has.
        { intros Has. destruct (Hk a Has) as (p & Hp & Hdep).
          rewrite Hty in Hready. by destruct (Hd p Hp (Hready p Hdep)). }
        destruct Hkept as (Ht & _). split_and!; try done; [|congruence..].
        intros n Hn. rewrite Hdone. specialize (Hd n Hn). set_solver.
      - split_and!; try done; [|congruence]. intros n Hn. rewrite Hdone. auto. }
    destruct (IH sc1 Hty1 Hrun Hd1) as (Hd' & Hex & Hmono' & Hty').
    split_and!; try done; [|auto].
    intros (n & Hn & [->|Hl]%elem_of_cons); [auto|]. apply Hex. eauto.
Qed.

(** [generate_nodes] on nodes that hold a cycle does not return: the nodes of
    the cycle are never compiled, so no pass of the loop is the last one. *)
Theorem generate_nodes_cycle g (s : gset node_id) l n c :
  knot g (current_type c) s → n ∈ s → n ∈ l →
  ∀ fuel c', generate_nodes fuel g l c ≠ Ok c'.
Proof.
  intros Hk Hs Hl fuel c'. unfold generate_nodes.
  assert (∀ n, n ∈ s → n ∉ (∅ : gset node_id)) as Hd by set_solver.
  revert Hd. generalize (∅ : gset node_id) as seen.
  remember (current_type c) as ty eqn:Hty. symmetry in Hty.
  revert c Hty. induction fuel as [|fuel IH]; intros c Hty seen Hd; simpl; [done|].
  unfold generate_pass.
  destruct (for_each _ _ _) as [sc|] eqn:Hpass; simpl; [|done].
  destruct (pass_knot g ty s l {| done_set := seen; nodes_done := true; compiler := c |}
              sc Hk Hty Hpass Hd) as (Hd' & Hex & _ & Hty').
  rewrite Hex by eauto. by apply IH.
Qed.

End ResolverMoreProofs.

(** ** A property of the steps of the compiler, through the generator *)

Section StepProofs.
Context `{Ext : External}.
Variable T : OSLCompiler → OSLCompiler → Prop.
Hypothesis T_refl : ∀ c, T c c.
Hypothesis T_trans : ∀ c1 c2 c3, T c1 c2 → T c2 c3 → T c1 c3.
Hypothesis T_call : ∀ c call, node_call call → T c (ss_do call c).
Hypothesis T_load : ∀ c name (isfilepath : bool) loaded m,
  (if isfilepath then shader_load_filepath (manager c) name
   else Ok (Some name, manager c)) = Ok (loaded, m) →
  T c (set_manager m c).
Hypothesis T_log : ∀ c n, T c (log_node_compile n c).
Hypothesis T_add_flags : ∀ node info c c', add_flags node info c = Ok c' → T c c'.
Hypothesis T_generate_flags : ∀ node c c', generate_flags node c = Ok c' → T c c'.

Lemma step_foldl {A} (f : OSLCompiler → A → OSLCompiler) (l : list A) c :
  (∀ c a, T c (f c a)) → T c (foldl f c l).
Proof.
  intros Hf. revert c. induction l as [|a l IH]; intros c; simpl; [done|].
  eapply T_trans; [apply Hf|apply IH].
Qed.

Lemma step_for_each {A} (body : OSLCompiler → A → outcome OSLCompiler) (l : list A) c c' :
  (∀ c a c', body c a = Ok c' → T c c') →
  for_each body c l = Ok c' → T c c'.
Proof.
  intros Hf. revert c. induction l as [|a l IH]; intros c; simpl.
  - by intros [= <-].
  - destruct (body c a) as [c1|] eqn:Hb; [|done]. simpl. intros H.
    eapply T_trans; [by eapply Hf|by apply IH].
Qed.

Lemma step_add_parameters g n c : T c (add_parameters g n c).
Proof.
  unfold add_parameters. apply step_foldl. intros c0 i.
  repeat case_match; first [apply T_refl|by apply T_call].
Qed.

Lemma step_add_connections g n c : T c (add_connections g n c).
Proof.
  unfold add_connections. apply step_foldl. intros c0 i.
  repeat case_match; first [apply T_refl|by apply T_call].
Qed.

Lemma step_add g c n name isfilepath c' :
  add g c n name isfilepath = Ok c' → T c c'.
Proof.
  unfold add.
  destruct (if isfilepath then _ else _) as [[loaded m]|] eqn:Hload; [|done]. simpl.
  apply T_load in Hload.
  destruct loaded as [name'|]; [|by intros [= <-]].
  intros Hflags%T_add_flags.
  eapply T_trans; [exact Hload|]. eapply T_trans; [|exact Hflags].
  eapply T_trans; [apply step_add_parameters|].
  eapply T_trans; [|apply step_add_connections]. by apply T_call.
Qed.

Lemma step_node_compile g c n c' :
  node_compile g c n = Ok c' → T c c'.
Proof.
  unfold node_compile. intros H. eapply T_trans; [apply (T_log c n)|].
  eapply step_for_each; [|exact H]. intros c0 [param ty|name b] c1.
  - intros [= <-]. by apply T_call.
  - apply step_add.
Qed.

Lemma step_generate_node g s n s' :
  generate_node g s n = Ok s' → T (compiler s) (compiler s').
Proof.
  unfold generate_node. case_bool_decide; [by intros [= <-]|].
  destruct (inputs_done _ _ _ _); [|by intros [= <-]].
  destruct (node_compile g (compiler s) n) as [c1|] eqn:Hc; [|done]. simpl.
  destruct (generate_flags (node_at g n) c1) as [c2|] eqn:Hf; [|done]. simpl.
  intros [= <-]. simpl. eapply T_trans; [by eapply step_node_compile|by eapply T_generate_flags].
Qed.

Lemma step_pass g l s s' :
  for_each (generate_node g) s l = Ok s' → T (compiler s) (compiler s').
Proof.
  revert s. induction l as [|n l IH]; intros s; simpl; [by intros [= <-]|].
  destruct (generate_node g s n) as [s1|] eqn:Hn; [|done]. simpl. intros H.
  eapply T_trans; [by eapply step_generate_node|by apply IH].
Qed.

Lemma step_generate_loop fuel g l (seen : gset node_id) c c' :
  generate_loop fuel g l seen c = Ok c' → T c c'.
Proof.
  revert seen c. induction fuel as [|fuel IH]; intros seen c; simpl; [done|].
  unfold generate_pass.
  destruct (for_each _ _ _) as [s|] eqn:Hpass; [|done]. simpl.
  apply step_pass in Hpass. simpl in Hpass.
  destruct (nodes_done s); [by intros [= <-]|].
  intros H. eapply T_trans; [exact Hpass|by eapply IH].
Qed.

End StepProofs.

Section FlagProofs.
Context `{Ext : External}.
Implicit Types (g : ShaderGraph) (c : OSLCompiler) (s : Shader).

Lemma grows_refl ty s : grows ty s s.
Proof. by split_and!. Qed.

Lemma grows_trans ty s1 s2 s3 : grows ty s1 s2 → grows ty s2 s3 → grows ty s1 s3.
Proof.
  intros (H1 & Hs1 & Hv1 & Hr1) (H2 & Hs2 & Hv2 & Hr2). split_and!.
  - congruence.
  - intros Hty. rewrite Hs2, Hs1; done.
  - intros Hty. rewrite Hv2, Hv1; done.
  - auto.
Qed.

Lemma grown_refl c : grown c c.
Proof. split; [done|]. destruct (current_shader c); constructor. apply grows_refl. Qed.

Lemma grown_trans c1 c2 c3 : grown c1 c2 → grown c2 c3 → grown c1 c3.
Proof.
  intros (Ht1 & Hs1) (Ht2 & Hs2). split; [congruence|]. rewrite Ht1 in Hs2.
  destruct Hs1 as [s1 s2 H1|]; inversion Hs2; simplify_eq; constructor.
  by eapply grows_trans.
Qed.

Lemma grown_manager c m : grown c (set_manager m c).
Proof. split; [done|]. simpl. destruct (current_shader c); constructor. apply grows_refl. Qed.

Lemma grown_log c n : grown c (log_node_compile n c).
Proof. split; [done|]. simpl. destruct (current_shader c); constructor. apply grows_refl. Qed.

Lemma add_flags_grown (node : ShaderNode) info c c' :
  add_flags node info c = Ok c' → grown c c'.
Proof.
  unfold add_flags, grown.
  destruct (current_shader c) as [s|] eqn:Hs, (current_type c) eqn:Hty, info as [info|];
    flag_cases; rewrite ?Hs; simpl;
    intros ?; simplify_eq/=; rewrite ?Hs, ?Hty;
    (split; [done|]); constructor; by split_and!.
Qed.

Lemma generate_flags_grown (node : ShaderNode) c c' :
  generate_flags node c = Ok c' → grown c c'.
Proof.
  unfold generate_flags, grown.
  destruct (current_shader c) as [s|] eqn:Hs, (current_type c) eqn:Hty;
    flag_cases; rewrite ?Hs; simpl;
    intros ?; simplify_eq/=; rewrite ?Hs, ?Hty;
    (split; [done|]); constructor; by split_and!.
Qed.

Lemma grown_load c name (isfilepath : bool) loaded m :
  (if isfilepath then shader_load_filepath (manager c) name
   else Ok (Some name, manager c)) = Ok (loaded, m) →
  grown c (set_manager m c).
Proof. intros _. apply grown_manager. Qed.

Lemma compile_type_grows fuel c name g ty c' group s :
  current_shader c = Some s →
  compile_type fuel c name g ty = Ok (c', group) →
  ∃ s', current_shader c' = Some s' ∧ grows ty s s'.
Proof.
  intros Hs. unfold compile_type. simpl.
  destruct (input _ _) as [i|]; [|done].
  destruct (find_dependencies _ _ _ _ _) as [deps|]; [|done]. simpl.
  destruct (generate_nodes _ _ _ _) as [c1|] eqn:Hgen; [|done]. simpl.
  destruct (node_compile g c1 (output g)) as [c2|] eqn:Hout; [|done]. simpl.
  intros [= <- <-].
  apply (step_generate_loop grown grown_refl grown_trans (λ c call _, grown_manager c _)
           grown_load grown_log add_flags_grown generate_flags_grown) in Hgen.
  apply (step_node_compile grown grown_refl grown_trans (λ c call _, grown_manager c _)
           grown_load grown_log add_flags_grown) in Hout.
  pose proof (grown_trans _ _ _ Hgen Hout) as [_ H].
  simpl in H. rewrite Hs in H. inversion H; simplify_eq. eauto.
Qed.

Lemma grows_members ty s s' :
  grows ty s s' →
  has_surface s' = has_surface s ∧ has_volume s' = has_volume s ∧
  has_displacement s' = has_displacement s ∧
  (ty ≠ SHADER_TYPE_SURFACE → surface_flags s' = surface_flags s) ∧
  (ty ≠ SHADER_TYPE_VOLUME → volume_flags s' = volume_flags s) ∧
  (has_surface_raytrace s = true → has_surface_raytrace s' = true).
Proof.
  intros (Hset & Hs & Hv & Hr). unfold settled in Hset.
  injection Hset as _ _ _ _ _ ? ? ? _ _ _ _. done.
Qed.

Lemma compile_surface_flags fuel shader g out bump c c' s (wanted : bool) :
  current_shader c = Some s →
  context_wanted shader (node_at g out) "Surface" = Ok wanted →
  compile_surface fuel shader g out bump c = Ok c' →
  ∃ s', current_shader c' = Some s' ∧
    has_surface s' = wanted || has_surface s ∧
    has_volume s' = has_volume s ∧ has_displacement s' = has_displacement s ∧
    volume_flags s' = volume_flags s ∧
    (wanted = false →
     surface_flags s' = surface_flags s ∧
     has_integrator_dependency s' = has_integrator_dependency s) ∧
    (has_surface_raytrace s = true → has_surface_raytrace s' = true).
Proof.
  intros Hs Hw. unfold compile_surface. rewrite Hw. simpl. destruct wanted.
  - destruct (compile_type _ _ _ _ _) as [[c1 group]|] eqn:Hct1; [|done]. simpl.
    destruct (compile_type_grows _ _ _ _ _ _ _ _ Hs Hct1) as (s1 & Hs1 & Hg1%grows_members).
    rewrite (on_shader_Some _ _ _ Hs1). simpl.
    destruct Hg1 as (Ha1 & Hb1 & Hc1 & _ & Hv1 & Hr1).
    specialize (Hv1 ltac:(done)). destruct bump.
    + destruct (compile_type _ _ _ _ SHADER_TYPE_BUMP) as [[c2 group2]|] eqn:Hct2;
        [|done]. simpl.
      match type of Hct2 with
      | compile_type _ ?c0 _ _ _ = _ =>
          assert (∃ s0, current_shader c0 = Some s0 ∧ s0 = set_osl_surface_ref group s1)
            as (s0 & Hs0 & Heq) by (by eexists)
      end.
      destruct (compile_type_grows _ _ _ _ _ _ _ _ Hs0 Hct2)
        as (s2 & Hs2 & Hg2%grows_members). subst s0.
      destruct Hg2 as (Ha2 & Hb2 & Hc2 & _ & Hv2 & Hr2).
      specialize (Hv2 ltac:(done)).
      rewrite (on_shader_Some _ _ _ Hs2). simpl. intros [= <-].
      eexists. split; [done|].
      unfold volume_flags, surface_flags in *. simpl in *.
      split_and!; try done; try congruence. auto.
    + intros [= <-]. simpl. eexists. split; [done|].
      unfold volume_flags, surface_flags in *. simpl in *.
      split_and!; try done; try congruence.
  - rewrite (on_shader_Some _ _ _ Hs). simpl. intros [= <-]. simpl.
    eexists. split; [done|]. simpl. by split_and!.
Qed.

Lemma compile_volume_flags fuel shader g out c c' s (wanted : bool) :
  current_shader c = Some s →
  context_wanted shader (node_at g out) "Volume" = Ok wanted →
  compile_volume fuel shader g out c = Ok c' →
  ∃ s', current_shader c' = Some s' ∧
    has_volume s' = wanted || has_volume s ∧
    has_surface s' = has_surface s ∧ has_displacement s' = has_displacement s ∧
    surface_flags s' = surface_flags s ∧
    (wanted = false →
     volume_flags s' = volume_flags s ∧
     has_integrator_dependency s' = has_integrator_dependency s).
Proof.
  intros Hs Hw. unfold compile_volume. rewrite Hw. simpl. destruct wanted.
  - destruct (compile_type _ _ _ _ _) as [[c1 group]|] eqn:Hct1; [|done]. simpl.
    destruct (compile_type_grows _ _ _ _ _ _ _ _ Hs Hct1) as (s1 & Hs1 & Hg1%grows_members).
    rewrite (on_shader_Some _ _ _ Hs1). simpl.
    destruct Hg1 as (Ha1 & Hb1 & Hc1 & Hf1 & _ & _). specialize (Hf1 ltac:(done)).
    intros [= <-]. eexists. split; [done|].
    unfold volume_flags, surface_flags in *. simpl in *.
    split_and!; try done; try congruence.
  - rewrite (on_shader_Some _ _ _ Hs). simpl. intros [= <-]. simpl.
    eexists. split; [done|]. simpl. by split_and!.
Qed.

Lemma compile_displacement_flags fuel shader g out c c' s (wanted : bool) :
  current_shader c = Some s →
  context_wanted shader (node_at g out) "Displacement" = Ok wanted →
  compile_displacement fuel shader g out c = Ok c' →
  ∃ s', current_shader c' = Some s' ∧
    has_displacement s' = wanted || has_displacement s ∧
    has_surface s' = has_surface s ∧ has_volume s' = has_volume s ∧
    surface_flags s' = surface_flags s ∧ volume_flags s' = volume_flags s ∧
    (wanted = false →
     has_integrator_dependency s' = has_integrator_dependency s).
Proof.
  intros Hs Hw. unfold compile_displacement. rewrite Hw. simpl. destruct wanted.
  - destruct (compile_type _ _ _ _ _) as [[c1 group]|] eqn:Hct1; [|done]. simpl.
    destruct (compile_type_grows _ _ _ _ _ _ _ _ Hs Hct1) as (s1 & Hs1 & Hg1%grows_members).
    rewrite (on_shader_Some _ _ _ Hs1). simpl.
    destruct Hg1 as (Ha1 & Hb1 & Hc1 & Hf1 & Hv1 & _).
    specialize (Hf1 ltac:(done)). specialize (Hv1 ltac:(done)).
    intros [= <-]. eexists. split; [done|].
    unfold volume_flags, surface_flags in *. simpl in *.
    split_and!; try done; try congruence.
  - rewrite (on_shader_Some _ _ _ Hs). simpl. intros [= <-]. simpl.
    eexists. split; [done|]. simpl. by split_and!.
Qed.

(** The flags of a shader after [compile] compiled it: a flag of the surface
    is set only when the surface was compiled, a flag of the volume only when
    the volume was, and the dependency on the integrator only when one of the
    three contexts was. [has_bump] is set only when the surface was compiled
    or bump mapping was asked for. [has_surface_raytrace] is the one flag
    that [compile] does not reset: once set it stays. *)
Theorem compile_flags fuel c shader c' shader' :
  is_modified shader = true →
  compile fuel c shader = Ok (c', shader') →
  (has_surface_emission shader' = true → has_surface shader' = true) ∧
  (has_surface_transparent shader' = true → has_surface shader' = true) ∧
  (has_surface_bssrdf shader' = true → has_surface shader' = true) ∧
  (has_surface_spatial_varying shader' = true → has_surface shader' = true) ∧
  (has_volume_spatial_varying shader' = true → has_volume shader' = true) ∧
  (has_volume_attribute_dependency shader' = true → has_volume shader' = true) ∧
  (has_integrator_dependency shader' = true →
   has_surface shader' = true ∨ has_volume shader' = true ∨
   has_displacement shader' = true) ∧
  (has_bump shader' = true →
   has_surface shader' = true ∨
   ∃ g, graph shader = Some g ∧ bump_wanted shader g = Ok true) ∧
  (has_surface_raytrace shader = true → has_surface_raytrace shader' = true) ∧
  (has_surface_raytrace shader' = true →
   has_surface_raytrace shader = true ∨ has_surface shader' = true).
Proof.
  intros Hmod. unfold compile. rewrite Hmod.
  destruct (graph shader) as [g|] eqn:Hgraph; [|done].
  destruct (bump_wanted shader g) as [bump|] eqn:Hbump; [|done]. simpl.
  set (g' := finalized shader g bump).
  set (shader0 := set_graph (Some g') shader).
  set (c0 := set_current_shader (Some (reset_flags bump shader0))
               (set_current_shader (Some shader0) c)).
  assert (current_shader c0 = Some (reset_flags bump shader0)) as Hs0 by done.
  destruct (compile_surface _ _ _ _ _ c0) as [c1|] eqn:Hrun1; [|done]. simpl.
  destruct (compile_volume _ _ _ _ c1) as [c2|] eqn:Hrun2; [|done]. simpl.
  destruct (compile_displacement _ _ _ _ c2) as [c3|] eqn:Hrun3; [|done]. simpl.
  assert (∃ ws, context_wanted shader0 (node_at g' (output g)) "Surface" = Ok ws)
    as [ws Hws].
  { unfold compile_surface in Hrun1. destruct (context_wanted _ _ _); [eauto|done]. }
  assert (∃ wv, context_wanted shader0 (node_at g' (output g)) "Volume" = Ok wv)
    as [wv Hwv].
  { unfold compile_volume in Hrun2. destruct (context_wanted _ _ _); [eauto|done]. }
  assert (∃ wd, context_wanted shader0 (node_at g' (output g)) "Displacement" = Ok wd)
    as [wd Hwd].
  { unfold compile_displacement in Hrun3. destruct (context_wanted _ _ _); [eauto|done]. }
  destruct (compile_surface_flags _ _ _ _ _ _ _ _ _ Hs0 Hws Hrun1)
    as (s1 & Hs1 & Hsur1 & Hvol1 & Hdis1 & Hvf1 & Hno1 & Hray1).
  destruct (compile_volume_flags _ _ _ _ _ _ _ _ Hs1 Hwv Hrun2)
    as (s2 & Hs2 & Hvol2 & Hsur2 & Hdis2 & Hsf2 & Hno2).
  destruct (compile_displacement_flags _ _ _ _ _ _ _ _ Hs2 Hwd Hrun3)
    as (s3 & Hs3 & Hdis3 & Hsur3 & Hvol3 & Hsf3 & Hvf3 & Hno3).
  rewrite Hs3. intros [= <- <-]. clear Hrun1 Hrun2 Hrun3.
  assert (has_surface s3 = ws) as Hsurface.
  { rewrite Hsur3, Hsur2, Hsur1. simpl. by rewrite orb_false_r. }
  assert (has_volume s3 = wv) as Hvolume.
  { rewrite Hvol3, Hvol2, Hvol1. simpl. by rewrite orb_false_r. }
  assert (has_displacement s3 = wd) as Hdisplacement.
  { rewrite Hdis3, Hdis2, Hdis1. simpl. by rewrite orb_false_r. }
  assert (surface_flags s3 = surface_flags s1) as Hsf by congruence.
  assert (volume_flags s3 = volume_flags s2) as Hvf by congruence.
  unfold surface_flags in Hsf. injection Hsf as He Ht Hb Hsv Hr Hbu Hbb.
  unfold volume_flags in Hvf. injection Hvf as Hvs Hva.
  rewrite Hsurface, Hvolume, Hdisplacement, He, Ht, Hb, Hsv, Hr, Hbu, Hvs, Hva.
  assert (ws = false → surface_flags s1 = surface_flags (reset_flags bump shader0)) as Hs1f
    by (intros H; by apply Hno1).
  assert (wv = false → volume_flags s2 = volume_flags (reset_flags bump shader0)) as Hs2f.
  { intros H. destruct (Hno2 H) as [-> _]. done. }
  unfold surface_flags, volume_flags in Hs1f, Hs2f. simpl in Hs1f, Hs2f, Hray1.
  split_and!.
  - destruct ws; [done|]. injection (Hs1f eq_refl) as -> _ _ _ _ _ _. done.
  - destruct ws; [done|]. injection (Hs1f eq_refl) as _ -> _ _ _ _ _. done.
  - destruct ws; [done|]. injection (Hs1f eq_refl) as _ _ -> _ _ _ _. done.
  - destruct ws; [done|]. injection (Hs1f eq_refl) as _ _ _ -> _ _ _. done.
  - destruct wv; [done|]. injection (Hs2f eq_refl) as -> _. done.
  - destruct wv; [done|]. injection (Hs2f eq_refl) as _ ->. done.
  - destruct ws; [auto|]. destruct wv; [auto|]. destruct wd; [auto|].
    rewrite (Hno3 eq_refl). destruct (Hno2 eq_refl) as [_ ->].
    destruct (Hno1 eq_refl) as [_ ->]. done.
  - destruct ws; [auto|]. injection (Hs1f eq_refl) as _ _ _ _ _ -> _.
    intros ->. right. eauto.
  - done.
  - destruct ws; [auto|]. injection (Hs1f eq_refl) as _ _ _ _ -> _ _. auto.
Qed.

End FlagProofs.

Section ProgramShapeProofs.
Context `{Ext : External}.
Implicit Types (g : ShaderGraph) (c : OSLCompiler) (seen : gset node_id).

Lemma connected_after_mono seen seen' calls :
  seen ⊆ seen' → connected_after seen calls → connected_after seen' calls.
Proof.
  revert seen seen'. induction calls as [|call calls IH]; intros seen seen' Hsub; simpl.
  - done.
  - destruct call; try by apply IH.
    + apply IH. set_solver.
    + intros (? & ? & ?). split_and!; [set_solver..|by eapply IH].
Qed.

Lemma connected_after_app seen a b :
  connected_after seen (a ++ b) ↔
  connected_after seen a ∧ connected_after (list_to_set (layers a) ∪ seen) b.
Proof.
  revert seen. induction a as [|call a IH]; intros seen.
  - simpl. rewrite (left_id_L ∅ (∪)). tauto.
  - destruct call; simpl; rewrite ?IH; try tauto.
    assert (list_to_set (layers a) ∪ ({[layer]} ∪ seen)
            = {[layer]} ∪ list_to_set (layers a) ∪ seen) as -> by set_solver.
    tauto.
Qed.

Lemma connected_after_parameters seen calls :
  Forall is_parameter calls → connected_after seen calls ∧ layers calls = [].
Proof.
  induction 1 as [|call calls Hcall _ [IH1 IH2]]; [done|].
  destruct call; try done.
Qed.

Lemma connected_after_connects g ty n seen calls :
  Forall (connects g ty n) calls → n ∈ seen →
  (∀ p, depends_on g ty n p → p ∈ seen) →
  connected_after seen calls ∧ layers calls = [].
Proof.
  intros Hall Hn Hdep. induction Hall as [|call calls Hcall _ [IH1 IH2]]; [done|].
  destruct call; try done. destruct Hcall as [-> Hd]. simpl. split_and!; auto.
Qed.

Lemma inside_group_app a b : inside_group (a ++ b) ↔ inside_group a ∧ inside_group b.
Proof.
  unfold inside_group. split.
  - intros H. split; intros call Hc; apply H, elem_of_app; auto.
  - intros [Ha Hb] call [?|?]%elem_of_app; [by apply Ha|by apply Hb].
Qed.

Lemma inside_group_Forall (Q : SSCall → Prop) calls :
  (∀ call, Q call → match call with
                    | SS_ShaderGroupBegin _ | SS_ShaderGroupEnd => False
                    | _ => True
                    end) →
  Forall Q calls → inside_group calls.
Proof. intros HQ Hall call Hc. rewrite Forall_forall in Hall. by apply HQ, Hall. Qed.

Lemma add_parameters_calls g n c :
  ∃ extra, ss_calls (manager (add_parameters g n c)) = ss_calls (manager c) ++ extra ∧
           Forall is_parameter extra.
Proof.
  unfold add_parameters. generalize (inputs (node_at g n)) as ins. intros ins.
  revert c. induction ins as [|i ins IH]; intros c; simpl.
  - exists []. by rewrite app_nil_r.
  - match goal with |- context [foldl ?f ?c0 ins] => destruct (IH c0) as (extra & -> & Hall) end.
    destruct (link i); [by eauto|].
    destruct (node_skip_input _ _ _ _); [by eauto|].
    destruct (add_passes_value _); [|by eauto].
    simpl. eexists (_ :: extra). rewrite <- app_assoc. split; [done|].
    by constructor.
Qed.

Lemma add_connections_calls g n c :
  ∃ extra, ss_calls (manager (add_connections g n c)) = ss_calls (manager c) ++ extra ∧
           Forall (connects g (current_type c) n) extra.
Proof.
  unfold add_connections.
  assert (∀ ins c0, current_type c0 = current_type c →
            (∀ i, i ∈ ins → i ∈ inputs (node_at g n)) →
            ∃ extra,
              ss_calls (manager (foldl (λ c i,
                  match link i with
                  | Some l =>
                      if node_skip_input g (current_type c) (node_at g n) i then c
                      else ss_do (SS_ConnectShaders (parent l)
                                    (compatible_name_output (node_at g (parent l))
                                       (output_name l))
                                    n (compatible_name_input (node_at g n) i)) c
                  | None => c
                  end) c0 ins))
              = ss_calls (manager c0) ++ extra ∧
              Forall (connects g (current_type c) n) extra) as H.
  { induction ins as [|i ins IH]; intros c0 Hty Hsub; simpl.
    - exists []. by rewrite app_nil_r.
    - match goal with
      | |- context [foldl ?f ?c1 ins] =>
          destruct (IH c1) as (extra & -> & Hall); [|set_solver|]
      end.
      { by repeat case_match. }
      destruct (link i) as [l|] eqn:Hl; [|by eauto].
      destruct (node_skip_input _ _ _ _) eqn:Hskip; [by eauto|].
      simpl. eexists (_ :: extra). rewrite <- app_assoc. split; [done|].
      constructor; [|done]. simpl. split; [done|].
      apply depends_on_inv. exists i, l. rewrite <- Hty. split_and!; [set_solver|done..]. }
  by apply H.
Qed.

Lemma add_by_name g c n name c' :
  add g c n name false = Ok c' →
  ∃ params conns,
    ss_calls (manager c')
    = ss_calls (manager c) ++ params ++
      SS_Shader (shader_usage (current_type c)) name n :: conns ∧
    Forall is_parameter params ∧ Forall (connects g (current_type c) n) conns.
Proof.
  unfold add. simpl. intros Hflags%add_flags_manager. rewrite Hflags.
  destruct (add_connections_calls g n
              (ss_do (SS_Shader (shader_usage (current_type
                        (add_parameters g n (set_manager (manager c) c)))) name n)
                 (add_parameters g n (set_manager (manager c) c))))
    as (conns & -> & Hconns).
  destruct (add_parameters_calls g n (set_manager (manager c) c)) as (params & Hp & Hparams).
  simpl in *. rewrite Hp.
  assert (current_type (add_parameters g n (set_manager (manager c) c)) = current_type c)
    as Hty by (by destruct (add_parameters_kept g n (set_manager (manager c) c)) as [-> _]).
  rewrite Hty in *. exists params, conns. by rewrite <- !app_assoc.
Qed.

Lemma compile_calls_layers g n calls c c' :
  forallb (λ call, match call with Call_add _ true => false | _ => true end) calls = true →
  for_each (λ c call,
      match call with
      | Call_parameter param ty => Ok (ss_do (SS_Parameter param ty) c)
      | Call_add name isfilepath => add g c n name isfilepath
      end) c calls = Ok c' →
  ∃ extra,
    ss_calls (manager c') = ss_calls (manager c) ++ extra ∧
    layers extra
    = replicate (length (List.filter (λ call, match call with
                                               | Call_add _ _ => true
                                               | _ => false
                                               end) calls)) n ∧
    inside_group extra ∧
    ∀ seen, (∀ p, depends_on g (current_type c) n p → p ∈ seen) →
            connected_after seen extra.
Proof.
  revert c. induction calls as [|call calls IH]; intros c Hname; simpl.
  - intros [= <-]. exists []. rewrite app_nil_r. split_and!; try done.
    intros call Hc. by apply elem_of_nil in Hc.
  - simpl in Hname. apply andb_true_iff in Hname as [Hcall Hname].
    destruct call as [param ty|name [|]]; [|done|]; simpl.
    + intros (extra & Hcalls & Hlayers & Hin & Hconn)%IH; [|done]. simpl in *.
      exists (SS_Parameter param ty :: extra). rewrite Hcalls, <- app_assoc.
      split_and!; try done.
      intros call [->|Hc]%elem_of_cons; [done|by apply Hin].
    + destruct (add g c n name false) as [c1|] eqn:Hadd; [|done]. simpl.
      pose proof (add_kept _ _ _ _ _ _ Hadd) as (Hty & _).
      apply add_by_name in Hadd as (params & conns & Hc1 & Hparams & Hconns).
      intros (extra & Hcalls & Hlayers & Hin & Hconn)%IH; [|done].
      exists ((params ++ SS_Shader (shader_usage (current_type c)) name n :: conns)
              ++ extra).
      rewrite Hcalls, Hc1, <- !app_assoc. split; [done|].
      destruct (connected_after_parameters ∅ params Hparams) as [_ Hlp].
      assert (layers conns = []) as Hlc.
      { clear -Hconns. induction Hconns as [|call conns Hcall _ IHc]; [done|].
        by destruct call. }
      split_and!.
      * rewrite !layers_app, Hlp. simpl.
        change (layers (SS_Shader (shader_usage (current_type c)) name n :: conns))
          with (n :: layers conns).
        by rewrite Hlc, Hlayers.
      * rewrite app_assoc. apply inside_group_app. split; [|done].
        apply inside_group_app. split.
        -- eapply inside_group_Forall; [|exact Hparams]. by intros [].
        -- intros call [->|Hc]%elem_of_cons; [done|].
           rewrite Forall_forall in Hconns. specialize (Hconns call Hc).
           by destruct call.
      * intros seen Hseen. rewrite app_assoc. apply connected_after_app. split.
        -- apply connected_after_app. split.
           ++ by apply connected_after_parameters.
           ++ rewrite Hlp. simpl.
              eapply connected_after_connects; [exact Hconns|set_solver|].
              intros p Hp. specialize (Hseen p Hp). set_solver.
        -- apply Hconn. intros p Hp. rewrite Hty in Hp. specialize (Hseen p Hp).
           set_solver.
Qed.

Lemma node_compile_layer g c n c' :
  node_compile g c n = Ok c' →
  adds_one_layer g (current_type c) n = true →
  ∃ extra,
    ss_calls (manager c') = ss_calls (manager c) ++ extra ∧
    layers extra = [n] ∧ inside_group extra ∧
    ∀ seen, (∀ p, depends_on g (current_type c) n p → p ∈ seen) →
            connected_after seen extra.
Proof.
  unfold node_compile, adds_one_layer. intros Hrun [Hone Hname]%andb_true_iff.
  apply Nat.eqb_eq in Hone.
  apply compile_calls_layers in Hrun as (extra & Hcalls & Hlayers & Hin & Hconn);
    [|done].
  simpl in *. rewrite Hone in Hlayers. eauto.
Qed.

Lemma generate_node_program g s n s' :
  generate_node g s n = Ok s' →
  adds_one_layer g (current_type (compiler s)) n = true →
  ∃ extra,
    ss_calls (manager (compiler s')) = ss_calls (manager (compiler s)) ++ extra ∧
    node_compiles (compiler s') = node_compiles (compiler s) ++ layers extra ∧
    done_set s' = list_to_set (layers extra) ∪ done_set s ∧
    inside_group extra ∧
    (∀ seen, done_set s ⊆ seen → connected_after seen extra) ∧
    current_type (compiler s') = current_type (compiler s).
Proof.
  unfold generate_node. intros Hrun Hadds. revert Hrun.
  assert (∀ s0 : Scan, ∃ extra,
            ss_calls (manager (compiler s0)) = ss_calls (manager (compiler s0)) ++ extra ∧
            node_compiles (compiler s0) = node_compiles (compiler s0) ++ layers extra ∧
            done_set s0 = list_to_set (layers extra) ∪ done_set s0 ∧
            inside_group extra ∧
            (∀ seen, done_set s0 ⊆ seen → connected_after seen extra)) as Hnothing.
  { intros s0. exists []. rewrite !app_nil_r. simpl. split_and!; try done; [set_solver|].
    intros call Hc. by apply elem_of_nil in Hc. }
  case_bool_decide as Hdone.
  { intros [= <-]. destruct (Hnothing s) as (extra & ? & ? & ? & ? & ?). by exists extra. }
  destruct (inputs_done _ _ _ _) eqn:Hin.
  - destruct (node_compile g (compiler s) n) as [c1|] eqn:Hc; [|done]. simpl.
    destruct (generate_flags (node_at g n) c1) as [c2|] eqn:Hf; [|done]. simpl.
    intros [= <-]. simpl.
    pose proof (node_compile_kept _ _ _ _ Hc) as [(Hty1 & _) Hlog1].
    pose proof (generate_flags_kept _ _ _ Hf) as (Hty2 & Hlog2 & _).
    apply generate_flags_manager in Hf. rewrite Hf, Hlog2, Hlog1, Hty2, Hty1.
    apply node_compile_layer in Hc as (extra & Hcalls & Hlayers & Hins & Hconn); [|done].
    exists extra. rewrite Hlayers. simpl. split_and!; try done; [set_solver|].
    intros seen Hseen. apply Hconn. intros p Hp.
    apply Hseen. rewrite inputs_done_spec in Hin. by apply Hin.
  - intros [= <-]. simpl. destruct (Hnothing s) as (extra & ? & ? & ? & ? & ?).
    by exists extra.
Qed.

Lemma pass_program g l s s' :
  for_each (generate_node g) s l = Ok s' →
  (∀ n, n ∈ l → adds_one_layer g (current_type (compiler s)) n = true) →
  ∃ extra,
    ss_calls (manager (compiler s')) = ss_calls (manager (compiler s)) ++ extra ∧
    node_compiles (compiler s') = node_compiles (compiler s) ++ layers extra ∧
    done_set s' = list_to_set (layers extra) ∪ done_set s ∧
    inside_group extra ∧
    (∀ seen, done_set s ⊆ seen → connected_after seen extra) ∧
    current_type (compiler s') = current_type (compiler s).
Proof.
  revert s. induction l as [|n l IH]; intros s; simpl.
  - intros [= <-] _. exists []. rewrite !app_nil_r. simpl.
    split_and!; try done; [set_solver|]. intros call Hc. by apply elem_of_nil in Hc.
  - destruct (generate_node g s n) as [s1|] eqn:Hn; [|done]. simpl. intros Hrun Hadds.
    apply generate_node_program in Hn
      as (e1 & Hc1 & Hl1 & Hd1 & Hi1 & Hw1 & Ht1); [|apply Hadds; left].
    apply IH in Hrun as (e2 & Hc2 & Hl2 & Hd2 & Hi2 & Hw2 & Ht2).
    2:{ intros n' Hn'. rewrite Ht1. apply Hadds. by right. }
    exists (e1 ++ e2). rewrite Hc2, Hc1, Hl2, Hl1, Hd2, Hd1, Ht2, Ht1, layers_app,
      list_to_set_app_L, <- !app_assoc.
    split_and!; try done; [set_solver|by apply inside_group_app|].
    intros seen Hseen. apply connected_after_app. split; [by apply Hw1|].
    apply Hw2. rewrite Hd1. set_solver.
Qed.

Lemma generate_loop_program fuel g l (seen0 : gset node_id) c c' :
  generate_loop fuel g l seen0 c = Ok c' →
  (∀ n, n ∈ l → adds_one_layer g (current_type c) n = true) →
  ∃ extra,
    ss_calls (manager c') = ss_calls (manager c) ++ extra ∧
    node_compiles c' = node_compiles c ++ layers extra ∧
    inside_group extra ∧
    (∀ seen, seen0 ⊆ seen → connected_after seen extra) ∧
    current_type c' = current_type c.
Proof.
  revert seen0 c. induction fuel as [|fuel IH]; intros seen0 c; simpl; [done|].
  unfold generate_pass.
  destruct (for_each _ _ _) as [s|] eqn:Hpass; [|done]. simpl. intros Hrun Hadds.
  apply pass_program in Hpass as (e1 & Hc1 & Hl1 & Hd1 & Hi1 & Hw1 & Ht1); [|done].
  simpl in *. destruct (nodes_done s).
  - injection Hrun as <-. exists e1. by split_and!.
  - apply IH in Hrun as (e2 & Hc2 & Hl2 & Hi2 & Hw2 & Ht2).
    2:{ intros n Hn. rewrite Ht1. by apply Hadds. }
    exists (e1 ++ e2). rewrite Hc2, Hc1, Hl2, Hl1, Ht2, Ht1, layers_app, <- !app_assoc.
    split_and!; try done; [by apply inside_group_app|].
    intros seen Hseen. apply connected_after_app. split; [by apply Hw1|].
    apply Hw2. rewrite Hd1. set_solver.
Qed.

(** The group that [compile_type] makes, for a graph of nodes that add one
    layer each: the calls of the shading system are [ShaderGroupBegin], a
    body and [ShaderGroupEnd]; the body begins and ends no group; its layers
    are the nodes in the order in which they were compiled, the Output node
    last; and every connection comes after the layers of both of its
    ends. *)
Theorem compile_type_program fuel c name g ty c' group :
  compile_type fuel c name g ty = Ok (c', group) →
  program_ready g ty = true →
  ∃ body order,
    ss_calls (manager c')
    = ss_calls (manager c) ++ SS_ShaderGroupBegin name :: body ++ [SS_ShaderGroupEnd] ∧
    node_compiles c' = node_compiles c ++ order ++ [output g] ∧
    layers body = order ++ [output g] ∧
    inside_group body ∧
    connected_after ∅ body.
Proof.
  unfold compile_type, program_ready. simpl.
  intros Hrun (((Hwl & Hout%Nat.ltb_lt)%andb_true_iff
                & Hadds)%andb_true_iff & Hready)%andb_true_iff.
  rewrite forallb_forall in Hadds. unfold output_ready in Hready. revert Hrun.
  destruct (input _ _) as [i|] eqn:Hi; [|done].
  destruct (find_dependencies _ _ _ _ _) as [deps|] eqn:Hfd; [|done]. simpl.
  destruct (generate_nodes _ _ _ _) as [c1|] eqn:Hgen; [|done]. simpl.
  destruct (node_compile g c1 (output g)) as [c2|] eqn:Hcout; [|done]. simpl.
  intros [= <- <-]. simpl.
  assert (closed g ty ∅) as Hempty by (intros ? ? ?; set_solver).
  destruct (find_dependencies_resolved _ _ _ _ _ _ Hempty Hfd)
    as (added & Hdeps & _ & Hlink & _).
  destruct (find_dependencies_reaches _ _ _ _ _ Hfd) as [_ Hreach].
  assert (∀ n, n ∈ deps → (n < length (nodes g))%nat) as Hrange.
  { intros n Hn. eapply well_linked_reaches; [done| |by apply Hreach].
    intros o Ho. eapply (well_linked_link g (output g) i o); [done| |done].
    by apply input_elem_of in Hi. }
  assert (∀ n, (n < length (nodes g))%nat → adds_one_layer g ty n = true) as Hadd.
  { intros n Hn. apply Hadds, in_seq. lia. }
  unfold generate_nodes in Hgen.
  pose proof (generate_loop_compiled _ _ _ _ _ _ Hgen) as (order & Hlog & _ & _ & Hall & _).
  apply generate_loop_program in Hgen as (e1 & Hc1 & Hl1 & Hi1 & Hw1 & Ht1).
  2:{ intros n Hn%iteration_elem_of. simpl. auto. }
  simpl in *. assert (order = layers e1) as -> by (rewrite Hl1 in Hlog; by simplify_list_eq).
  pose proof (node_compile_kept _ _ _ _ Hcout) as [_ Hlog2].
  apply node_compile_layer in Hcout as (e2 & Hc2 & Hl2 & Hi2 & Hw2);
    [|rewrite Ht1; auto].
  exists (e1 ++ e2), (layers e1).
  rewrite Hc2, Hc1, Hlog2, Hl1, layers_app, Hl2, <- !app_assoc. simpl.
  split_and!; try done; [by apply inside_group_app|].
  apply connected_after_app. split; [by apply Hw1|].
  apply Hw2. intros p Hp. rewrite Ht1 in Hp.
  assert (parent <$> link i = Some p) as (o & Ho & ->)%fmap_Some.
  { rewrite forallb_forall in Hready. eapply bool_decide_eq_true, Hready.
    by apply list_elem_of_In. }
  destruct (Hall (parent o)) as [?|Hp']; [|set_solver|].
  { apply iteration_elem_of. by apply Hlink. }
  set_solver.
Qed.

End ProgramShapeProofs.

Section NameProofs.
Context `{Ext : External}.

Lemma find_blank_cons a s :
  find_blank (String a s)
  = if Ascii.eqb a " "%char then Some 0%nat else S <$> find_blank s.
Proof.
  unfold find_blank.
  change (String.index 0 " " (String a s))
    with (if String.prefix " " (String a s) then Some 0%nat
          else match String.index 0 " " s with
               | Some n => Some (S n)
               | None => None
               end).
  assert (String.prefix " " (String a s) = Ascii.eqb a " "%char) as ->.
  { cbn [String.prefix]. destruct (ascii_dec " " a) as [<-|Hne].
    - by destruct s.
    - by destruct (Ascii.eqb_spec a " "%char) as [->|_]. }
  destruct (Ascii.eqb a " "); [done|]. by destruct (String.index 0 " " s).
Qed.

Lemma substring_all s : substring 0 (String.length s) s = s.
Proof. induction s as [|a s IH]; simpl; [done|]. by rewrite IH. Qed.

Lemma erase_at_0 a s : erase_at 0 (String a s) = s.
Proof.
  unfold erase_at. simpl. rewrite Nat.sub_0_r. apply substring_all.
Qed.

Lemma erase_at_S i a s : erase_at (S i) (String a s) = String a (erase_at i s).
Proof. done. Qed.

Lemma find_blank_None s : find_blank s = None → strip_whitespace s = s.
Proof.
  induction s as [|a s IH]; [done|]. rewrite find_blank_cons. simpl.
  destruct (Ascii.eqb a " "); [done|].
  destruct (find_blank s); [done|]. intros _. by rewrite IH.
Qed.

Lemma find_blank_Some s i :
  find_blank s = Some i →
  strip_whitespace (erase_at i s) = strip_whitespace s ∧
  String.length (erase_at i s) = pred (String.length s) ∧
  (0 < String.length s)%nat.
Proof.
  revert i. induction s as [|a s IH]; intros i; [done|].
  rewrite find_blank_cons. destruct (Ascii.eqb a " ") eqn:Ha.
  - intros [= <-]. rewrite erase_at_0. simpl. rewrite Ha. split_and!; [done..|lia].
  - destruct (find_blank s) as [j|]; [|done]. intros [= <-].
    rewrite erase_at_S. simpl. rewrite Ha.
    destruct (IH j eq_refl) as (-> & -> & ?). split_and!; [done|lia..].
Qed.

Lemma strip_loop_spec fuel s :
  (String.length s ≤ fuel)%nat → strip_loop fuel s = Ok (strip_whitespace s).
Proof.
  revert s. induction fuel as [|fuel IH]; intros s Hlen; simpl.
  - destruct (find_blank s) as [i|] eqn:Hf.
    + apply find_blank_Some in Hf as (_ & _ & ?). lia.
    + by rewrite find_blank_None.
  - destruct (find_blank s) as [i|] eqn:Hf.
    + apply find_blank_Some in Hf as (Hs & Hl & ?). rewrite IH by lia. by rewrite Hs.
    + by rewrite find_blank_None.
Qed.

Lemma find_blank_strip s : find_blank (strip_whitespace s) = None.
Proof.
  induction s as [|a s IH]; [done|]. simpl.
  destruct (Ascii.eqb a " ") eqn:Ha; [done|].
  by rewrite find_blank_cons, Ha, IH.
Qed.

Lemma find_blank_app s t :
  find_blank s = None → find_blank t = None → find_blank (s +:+ t) = None.
Proof.
  intros Hs Ht. induction s as [|a s IH]; [done|].
  change (String a s +:+ t) with (String a (s +:+ t)).
  rewrite find_blank_cons in Hs |- *. destruct (Ascii.eqb a " "); [done|].
  destruct (find_blank s); [done|]. by rewrite IH.
Qed.

(** The loop that strips the blanks of a socket name ends after as many
    rounds as the name has characters, at the latest, with the name without
    its blanks. The names that [compatible_name] gives have no blank, and an
    input and an output of one node that have the same name get different
    names. *)
Theorem compatible_name_strips (node : ShaderNode) (i : ShaderInput) (o : string) :
  strip_loop (String.length (input_name i)) (input_name i)
  = Ok (strip_whitespace (input_name i)) ∧
  find_blank (compatible_name_input node i) = None ∧
  find_blank (compatible_name_output node o) = None ∧
  (i ∈ inputs node → o ∈ outputs node → input_name i = o →
   compatible_name_input node i = (strip_whitespace o ++ "In")%string ∧
   compatible_name_output node o = (strip_whitespace o ++ "Out")%string ∧
   compatible_name_input node i ≠ compatible_name_output node o).
Proof.
  split_and!.
  - by apply strip_loop_spec.
  - unfold compatible_name_input. destruct (existsb _ _).
    + apply find_blank_app; [apply find_blank_strip|done].
    + apply find_blank_strip.
  - unfold compatible_name_output. destruct (existsb _ _).
    + apply find_blank_app; [apply find_blank_strip|done].
    + apply find_blank_strip.
  - intros Hi Ho Hname. unfold compatible_name_input, compatible_name_output.
    assert (existsb (λ o', String.eqb (input_name i) o') (outputs node) = true) as ->.
    { apply existsb_exists. exists o. split; [by apply list_elem_of_In|].
      by apply String.eqb_eq. }
    assert (existsb (λ i', String.eqb (input_name i') o) (inputs node) = true) as ->.
    { apply existsb_exists. exists i. split; [by apply list_elem_of_In|].
      by apply String.eqb_eq. }
    rewrite Hname. split_and!; [done..|].
    intros H. induction (strip_whitespace o) as [|a s IH]; [done|].
    injection H as H. auto.
Qed.

Lemma uint64_bytes_testbit t k j :
  (k < 8)%nat → 0 ≤ j < 8 →
  Z.testbit (default 0 (uint64_bytes t !! k)) j = Z.testbit t (8 * Z.of_nat k + j).
Proof.
  intros Hk Hj. unfold uint64_bytes.
  rewrite list_lookup_fmap, lookup_seq_lt by done. simpl.
  rewrite Z.land_spec, Z.shiftr_spec by lia.
  replace (Z.testbit 255 j) with true; [by rewrite andb_true_r, Z.add_comm|].
  assert (j = 0 ∨ j = 1 ∨ j = 2 ∨ j = 3 ∨ j = 4 ∨ j = 5 ∨ j = 6 ∨ j = 7) as H by lia.
  by destruct H as [->|[->|[->|[->|[->|[->|[->| ->]]]]]]].
Qed.

Lemma uint64_bytes_inj t1 t2 :
  0 ≤ t1 < 2 ^ 64 → 0 ≤ t2 < 2 ^ 64 →
  uint64_bytes t1 = uint64_bytes t2 → t1 = t2.
Proof.
  intros H1 H2 Heq. apply Z.bits_inj'. intros n Hn.
  destruct (Z.lt_ge_cases n 64) as [Hlt|Hge].
  - pose proof (uint64_bytes_testbit t1 (Z.to_nat (n / 8)) (n mod 8)) as E1.
    pose proof (uint64_bytes_testbit t2 (Z.to_nat (n / 8)) (n mod 8)) as E2.
    assert (0 ≤ n / 8 < 8) by (split; [apply Z.div_pos; lia|apply Z.div_lt_upper_bound; lia]).
    assert (0 ≤ n mod 8 < 8) by (apply Z.mod_pos_bound; lia).
    rewrite Z2Nat.id in E1, E2 by lia.
    rewrite <- Z.div_mod in E1, E2 by lia.
    rewrite <- E1, <- E2 by lia. by rewrite Heq.
  - rewrite !(Z.bits_above_log2) ; try done; try lia.
    all: destruct (Z.eq_dec t1 0), (Z.eq_dec t2 0); subst; simpl; try lia.
    all: try (apply Z.lt_le_trans with 64; [|done]; apply Z.log2_lt_pow2; lia).
Qed.

Lemma string_bytes_inj : Inj (=) (=) string_bytes.
Proof.
  intros s1. induction s1 as [|a s1 IH]; intros [|b s2]; try done.
  unfold string_bytes. simpl. intros [= Hab Hs].
  apply Nat2Z.inj in Hab.
  assert (a = b) as -> by (rewrite <- (ascii_nat_embedding a), <- (ascii_nat_embedding b); by f_equal).
  f_equal. by apply IH.
Qed.

(** Two requests give MD5 the same bytes only when they are for the same
    path and the same modification time: the key of a loaded shader changes
    with the time of its file, collisions of MD5 aside. *)
Theorem hash_message_inj filepath1 t1 filepath2 t2 :
  0 ≤ t1 < 2 ^ 64 → 0 ≤ t2 < 2 ^ 64 →
  shader_filepath_hash filepath1 t1 = MD5_hex (hash_message filepath1 t1) ∧
  (hash_message filepath1 t1 = hash_message filepath2 t2 →
   filepath1 = filepath2 ∧ t1 = t2).
Proof.
  intros H1 H2. split; [done|]. intros Heq. unfold hash_message in Heq.
  apply app_inj_2 in Heq as [Hp Ht]; [|by unfold uint64_bytes; rewrite !length_fmap].
  split; [by apply string_bytes_inj|by apply uint64_bytes_inj].
Qed.

End NameProofs.

Section UnusedProofs.
Context `{Ext : External}.

(** A shader that nothing uses (its reference count is zero) is finalized
    and not compiled: [compile] tells the shading system nothing, loads no
    file and compiles no node; the shader gets the finalized graph, empty
    references and no context, whatever its graph is linked to. *)
Theorem compile_unused fuel c shader g bump :
  is_modified shader = true → reference_count shader = 0 →
  graph shader = Some g → bump_wanted shader g = Ok bump →
  ∃ c' shader',
    compile fuel c shader = Ok (c', shader') ∧
    manager c' = manager c ∧ node_compiles c' = node_compiles c ∧
    graph shader' = Some (finalized shader g bump) ∧
    has_surface shader' = false ∧ has_volume shader' = false ∧
    has_displacement shader' = false ∧
    osl_surface_ref shader' = None ∧ osl_surface_bump_ref shader' = None ∧
    osl_volume_ref shader' = None ∧ osl_displacement_ref shader' = None ∧
    has_bump shader' = bump.
Proof.
  intros Hmod Href Hgraph Hbump. unfold compile. rewrite Hmod, Hgraph, Hbump. simpl.
  unfold compile_surface, compile_volume, compile_displacement, context_wanted.
  simpl. rewrite Href. simpl. eexists _, _. split; [reflexivity|]. simpl.
  by split_and!.
Qed.

(** A script node for a .oso file that cannot be read: the first request
    for it returns NULL and leaves an empty [OSLShaderInfo] under the hash of
    the file; the second request finds that entry and returns a node without
    sockets. *)
Theorem osl_node_unreadable getparams m filepath bytecode_hash bytecode :
  file_extension filepath = ".oso" →
  path_read_text (files m) filepath = None →
  loaded_shaders m !! shader_filepath_hash filepath (path_modified_time (files m) filepath)
  = None →
  ∃ m1,
    osl_node getparams true m filepath bytecode_hash bytecode = Ok (None, m1) ∧
    osl_node getparams true m1 filepath bytecode_hash bytecode
    = Ok (Some (set_source filepath bytecode_hash (OSLNode_create 0)), m1).
Proof.
  intros Hext Hread Hnew.
  assert (4 ≤ String.length filepath)%nat as Hlen.
  { unfold file_extension in Hext.
    assert (String.length (substring (String.length filepath - 4) 4 filepath) = 4%nat)
      as Hl by (by rewrite Hext).
    destruct (decide (4 ≤ String.length filepath)%nat) as [|Hshort]; [done|].
    exfalso. replace (String.length filepath - 4)%nat with 0%nat in Hl by lia.
    destruct filepath as [|a [|b [|c0 [|d s]]]]; simpl in *; try done. lia. }
  assert (String.eqb filepath "" = false) as Hne by (by destruct filepath).
  assert ((String.length filepath <? 4)%nat = false) as Hlt by (apply Nat.ltb_ge; lia).
  unfold osl_node, shader_load_filepath. simpl. rewrite Hne, Hlt, Hext. simpl.
  unfold shader_test_loaded. rewrite Hnew.
  unfold read_and_load, read_text. rewrite Hread. simpl.
  eexists. split; [reflexivity|]. simpl.
  rewrite lookup_insert_eq. simpl. unfold shader_loaded_info. simpl.
  by rewrite lookup_insert_eq.
Qed.

End UnusedProofs.

Section UpdateProofs.
Context `{Ext : External}.
Implicit Types (u : HostLoop) (sh : SceneShader) (l : list SceneShader).

Lemma host_loop_returned fuel get_cancel u l :
  loop_returned u = true →
  for_each (host_update_shader fuel get_cancel) u l
  = Ok {| loop_manager := loop_manager u; loop_shaders := loop_shaders u ++ l;
          loop_tags := loop_tags u; loop_returned := true |}.
Proof.
  revert u. induction l as [|sh l IH]; intros u Hret; cbn [for_each].
  - rewrite app_nil_r. destruct u; simpl in *. by subst.
  - assert (host_update_shader fuel get_cancel u sh
            = Ok {| loop_manager := loop_manager u; loop_shaders := loop_shaders u ++ [sh];
                    loop_tags := loop_tags u; loop_returned := true |}) as ->
      by (unfold host_update_shader; by rewrite Hret).
    cbn [mbind outcome_bind]. rewrite IH by done. cbn. by rewrite <- app_assoc.
Qed.

Lemma host_update_shader_length fuel get_cancel u sh u1 :
  host_update_shader fuel get_cancel u sh = Ok u1 →
  length (loop_shaders u1) = S (length (loop_shaders u)).
Proof.
  unfold host_update_shader.
  destruct (loop_returned u); [intros [= <-]; simpl; rewrite length_app; simpl; lia|].
  destruct (graph (scene_shader sh)); [|done].
  destruct (get_cancel _); [intros [= <-]; simpl; rewrite length_app; simpl; lia|].
  destruct (compile _ _ _) as [[c0 shader0]|]; [|done]. simpl.
  intros [= <-]. simpl. rewrite length_app. simpl. lia.
Qed.

Lemma host_loop_ext fuel gc1 gc2 u l :
  (∀ j, (j < length l)%nat →
        gc1 (length (loop_shaders u) + j)%nat = gc2 (length (loop_shaders u) + j)%nat) →
  for_each (host_update_shader fuel gc1) u l = for_each (host_update_shader fuel gc2) u l.
Proof.
  revert u. induction l as [|sh l IH]; intros u Hgc; cbn [for_each]; [done|].
  assert (host_update_shader fuel gc1 u sh = host_update_shader fuel gc2 u sh) as ->.
  { unfold host_update_shader. specialize (Hgc 0%nat ltac:(simpl; lia)).
    rewrite Nat.add_0_r in Hgc. by rewrite Hgc. }
  destruct (host_update_shader fuel gc2 u sh) as [u1|] eqn:Hstep;
    cbn [mbind outcome_bind]; [|done].
  apply IH. intros j Hj. rewrite (host_update_shader_length _ _ _ _ _ Hstep).
  specialize (Hgc (S j) ltac:(simpl; lia)).
  by replace (S (length (loop_shaders u)) + j)%nat
    with (length (loop_shaders u) + S j)%nat by lia.
Qed.

Lemma host_loop_running fuel u l u' :
  loop_returned u = false →
  for_each (host_update_shader fuel (λ _, false)) u l = Ok u' →
  loop_returned u' = false ∧
  length (loop_shaders u') = (length (loop_shaders u) + length l)%nat.
Proof.
  revert u. induction l as [|sh l IH]; intros u Hret; cbn [for_each].
  - intros [= <-]. simpl. split; [done|lia].
  - destruct (host_update_shader fuel (λ _, false) u sh) as [u1|] eqn:Hstep;
      cbn [mbind outcome_bind]; [|done].
    pose proof (host_update_shader_length _ _ _ _ _ Hstep) as Hlen.
    assert (loop_returned u1 = false) as Hret1.
    { unfold host_update_shader in Hstep. rewrite Hret in Hstep.
      destruct (graph (scene_shader sh)); [|done].
      destruct (compile _ _ _) as [[c0 shader0]|]; [|done]. simpl in Hstep.
      by injection Hstep as <-. }
    intros [Hr Hl]%IH; [|done]. simpl. split; [done|lia].
Qed.

Lemma host_loop_idle fuel u l :
  loop_returned u = false →
  (∀ sh, sh ∈ l → is_modified (scene_shader sh) = false ∧
                  is_Some (graph (scene_shader sh))) →
  for_each (host_update_shader fuel (λ _, false)) u l
  = Ok {| loop_manager := loop_manager u; loop_shaders := loop_shaders u ++ l;
          loop_tags := loop_tags u +
                       length (List.filter
                                 (λ sh, use_mis sh && has_surface_emission (scene_shader sh))
                                 l);
          loop_returned := false |}.
Proof.
  revert u. induction l as [|sh l IH]; intros u Hret Hl; cbn [for_each].
  - simpl. rewrite app_nil_r, Nat.add_0_r. destruct u; simpl in *. by subst.
  - destruct (Hl sh) as [Hmod [g Hg]]; [left|].
    assert (host_update_shader fuel (λ _, false) u sh
            = Ok {| loop_manager := loop_manager u; loop_shaders := loop_shaders u ++ [sh];
                    loop_tags := if use_mis sh && has_surface_emission (scene_shader sh)
                                 then S (loop_tags u) else loop_tags u;
                    loop_returned := false |}) as ->.
    { unfold host_update_shader, compile. rewrite Hret, Hg, Hmod. simpl.
      by destruct sh. }
    cbn [mbind outcome_bind].
    rewrite IH; [|done|intros sh' Hsh'; apply Hl; by right]. cbn.
    rewrite <- app_assoc. simpl.
    f_equal. f_equal. destruct (use_mis sh && has_surface_emission _); simpl; lia.
Qed.

(** An update of the host in which no shader is modified compiles nothing:
    the shaders and the manager stay as they are. The light manager is still
    tagged once for every shader with multiple importance sampling and an
    emission, the two built-in textures are inserted and the groups are
    optimized. *)
Theorem host_update_idle fuel h scene :
  (∀ sh, sh ∈ shaders scene → is_modified (scene_shader sh) = false ∧
                              is_Some (graph (scene_shader sh))) →
  ∃ h' scene',
    host_update_specific fuel true (λ _, false) h scene = Ok (h', scene') ∧
    shaders scene' = shaders scene ∧ host_manager h' = host_manager h ∧
    image_manager_osl_texture_system scene' = ts (host_manager h) ∧
    light_manager_tags scene'
    = (light_manager_tags scene +
       length (List.filter (λ sh, use_mis sh && has_surface_emission (scene_shader sh))
                 (shaders scene)))%nat ∧
    inserted (host_textures h')
    = inserted (host_textures h) ++
      [("@ao", builtin_texture OSLTextureHandle.AO);
       ("@bevel", builtin_texture OSLTextureHandle.BEVEL)] ∧
    optimize_all_groups_calls h' = S (optimize_all_groups_calls h).
Proof.
  intros Hl. unfold host_update_specific. simpl.
  rewrite host_loop_idle by done. simpl. eexists _, _. split; [reflexivity|].
  simpl. by split_and!.
Qed.

(** An update of the host that is cancelled when it comes to the k-th
    shader has done to the shaders before it what an update of these alone
    does, and has left the k-th shader and those after it as they were; it
    has not inserted the built-in textures and has not optimized the
    groups. *)
Theorem host_update_cancelled fuel get_cancel h scene k h' scene' :
  (k < length (shaders scene))%nat →
  get_cancel k = true → (∀ j, (j < k)%nat → get_cancel j = false) →
  host_update_specific fuel true get_cancel h scene = Ok (h', scene') →
  ∃ h1 scene1,
    host_update_specific fuel true (λ _, false) h
      {| shaders := take k (shaders scene);
         image_manager_osl_texture_system := image_manager_osl_texture_system scene;
         light_manager_tags := light_manager_tags scene |} = Ok (h1, scene1) ∧
    shaders scene' = shaders scene1 ++ drop k (shaders scene) ∧
    host_manager h' = host_manager h1 ∧
    light_manager_tags scene' = light_manager_tags scene1 ∧
    host_textures h' = host_textures h ∧
    optimize_all_groups_calls h' = optimize_all_groups_calls h.
Proof.
  intros Hk Hcancel Hbefore. unfold host_update_specific. simpl.
  rewrite <- (take_drop k (shaders scene)) at 1. rewrite for_each_app.
  set (u0 := {| loop_manager := host_manager h; loop_shaders := [];
                loop_tags := light_manager_tags scene; loop_returned := false |}).
  rewrite (host_loop_ext fuel get_cancel (λ _, false) u0 (take k (shaders scene))).
  2:{ intros j Hj. rewrite length_take in Hj. simpl. apply Hbefore. lia. }
  destruct (for_each _ u0 (take k (shaders scene))) as [u1|] eqn:Hrun1; simpl; [|done].
  destruct (host_loop_running fuel u0 _ _ eq_refl Hrun1) as [Hret1 Hlen1].
  simpl in Hlen1. rewrite length_take in Hlen1.
  destruct (drop k (shaders scene)) as [|sh rest] eqn:Hdrop.
  { apply (f_equal length) in Hdrop. rewrite length_drop in Hdrop. simpl in Hdrop. lia. }
  cbn [for_each].
  destruct (host_update_shader fuel get_cancel u1 sh) as [u2|] eqn:Hstep;
    cbn [mbind outcome_bind]; [|done].
  assert (u2 = {| loop_manager := loop_manager u1; loop_shaders := loop_shaders u1 ++ [sh];
                  loop_tags := loop_tags u1; loop_returned := true |}) as ->.
  { unfold host_update_shader in Hstep. rewrite Hret1 in Hstep.
    destruct (graph (scene_shader sh)); [|done].
    replace (length (loop_shaders u1)) with k in Hstep by lia.
    rewrite Hcancel in Hstep. by injection Hstep as <-. }
  rewrite host_loop_returned by done. cbn. intros [= <- <-]. cbn.
  rewrite Hret1. eexists _, _. split; [reflexivity|]. cbn.
  rewrite <- app_assoc. by split_and!.
Qed.

Lemma push_states l og :
  let og' := foldl (λ og sh, push_state og (scene_shader sh)) og l in
  surface_state og' = surface_state og ++ (osl_surface_ref ∘ scene_shader <$> l) ∧
  volume_state og' = volume_state og ++ (osl_volume_ref ∘ scene_shader <$> l) ∧
  displacement_state og'
  = displacement_state og ++ (osl_displacement_ref ∘ scene_shader <$> l) ∧
  bump_state og' = bump_state og ++ (osl_surface_bump_ref ∘ scene_shader <$> l) ∧
  og_ss og' = og_ss og ∧ og_ts og' = og_ts og ∧ og_services og' = og_services og.
Proof.
  revert og. induction l as [|sh l IH]; intros og; simpl.
  - by rewrite !app_nil_r.
  - destruct (IH (push_state og (scene_shader sh))) as (-> & -> & -> & -> & -> & -> & ->).
    simpl. by rewrite <- !app_assoc.
Qed.

(** After an update of the device the four arrays of states hold the groups
    of the shaders of the scene, one entry for a shader, in the order of the
    shaders; the state of the background is the surface group of the shader
    at the masked identifier of the background shader, which is one of the
    shaders; no shader is modified any more; and nothing of what the globals
    held before is left. *)
Theorem device_update_states background_id SHADER_MASK update_flags m og scene
    og' scene' update_flags' :
  device_update_specific true background_id SHADER_MASK update_flags m og scene
  = Ok (og', scene', update_flags') →
  surface_state og' = (osl_surface_ref ∘ scene_shader <$> shaders scene) ∧
  volume_state og' = (osl_volume_ref ∘ scene_shader <$> shaders scene) ∧
  displacement_state og' = (osl_displacement_ref ∘ scene_shader <$> shaders scene) ∧
  bump_state og' = (osl_surface_bump_ref ∘ scene_shader <$> shaders scene) ∧
  (∃ sh, shaders scene !! Z.to_nat (Z.land background_id SHADER_MASK) = Some sh ∧
         background_state og' = osl_surface_ref (scene_shader sh)) ∧
  og_use og' = true ∧ og_ss og' = ss m ∧ og_ts og' = ts m ∧
  og_services og' = services m ∧ update_flags' = 0 ∧
  shaders scene'
  = ((λ sh, {| scene_shader := clear_modified (scene_shader sh); use_mis := use_mis sh |})
       <$> shaders scene) ∧
  Forall (λ sh, is_modified (scene_shader sh) = false) (shaders scene') ∧
  ∀ og2 flags2,
    device_update_specific true background_id SHADER_MASK flags2 m og2 scene
    = Ok (og', scene', update_flags').
Proof.
  unfold device_update_specific. simpl.
  destruct (Z.land background_id SHADER_MASK <? 0) eqn:Hneg; [done|].
  match goal with
  | |- context [foldl ?f ?og0 (shaders scene)] =>
      pose proof (push_states (shaders scene) og0) as Hpush; simpl in Hpush;
      destruct Hpush as (Hs & Hv & Hd & Hb & Hss & Hts & Hsv)
  end.
  rewrite Hs, Hv, Hd, Hb, Hss, Hts, Hsv.
  destruct (_ !! _) as [state|] eqn:Hstate; [|done].
  intros [= <- <- <-]. simpl. split_and!; try done.
  - rewrite list_lookup_fmap in Hstate.
    destruct (shaders scene !! _) as [sh|]; [|done]. exists sh. split; [done|].
    by simplify_eq/=.
  - apply Forall_fmap, Forall_true. done.
Qed.

End UpdateProofs.

(** ** Arrays of vectors as parameters *)

Section ArrayProofs.

Lemma array_set_middle {A} (pre post : list A) (a v : A) :
  array_set (length pre) v (pre ++ a :: post) = Ok (pre ++ v :: post).
Proof.
  unfold array_set. rewrite length_app. simpl.
  destruct (Nat.ltb_spec (length pre) (length pre + S (length post))) as [_|]; [|lia].
  f_equal. rewrite <- (Nat.add_0_r (length pre)) at 1. by rewrite insert_app_r.
Qed.

Lemma array_new_length {A} (junk : nat → A) size : length (array_new junk size) = size.
Proof. unfold array_new. by rewrite length_fmap, length_seq. Qed.

Lemma array_set_app {A} (pre mid post : list A) (a v : A) k :
  k = (length pre + length mid)%nat →
  array_set k v (pre ++ mid ++ a :: post) = Ok (pre ++ mid ++ v :: post).
Proof.
  intros ->. rewrite !app_assoc, <- length_app. apply array_set_middle.
Qed.

Lemma pack_float3_step pre a0 a1 a2 post v :
  pack_float3 (pre ++ a0 :: a1 :: a2 :: post, length pre) v
  = Ok ((pre ++ components v) ++ post, length (pre ++ components v)).
Proof.
  unfold pack_float3, components.
  rewrite array_set_middle. cbn [mbind outcome_bind].
  assert (array_set (S (length pre)) (Float3.y v) (pre ++ Float3.x v :: a1 :: a2 :: post)
          = Ok (pre ++ Float3.x v :: Float3.y v :: a2 :: post)) as ->
    by (apply (array_set_app pre [Float3.x v]); simpl; lia).
  cbn [mbind outcome_bind].
  assert (array_set (S (S (length pre))) (Float3.z v)
            (pre ++ Float3.x v :: Float3.y v :: a2 :: post)
          = Ok (pre ++ Float3.x v :: Float3.y v :: Float3.z v :: post)) as ->
    by (apply (array_set_app pre [Float3.x v; Float3.y v]); simpl; lia).
  cbn [mbind outcome_bind]. rewrite !length_app. simpl.
  rewrite <- !app_assoc. simpl. do 2 f_equal. lia.
Qed.

Lemma pack_float3_loop value :
  ∀ pre room post,
    length room = (length value * 3)%nat →
    for_each pack_float3 (pre ++ room ++ post, length pre) value
    = Ok (pre ++ flat_map components value ++ post,
          (length pre + length value * 3)%nat).
Proof.
  induction value as [|v value IH]; intros pre room post Hroom.
  - destruct room; [|done]. simpl. by rewrite Nat.add_0_r.
  - destruct room as [|a0 [|a1 [|a2 room]]]; try done.
    cbn [for_each].
    change (pre ++ (a0 :: a1 :: a2 :: room) ++ post)
      with (pre ++ a0 :: a1 :: a2 :: (room ++ post)).
    rewrite pack_float3_step. cbn [mbind outcome_bind].
    rewrite IH by (simpl in Hroom; lia).
    rewrite !length_app. simpl. rewrite <- !app_assoc. simpl.
    do 2 f_equal. lia.
Qed.

Lemma flat_map_components_lookup l :
  ∀ i v k c, l !! i = Some v → components v !! k = Some c →
             flat_map components l !! (3 * i + k)%nat = Some c.
Proof.
  induction l as [|w l IH]; intros i v k c Hi Hk; [done|].
  destruct i as [|i].
  - injection Hi as ->. rewrite Nat.mul_0_r. cbn [flat_map Nat.add].
    by apply lookup_app_l_Some.
  - replace (3 * S i + k)%nat with (3 + (3 * i + k))%nat by lia.
    cbn [flat_map components]. simpl in Hi. by apply (IH i v).
Qed.

(** The arrays of colours, vectors, points and normals are given to the
    shading system tightly packed: whatever the memory held, every write of
    the loop is inside the array, the data are the components of the vectors
    in order, three for each, and the length of the type is the number of
    the vectors if that is an [int]. *)
Theorem parameter_float3_array_packed junk typedesc value :
  ∃ type data,
    parameter_float3_array junk typedesc value = Ok (type, data) ∧
    data = flat_map components value ∧
    length data = (3 * length value)%nat ∧
    (∀ i v, value !! i = Some v →
            data !! (3 * i)%nat = Some (Float3.x v) ∧
            data !! (3 * i + 1)%nat = Some (Float3.y v) ∧
            data !! (3 * i + 2)%nat = Some (Float3.z v)) ∧
    TypeDesc.basetype type = TypeDesc.basetype typedesc ∧
    TypeDesc.aggregate type = TypeDesc.aggregate typedesc ∧
    TypeDesc.vecsemantics type = TypeDesc.vecsemantics typedesc ∧
    (Z.of_nat (length value) ≤ INT_MAX →
     TypeDesc.arraylen type = Z.of_nat (length value)).
Proof.
  unfold parameter_float3_array.
  pose proof (pack_float3_loop value [] (array_new junk (length value * 3)) []
                (array_new_length _ _)) as Hloop.
  rewrite app_nil_r in Hloop. cbn [app length Nat.add] in Hloop. rewrite Hloop.
  cbn [mbind outcome_bind]. rewrite app_nil_r. eexists _, _. split; [reflexivity|].
  assert (∀ l : list Float3.t, length (flat_map components l) = (3 * length l)%nat)
    as Hlen.
  { induction l as [|v l IH]; [done|]. simpl. rewrite IH. lia. }
  split_and!; try done.
  - intros i v Hi. split_and!.
    + rewrite <- (Nat.add_0_r (3 * i)). by apply (flat_map_components_lookup _ _ v).
    + by apply (flat_map_components_lookup _ _ v).
    + by apply (flat_map_components_lookup _ _ v).
  - intros Hint. simpl. apply wrap_int_id. unfold INT_MIN. lia.
Qed.

Lemma at_index_middle {A} (pre post : list A) (a : A) :
  at_index (pre ++ a :: post) (length pre) = Ok a.
Proof. unfold at_index. by rewrite list_lookup_middle. Qed.

Lemma table_set_middle pre post cell k a v before after :
  cell = before ++ a :: after → k = length before →
  table_set (length pre) k v (pre ++ cell :: post)
  = Ok (pre ++ (before ++ v :: after) :: post).
Proof.
  intros -> ->. unfold table_set. rewrite at_index_middle. cbn [mbind outcome_bind].
  rewrite array_set_middle. cbn [mbind outcome_bind]. apply array_set_middle.
Qed.

Lemma color_table_loop (f : list Float3.t) n :
  ∀ i pre cells,
    length pre = i → length cells = n → (i + n)%nat = length f →
    Forall (λ cell, length cell = 3%nat) cells →
    for_each (color_table_step f) (pre ++ cells) (seq i n)
    = Ok (pre ++ (components <$> drop i f)).
Proof.
  induction n as [|n IH]; intros i pre cells Hpre Hcells Hf Hthree.
  - destruct cells; [|done]. rewrite drop_ge by lia. done.
  - destruct cells as [|cell cells]; [done|].
    apply Forall_cons in Hthree as [Hcell Hthree].
    destruct cell as [|a0 [|a1 [|a2 [|]]]]; try done.
    destruct (lookup_lt_is_Some_2 f i) as [v Hv]; [lia|].
    rewrite (drop_S _ _ _ Hv). cbn [seq for_each fmap list_fmap].
    assert (color_table_step f (pre ++ [a0; a1; a2] :: cells) i
            = Ok (pre ++ components v :: cells)) as ->.
    { unfold color_table_step, at_index at 1. rewrite Hv. cbn [mbind outcome_bind].
      subst i.
      rewrite (table_set_middle pre cells _ 0 a0 _ [] [a1; a2]) by done.
      cbn [mbind outcome_bind app].
      rewrite (table_set_middle pre cells _ 1 a1 _ [Float3.x v] [a2]) by done.
      cbn [mbind outcome_bind app].
      by rewrite (table_set_middle pre cells _ 2 a2 _ [Float3.x v; Float3.y v] []). }
    cbn [mbind outcome_bind].
    rewrite (cons_middle (components v)), app_assoc.
    rewrite (IH (S i)); [|rewrite length_app; simpl; lia|simpl in Hcells; lia|lia|done].
    by rewrite <- app_assoc.
Qed.

(** A table of colours is given to the shading system as the components of
    its colours in order, three for each, whatever the memory of the table
    held: every write of the loop is inside the table, and the length of the
    type is the number of the colours. *)
Theorem parameter_color_array_table junk f :
  Z.of_nat (length f) ≤ INT_MAX →
  parameter_color_array junk f
  = Ok (array_typedesc TypeColor (Z.of_nat (length f)), flat_map components f).
Proof.
  intros Hint. unfold parameter_color_array.
  pose proof (color_table_loop f (length f) 0 []
                (array_new (λ i, array_new (junk i) 3) (length f))) as Hloop.
  cbn [app] in Hloop. rewrite Hloop; [|done|apply array_new_length|done|].
  - cbn [mbind outcome_bind]. rewrite drop_0, length_fmap.
    rewrite wrap_int_id by (unfold INT_MIN; lia). do 2 f_equal.
    clear. induction f as [|v f' IH]; [done|]. cbn [fmap list_fmap concat flat_map].
    f_equal. apply IH.
  - unfold array_new at 1. apply Forall_fmap, Forall_forall. intros i _.
    apply array_new_length.
Qed.

End ArrayProofs.

Section GroupProofs.
Context `{Ext : External}.
Implicit Types (g : ShaderGraph) (c : OSLCompiler).

Lemma inside_group_nil : inside_group [].
Proof. intros call Hc. by apply elem_of_nil in Hc. Qed.

Lemma inside_group_app_2 a b : inside_group a → inside_group b → inside_group (a ++ b).
Proof. intros Ha Hb call [?|?]%elem_of_app; [by apply Ha|by apply Hb]. Qed.

Lemma told_refl c : told c c.
Proof. exists []. rewrite app_nil_r. split; [done|apply inside_group_nil]. Qed.

Lemma told_trans c1 c2 c3 : told c1 c2 → told c2 c3 → told c1 c3.
Proof.
  intros (e1 & H1 & Hi1) (e2 & H2 & Hi2). exists (e1 ++ e2).
  rewrite H2, H1, app_assoc. split; [done|]. by apply inside_group_app_2.
Qed.

Lemma told_same c c' : manager c' = manager c → told c c'.
Proof. intros Hm. exists []. rewrite Hm, app_nil_r. split; [done|apply inside_group_nil]. Qed.

Lemma told_call c call : node_call call → told c (ss_do call c).
Proof.
  intros Hcall. exists [call]. split; [done|].
  by intros call' ->%list_elem_of_singleton.
Qed.

Lemma read_and_load_told m path time :
  ∃ extra, ss_calls (read_and_load m path time).2 = ss_calls m ++ extra ∧
           inside_group extra.
Proof.
  unfold read_and_load, read_text, shader_load_bytecode.
  destruct (path_read_text (files m) path); simpl.
  - eexists [_]. split; [done|]. by intros call ->%list_elem_of_singleton.
  - exists []. rewrite app_nil_r. split; [done|apply inside_group_nil].
Qed.

Lemma shader_load_filepath_told m filepath r m' :
  shader_load_filepath m filepath = Ok (r, m') →
  ∃ extra, ss_calls m' = ss_calls m ++ extra ∧ inside_group extra.
Proof.
  unfold shader_load_filepath.
  pose proof (read_and_load_told m) as Hm.
  pose proof (read_and_load_told (osl_compile filepath (oso_path filepath) m)) as Hc.
  intros H.
  repeat match goal with
         | H : context [if ?b then _ else _] |- _ => destruct b
         | H : context [match ?x with _ => _ end] |- _ => destruct x
         end;
    simplify_eq/=;
    try (exists []; rewrite app_nil_r; split; [done|apply inside_group_nil]);
    match goal with
    | H : read_and_load ?m0 ?p ?t = _ |- _ =>
        first [specialize (Hm p t); by rewrite H in Hm
              |specialize (Hc p t); by rewrite H in Hc]
    end.
Qed.

Lemma told_load c name (isfilepath : bool) loaded m :
  (if isfilepath then shader_load_filepath (manager c) name
   else Ok (Some name, manager c)) = Ok (loaded, m) →
  told c (set_manager m c).
Proof.
  destruct isfilepath.
  - intros (extra & Hcalls & Hin)%shader_load_filepath_told. by exists extra.
  - intros [= _ <-]. by apply told_same.
Qed.

Lemma told_log c n : told c (log_node_compile n c).
Proof. by apply told_same. Qed.

Lemma add_flags_told (node : ShaderNode) info c c' :
  add_flags node info c = Ok c' → told c c'.
Proof. intros H%add_flags_manager. by apply told_same. Qed.

Lemma generate_flags_told (node : ShaderNode) c c' :
  generate_flags node c = Ok c' → told c c'.
Proof. intros H%generate_flags_manager. by apply told_same. Qed.

Lemma well_grouped_inside calls :
  inside_group calls → ∀ rest, well_grouped true (calls ++ rest) = well_grouped true rest.
Proof.
  induction calls as [|call calls IH]; intros Hin rest; [done|].
  assert (node_call call) as Hcall by (apply Hin; left).
  assert (inside_group calls) as Hin' by (intros call' ?; apply Hin; by right).
  simpl. destruct call; try done; simpl; by apply IH.
Qed.

Lemma well_grouped_app a b :
  well_grouped false a = true → well_grouped false (a ++ b) = well_grouped false b.
Proof.
  assert (∀ open, well_grouped open a = true →
                  well_grouped open (a ++ b) = well_grouped false b) as H.
  { induction a as [|call a IH]; intros open; simpl.
    - by destruct open.
    - destruct call; simpl; intros [Ho Ha]%andb_true_iff;
        destruct open; try done; simpl; by apply IH. }
  apply H.
Qed.

Lemma groups_in_app a b : groups_in (a ++ b) = (groups_in a + groups_in b)%nat.
Proof. unfold groups_in. by rewrite List.filter_app, length_app. Qed.

Lemma groups_in_inside calls : inside_group calls → groups_in calls = 0%nat.
Proof.
  unfold groups_in. induction calls as [|call calls IH]; intros Hin; [done|].
  assert (node_call call) as Hcall by (apply Hin; left).
  simpl. destruct call; try done; apply IH; intros call' ?; apply Hin; by right.
Qed.

(** The calls of [compile_type]: one whole group. *)
Lemma compile_type_group_calls fuel c name g ty c' group :
  compile_type fuel c name g ty = Ok (c', group) →
  ∃ extra, ss_calls (manager c') = ss_calls (manager c) ++ extra ∧
           well_grouped false extra = true ∧ groups_in extra = 1%nat.
Proof.
  unfold compile_type. simpl.
  destruct (input _ _) as [i|]; [|done].
  destruct (find_dependencies _ _ _ _ _) as [deps|]; [|done]. simpl.
  destruct (generate_nodes _ _ _ _) as [c1|] eqn:Hgen; [|done]. simpl.
  destruct (node_compile g c1 (output g)) as [c2|] eqn:Hout; [|done]. simpl.
  intros [= <- <-].
  apply (step_generate_loop told told_refl told_trans told_call told_load told_log
           add_flags_told generate_flags_told) in Hgen.
  apply (step_node_compile told told_refl told_trans told_call told_load told_log
           add_flags_told) in Hout.
  destruct (told_trans _ _ _ Hgen Hout) as (body & Hcalls & Hin). simpl in *.
  exists (SS_ShaderGroupBegin name :: body ++ [SS_ShaderGroupEnd]).
  rewrite Hcalls, <- !app_assoc. split; [done|]. split.
  - simpl. by rewrite well_grouped_inside.
  - change (SS_ShaderGroupBegin name :: body ++ [SS_ShaderGroupEnd])
      with ([SS_ShaderGroupBegin name] ++ body ++ [SS_ShaderGroupEnd]).
    rewrite !groups_in_app, (groups_in_inside body) by done. done.
Qed.

Lemma grouped_same c c' : manager c' = manager c → grouped c c'.
Proof.
  intros Hm. exists []. rewrite Hm, app_nil_r. split_and!; [done..|].
  unfold groups_in. simpl. lia.
Qed.

Lemma grouped_trans c1 c2 c3 : grouped c1 c2 → grouped c2 c3 → grouped c1 c3.
Proof.
  intros (e1 & H1 & Hw1 & Hg1) (e2 & H2 & Hw2 & Hg2). exists (e1 ++ e2).
  rewrite H2, H1, app_assoc, well_grouped_app, groups_in_app by done.
  split_and!; [done..|]. lia.
Qed.

Lemma compile_type_grouped fuel c name g ty c' group :
  compile_type fuel c name g ty = Ok (c', group) → grouped c c'.
Proof.
  intros H. destruct (compile_type_group _ _ _ _ _ _ _ H) as (_ & Hg & _).
  apply compile_type_group_calls in H as (extra & Hcalls & Hw & Hone).
  exists extra. split_and!; [done..|]. lia.
Qed.

Lemma on_shader_grouped f c c' : on_shader f c = Ok c' → grouped c c'.
Proof.
  unfold on_shader. destruct (current_shader c); [|done].
  intros [= <-]. by apply grouped_same.
Qed.

Lemma compile_surface_grouped fuel shader g out bump c c' :
  compile_surface fuel shader g out bump c = Ok c' → grouped c c'.
Proof.
  unfold compile_surface. destruct (context_wanted _ _ _) as [[|]|]; simpl; [| |done].
  - destruct (compile_type _ _ _ _ _) as [[c1 group]|] eqn:Hct1; [|done]. simpl.
    apply compile_type_grouped in Hct1.
    destruct (on_shader _ c1) as [c2|] eqn:Hon1; [|done]. simpl.
    apply on_shader_grouped in Hon1. destruct bump.
    + destruct (compile_type _ _ _ _ _) as [[c3 group3]|] eqn:Hct2; [|done]. simpl.
      apply compile_type_grouped in Hct2.
      destruct (on_shader _ c3) as [c4|] eqn:Hon2; [|done]. simpl.
      apply on_shader_grouped in Hon2. intros Hon3%on_shader_grouped.
      repeat (eapply grouped_trans; [eassumption|]). by apply grouped_same.
    + destruct (on_shader _ c2) as [c4|] eqn:Hon2; [|done]. simpl.
      apply on_shader_grouped in Hon2. intros Hon3%on_shader_grouped.
      repeat (eapply grouped_trans; [eassumption|]). by apply grouped_same.
  - destruct (on_shader _ c) as [c2|] eqn:Hon1; [|done]. simpl.
    apply on_shader_grouped in Hon1. intros Hon3%on_shader_grouped.
    by eapply grouped_trans.
Qed.

Lemma compile_volume_grouped fuel shader g out c c' :
  compile_volume fuel shader g out c = Ok c' → grouped c c'.
Proof.
  unfold compile_volume. destruct (context_wanted _ _ _) as [[|]|]; simpl; [| |done].
  - destruct (compile_type _ _ _ _ _) as [[c1 group]|] eqn:Hct1; [|done]. simpl.
    apply compile_type_grouped in Hct1.
    destruct (on_shader _ c1) as [c2|] eqn:Hon1; [|done]. simpl.
    apply on_shader_grouped in Hon1. intros Hon3%on_shader_grouped.
    repeat (eapply grouped_trans; [eassumption|]). by apply grouped_same.
  - apply on_shader_grouped.
Qed.

Lemma compile_displacement_grouped fuel shader g out c c' :
  compile_displacement fuel shader g out c = Ok c' → grouped c c'.
Proof.
  unfold compile_displacement. destruct (context_wanted _ _ _) as [[|]|]; simpl; [| |done].
  - destruct (compile_type _ _ _ _ _) as [[c1 group]|] eqn:Hct1; [|done]. simpl.
    apply compile_type_grouped in Hct1.
    destruct (on_shader _ c1) as [c2|] eqn:Hon1; [|done]. simpl.
    apply on_shader_grouped in Hon1. intros Hon3%on_shader_grouped.
    repeat (eapply grouped_trans; [eassumption|]). by apply grouped_same.
  - apply on_shader_grouped.
Qed.

(** What [compile] tells the shading system is made of whole groups: a
    group is begun only when none is open, the layers, parameters and
    connections come inside a group, every group is ended, and as many groups
    are told as the manager counts. *)
Theorem compile_groups_closed fuel c shader c' shader' :
  compile fuel c shader = Ok (c', shader') →
  ∃ extra,
    ss_calls (manager c') = ss_calls (manager c) ++ extra ∧
    well_grouped false extra = true ∧
    groups_begun (manager c') = (groups_begun (manager c) + groups_in extra)%nat.
Proof.
  unfold compile. destruct (is_modified shader).
  2:{ intros [= <- <-]. by apply grouped_same. }
  destruct (graph shader) as [g|]; [|done].
  destruct (bump_wanted shader g) as [bump|]; [|done]. simpl.
  destruct (compile_surface _ _ _ _ _ _) as [c1|] eqn:Hrun1; [|done]. simpl.
  destruct (compile_volume _ _ _ _ c1) as [c2|] eqn:Hrun2; [|done]. simpl.
  destruct (compile_displacement _ _ _ _ c2) as [c3|] eqn:Hrun3; [|done]. simpl.
  destruct (current_shader c3); [|done]. intros [= <- <-].
  apply compile_surface_grouped in Hrun1. apply compile_volume_grouped in Hrun2.
  apply compile_displacement_grouped in Hrun3.
  eapply grouped_trans; [|exact Hrun3]. eapply grouped_trans; [|exact Hrun2].
  eapply grouped_trans; [|exact Hrun1]. by apply grouped_same.
Qed.

(** The groups of a shader that [compile] compiled: the references of the
    surface, the bump, the volume and the displacement that are not empty
    are, in this order, the groups that were begun during the compilation.
    So no two contexts share a group, and no group is begun that the shader
    does not refer to. *)
Theorem compile_group_refs fuel c shader c' shader' :
  is_modified shader = true →
  compile fuel c shader = Ok (c', shader') →
  omap id [osl_surface_ref shader'; osl_surface_bump_ref shader';
           osl_volume_ref shader'; osl_displacement_ref shader']
  = seq (groups_begun (manager c))
        (groups_begun (manager c') - groups_begun (manager c)).
Proof.
  intros Hmod. unfold compile. rewrite Hmod.
  destruct (graph shader) as [g|] eqn:Hgraph; [|done].
  destruct (bump_wanted shader g) as [bump|] eqn:Hbump; [|done]. simpl.
  set (g' := finalized shader g bump).
  set (shader0 := set_graph (Some g') shader).
  set (c0 := set_current_shader (Some (reset_flags bump shader0))
               (set_current_shader (Some shader0) c)).
  assert (current_shader c0 = Some (reset_flags bump shader0)) as Hs0 by done.
  destruct (compile_surface _ _ _ _ _ c0) as [c1|] eqn:Hrun1; [|done]. simpl.
  destruct (compile_volume _ _ _ _ c1) as [c2|] eqn:Hrun2; [|done]. simpl.
  destruct (compile_displacement _ _ _ _ c2) as [c3|] eqn:Hrun3; [|done]. simpl.
  assert (∃ ws, context_wanted shader0 (node_at g' (output g)) "Surface" = Ok ws)
    as [ws Hws].
  { unfold compile_surface in Hrun1. destruct (context_wanted _ _ _); [eauto|done]. }
  assert (∃ wv, context_wanted shader0 (node_at g' (output g)) "Volume" = Ok wv)
    as [wv Hwv].
  { unfold compile_volume in Hrun2. destruct (context_wanted _ _ _); [eauto|done]. }
  assert (∃ wd, context_wanted shader0 (node_at g' (output g)) "Displacement" = Ok wd)
    as [wd Hwd].
  { unfold compile_displacement in Hrun3. destruct (context_wanted _ _ _); [eauto|done]. }
  destruct (compile_surface_shader _ _ _ _ _ _ _ _ _ Hs0 Hws Hrun1)
    as (s1 & Hs1 & _ & _ & Hr1 & Hb1 & Hg1 & _).
  destruct (compile_volume_shader _ _ _ _ _ _ _ _ Hs1 Hwv Hrun2)
    as (s2 & Hs2 & _ & _ & Hr2 & Hg2 & _ & _ & Hr2s & Hr2b & _).
  destruct (compile_displacement_shader _ _ _ _ _ _ _ _ Hs2 Hwd Hrun3)
    as (s3 & Hs3 & _ & _ & Hr3 & Hg3 & _ & _ & Hr3s & Hr3b & Hr3v & _).
  rewrite Hs3. intros [= <- <-]. clear Hrun1 Hrun2 Hrun3.
  rewrite Hr3, Hr3v, Hr3s, Hr3b, Hr2, Hr2s, Hr2b, Hr1, Hb1, Hg3, Hg2, Hg1.
  change (groups_begun (manager c0)) with (groups_begun (manager c)).
  generalize (groups_begun (manager c)) as k. intros k.
  destruct ws, bump, wv, wd; simpl;
    match goal with
    | |- ?l = seq k ?n => replace n with (length l) by (simpl; lia)
    end; simpl; repeat (f_equal; try lia).
Qed.

End GroupProofs.

(** ** The theorems on the examples *)

(** C1, the claim as stated fails: in the Displacement context the
    Displacement input of the Output node, linked from a Bump node, and the
    Normal input of a Bump node, linked from a Bump node, fall under the last
    row of the table as it is stated, and [node_skip_input] does not skip
    them. *)
Lemma skip_from_bump_on_output :
  (∃ i, input (node_at bump_on_displacement 0) "Displacement" = Some i ∧
        @skip_rules_as_stated example_external bump_on_displacement
          SHADER_TYPE_DISPLACEMENT (node_at bump_on_displacement 0) i ∧
        @node_skip_input example_external bump_on_displacement
          SHADER_TYPE_DISPLACEMENT (node_at bump_on_displacement 0) i = false) ∧
  (∃ i, input (node_at bump_chain 1) "Normal" = Some i ∧
        @skip_rules_as_stated example_external bump_chain
          SHADER_TYPE_DISPLACEMENT (node_at bump_chain 1) i ∧
        @node_skip_input example_external bump_chain
          SHADER_TYPE_DISPLACEMENT (node_at bump_chain 1) i = false).
Proof.
  split; (eexists; split; [reflexivity|]; split; [|reflexivity]);
    do 3 right; (split; [reflexivity|]); eexists; split; reflexivity.
Qed.

(** C2, the claim as stated fails: with a link into the Displacement input
    only, the Bump method and one user, [compile] leaves
    [has_displacement] true, [has_bump] false and no bump program. *)
Lemma displacement_only_compiled :
  (λ s, (has_displacement s, has_bump s, osl_surface_bump_ref s, osl_displacement_ref s))
    <$> compiled_shader
          (compile 2 (example_compiler ∅)
             (example_shader displacement_only 1 DISPLACE_BUMP))
  = Some (true, false, None, Some 0%nat).
Proof. vm_compute; reflexivity. Qed.

Lemma compile_displacement_only_witness :
  ∃ c' shader',
    compile 2 (example_compiler ∅) (example_shader displacement_only 1 DISPLACE_BUMP)
      = Ok (c', shader') ∧
    osl_surface_bump_ref shader' = None ∧ has_bump shader' = false ∧
    has_displacement shader' = true.
Proof.
  destruct (compile_displacement_only 2 (example_compiler ∅)
              (example_shader displacement_only 1 DISPLACE_BUMP)
              displacement_only (λ n, match n with O => 1 | _ => 0 end)%nat)
    as (c' & shader' & Hrun & _ & _ & Href & Hbump & _ & _ & Hd & _).
  - reflexivity.
  - reflexivity.
  - vm_compute; reflexivity.
  - reflexivity.
  - intros (i & o & Hi & Ho). vm_compute in Hi. injection Hi as <-. discriminate Ho.
  - intros (i & o & Hi & Ho). vm_compute in Hi. injection Hi as <-. discriminate Ho.
  - intros (i & o & Hi & Ho). vm_compute in Hi. injection Hi as <-. discriminate Ho.
  - eexists _, _. split; reflexivity.
  - exists c', shader'. split_and!; [exact Hrun|exact Href|exact Hbump|].
    clear Hrun. apply Hd. discriminate.
Defined.

(** C6, the claim as stated fails: the Surface input of the Output node of
    the diamond is linked, the shader has no user, and [compile] leaves
    [has_surface] false and [osl_surface_ref] empty. *)
Lemma unused_shader_not_compiled :
  linked (node_at diamond 0) "Surface" ∧
  (λ s, (has_surface s, osl_surface_ref s))
    <$> compiled_shader
          (compile 4 (example_compiler ∅) (example_shader diamond 0 DISPLACE_BUMP))
  = Some (false, None).
Proof. split; [eexists _, _; split; reflexivity|vm_compute; reflexivity]. Qed.

Lemma compile_contexts_witness :
  ∃ c' shader',
    compile 4 (example_compiler ∅) (example_shader diamond 1 DISPLACE_BUMP)
      = Ok (c', shader') ∧
    has_surface shader' = true ∧ has_volume shader' = false.
Proof.
  destruct (compile_contexts 4 (example_compiler ∅)
              (example_shader diamond 1 DISPLACE_BUMP) diamond diamond_rank)
    as (c' & shader' & Hrun & Hs & _ & Hv & _); [reflexivity|reflexivity|vm_compute; reflexivity|].
  exists c', shader'. split_and!; [exact Hrun| |]; clear Hrun.
  - apply Hs. split; [done|]. eexists _, _. split; reflexivity.
  - destruct (has_volume shader'); [|reflexivity].
    destruct (proj1 Hv eq_refl) as [_ (i & o & Hi & Ho)].
    vm_compute in Hi. injection Hi as <-. discriminate Ho.
Defined.

Lemma compile_unmodified_witness :
  compile 0 (example_compiler ∅) compiled_before
  = Ok (example_compiler ∅, compiled_before).
Proof. apply compile_unmodified. reflexivity. Defined.

(** C3 on an example: in the Surface context of a graph with a node on the
    Surface input and a node on the Displacement input of the Output node,
    [find_dependencies] returns the set of the node on the Surface input:
    that node is reached, and the node on the Displacement input is not. *)
Lemma find_dependencies_closed_set_witness :
  @find_dependencies example_external 1 surface_and_displacement
    SHADER_TYPE_SURFACE ∅ (example_input "Surface" (from 1)) = Ok {[1%nat]} ∧
  @reaches example_external surface_and_displacement SHADER_TYPE_SURFACE
    (example_input "Surface" (from 1)) 1%nat ∧
  ¬ @reaches example_external surface_and_displacement SHADER_TYPE_SURFACE
      (example_input "Surface" (from 1)) 2%nat.
Proof.
  destruct (@find_dependencies_closed_set example_external surface_and_displacement
              SHADER_TYPE_SURFACE output_rank 1
              (example_input "Surface" (from 1)))
    as (deps & Hfd & _ & _ & Hreach & _).
  - intros n p. apply (ranked_graph _ _ output_rank). vm_compute; reflexivity.
  - intros o [= <-]. simpl. lia.
  - assert (@find_dependencies example_external 1 surface_and_displacement
              SHADER_TYPE_SURFACE ∅ (example_input "Surface" (from 1))
            = Ok {[1%nat]}) as Hrun by (vm_compute; reflexivity).
    rewrite Hrun in Hfd. injection Hfd as <-.
    split; [exact Hrun|]. split.
    + apply Hreach. by apply elem_of_singleton.
    + intros H%Hreach%elem_of_singleton. discriminate H.
Defined.

(** C4 on an example: the diamond, met with D first and A last, is compiled
    as A, then B and C, then D. *)
Lemma generate_nodes_once_in_order_witness :
  ∃ c' order,
    generate_nodes 5 diamond [1; 2; 3; 4]%nat
      (example_compiler_on (example_shader diamond 1 DISPLACE_BUMP)) = Ok c' ∧
    node_compiles c' = order ∧ order ≡ₚ [1; 2; 3; 4]%nat.
Proof.
  destruct (generate_nodes_once_in_order 3 diamond
              (example_input "Surface" (from 1)) {[1; 2; 3; 4]}%nat
              [1; 2; 3; 4]%nat 5
              (example_compiler_on (example_shader diamond 1 DISPLACE_BUMP)))
    as (c' & order & Hrun & Hlog & Hperm & _).
  - vm_compute; reflexivity.
  - vm_compute; reflexivity.
  - simpl. lia.
  - reflexivity.
  - by eexists.
  - exists c', order. split_and!; [exact Hrun|exact Hlog|exact Hperm].
Defined.

(** C5 on an example: three passes compile the diamond. *)
Lemma generate_nodes_terminates_witness :
  ∃ c' order,
    generate_nodes 3 diamond [1; 2; 3; 4]%nat
      (example_compiler_on (example_shader diamond 1 DISPLACE_BUMP)) = Ok c' ∧
    node_compiles c' = order ∧ order ≡ₚ [1; 2; 3; 4]%nat.
Proof.
  destruct (generate_nodes_terminates diamond [1; 2; 3; 4]%nat diamond_rank 3
              (example_compiler_on (example_shader diamond 1 DISPLACE_BUMP)))
    as [(c' & order & Hrun & Hlog & Hperm) _].
  - repeat (constructor; [set_solver|]). constructor.
  - reflexivity.
  - reflexivity.
  - lia.
  - reflexivity.
  - reflexivity.
  - by eexists.
  - exists c', order. split_and!; [exact Hrun|exact Hlog|exact Hperm].
Defined.

(** C7 on an example: "shader.osl" is compiled, read and loaded by the first
    request; the second request returns the hash of the first and reads
    nothing. *)
Lemma shader_load_filepath_memoizes_witness :
  returned (shader_load_filepath loaded_once "shader.osl")
    = returned (shader_load_filepath (example_manager source_only) "shader.osl") ∧
  file_reads (manager_after loaded_once (shader_load_filepath loaded_once "shader.osl"))
    = ["shader.oso"].
Proof.
  destruct (shader_load_filepath_memoizes (example_manager source_only) "shader.osl"
              (@shader_filepath_hash example_external "shader.oso" 6) loaded_once)
    as (Hsecond & _ & _).
  - vm_compute; reflexivity.
  - intros _. vm_compute. discriminate.
  - rewrite Hsecond. split; vm_compute; reflexivity.
Defined.

(** C8 on an example: no file is there. The first request for "missing.oso"
    returns NULL, reads once and leaves an empty entry under the hash; the
    second request reads nothing, and returns that hash instead of NULL. For
    "missing.osl" both requests return NULL, and both run the compiler and
    read the file. *)
Theorem unreadable_shader_requested_twice :
  (let m0 := example_manager ∅ in
   let r1 := shader_load_filepath m0 "missing.oso" in
   let m1 := manager_after m0 r1 in
   let r2 := shader_load_filepath m1 "missing.oso" in
   let m2 := manager_after m1 r2 in
   let hash := @shader_filepath_hash example_external "missing.oso" 0 in
   returned r1 = Some None ∧ file_reads m1 = ["missing.oso"] ∧
   loaded_shaders m1 !! hash = Some OSLShaderInfo_new ∧
   returned r2 = Some (Some hash) ∧ file_reads m2 = ["missing.oso"]) ∧
  (let m0 := example_manager ∅ in
   let r1 := shader_load_filepath m0 "missing.osl" in
   let m1 := manager_after m0 r1 in
   let r2 := shader_load_filepath m1 "missing.osl" in
   let m2 := manager_after m1 r2 in
   returned r1 = Some None ∧ file_reads m1 = ["missing.oso"] ∧
   returned r2 = Some None ∧ file_reads m2 = ["missing.oso"; "missing.oso"] ∧
   oslc_runs m2 = [("missing.osl", "missing.oso"); ("missing.osl", "missing.oso")]).
Proof. split; vm_compute; split_and!; reflexivity. Qed.

(** C9 on an example: the first manager constructs the shared texture
    system, and its release destroys it. *)
Lemma shared_systems_reference_counted_witness :
  ts_invariant (texture_system_init no_systems (example_manager ∅)).1 ∧
  ∃ m, texture_system_free
         (texture_system_init no_systems (example_manager ∅)).1
         (texture_system_init no_systems (example_manager ∅)).2 = Ok (no_systems, m).
Proof.
  destruct (shared_systems_reference_counted no_systems (example_manager ∅))
    as (Hinit & _ & _ & _ & Hpair & _).
  - unfold INT_MIN, INT_MAX. simpl. lia.
  - unfold INT_MIN, INT_MAX. simpl. lia.
  - assert (ts_invariant no_systems) as Hinv.
    { unfold ts_invariant. simpl. split; [by intros [? ?]|lia]. }
    split.
    + apply Hinit, Hinv.
    + apply Hpair, Hinv.
Defined.

(** ** The manager, the nodes, the programs and the updates on the examples *)

(** The only manager is reset: the shading system is made anew, and the
    shaders it had loaded are forgotten. *)
Lemma reset_alone_or_shared_witness :
  ∃ st' m', reset first_manager.1 first_manager.2 = (st', m') ∧
            ss_shared_users st' = 1 ∧ loaded_shaders m' = ∅.
Proof.
  destruct (reset_alone_or_shared first_manager.1 first_manager.2)
    as (st' & m' & Hrun & Husers & _ & _ & _ & _ & _ & Halone & _).
  - vm_compute. split; [reflexivity|discriminate].
  - exists st', m'. split_and!; [exact Hrun|exact Husers|].
    apply Halone. reflexivity.
Defined.

(** Two managers are constructed, the first is reset, and the first is
    destroyed: the manager that is left shares the systems. *)
Lemma managers_share_the_systems_witness :
  ∃ st' live',
    for_each manager_op (no_systems, [])
      [Op_construct (example_manager ∅); Op_construct (example_manager ∅);
       Op_reset 0; Op_destruct 0] = Ok (st', live') ∧
    shared_by st' live'.
Proof.
  apply managers_share_the_systems.
  - unfold shared_by, ts_invariant, ss_invariant. simpl.
    split_and!; try done;
      first [by intros [? ?] | by intros ? ?%elem_of_nil | lia | idtac].
  - unfold INT_MAX. simpl. lia.
Defined.

(** "missing.oso" cannot be read: the request returns NULL, after one read,
    and leaves an entry under the hash. *)
Lemma shader_load_filepath_null_witness :
  let m := example_manager ∅ in
  let m' := manager_after m (shader_load_filepath m "missing.oso") in
  file_reads m' = ["missing.oso"] ∧
  is_Some (loaded_shaders m' !! @shader_filepath_hash example_external "missing.oso" 0).
Proof.
  intros m m'.
  destruct (shader_load_filepath_null m "missing.oso" m') as [Hnot|Hread].
  - vm_compute; reflexivity.
  - destruct Hnot as (_ & Hoso & _). exfalso. apply Hoso. vm_compute; reflexivity.
  - destruct Hread as (_ & Hreads & Hloaded & _). split; [exact Hreads|].
    rewrite Hloaded.
    change (bytecode_path "missing.oso") with "missing.oso".
    change (bytecode_time (files m') "missing.oso") with 0.
    rewrite lookup_insert_eq. by eexists.
Defined.

(** "shader.osl" has no bytecode yet: the request runs the compiler once. *)
Lemma osl_compile_when_stale_witness :
  let m := example_manager source_only in
  oslc_runs (manager_after m (shader_load_filepath m "shader.osl"))
  = [("shader.osl", "shader.oso")].
Proof.
  intros m.
  destruct (osl_compile_when_stale m "shader.osl"
              (Some (@shader_filepath_hash example_external "shader.oso" 6))
              (manager_after m (shader_load_filepath m "shader.osl")))
    as [Hstale _].
  - vm_compute; reflexivity.
  - apply Hstale. split; [reflexivity|]. left. vm_compute; reflexivity.
Defined.

(** The node of a bytecode with a colour, an array, a closure that is an
    output and a matrix has room for two inputs, and the sockets "Color" and
    "BSDF". *)
Lemma osl_node_sockets_witness :
  let r := osl_node example_getparams true (example_manager ∅) "" "hash" "bytecode" in
  let m' := (result_or (None, example_manager ∅) r).2 in
  r = Ok (Some example_osl_node, m') ∧
  ∃ hash info,
    loaded_shaders m' !! hash = Some info ∧
    osl_num_inputs example_osl_node
    = length (List.filter (λ p, negb (isoutput p))
                (List.filter (λ p, negb (unsupported p))
                   (query_params example_getparams info))) ∧
    (length (osl_inputs example_osl_node) ≤ osl_num_inputs example_osl_node)%nat.
Proof.
  intros r m'.
  assert (r = Ok (Some example_osl_node, m')) as Hrun by (vm_compute; reflexivity).
  split; [exact Hrun|].
  destruct (osl_node_sockets example_getparams true (example_manager ∅) "" "hash"
              "bytecode" example_osl_node m' Hrun)
    as (hash & info & Hinfo & Hnum & _ & _ & Hle & _).
  exists hash, info. split_and!; [exact Hinfo|exact Hnum|exact Hle].
Defined.

(** A bytecode is loaded into the shading system by the first request for
    its hash, and not by the second. *)
Lemma osl_node_bytecode_once_witness :
  let r := osl_node example_getparams true (example_manager ∅) "" "hash" "bytecode" in
  let m' := (result_or (None, example_manager ∅) r).2 in
  ss_calls m' = [SS_LoadMemoryCompiledShader "hash" "bytecode"] ∧
  osl_node example_getparams true m' "" "hash" "bytecode" = r.
Proof.
  intros r m'.
  destruct (osl_node_bytecode_once example_getparams (example_manager ∅) "hash" "bytecode"
              (result_or (None, example_manager ∅) r).1 m')
    as (_ & _ & _ & Hfirst & Hsecond).
  - vm_compute; reflexivity.
  - split.
    + apply Hfirst. reflexivity.
    + rewrite Hsecond. vm_compute; reflexivity.
Defined.

(** Two textures get the names "@svm0" and "@svm1". *)
Lemma texture_names_unique_witness :
  (inserted (foldl texture_call (no_textures, example_compiler ∅)
               [Texture_svm "filename" 3; Texture_ies "filename" 4]).1).*1
  = ["@svm0"; "@svm1"].
Proof.
  destruct (texture_names_unique [Texture_svm "filename" 3; Texture_ies "filename" 4]
              no_textures (example_compiler ∅))
    as (names & Hins & Hnames & _).
  - vm_compute. discriminate.
  - vm_compute. discriminate.
  - rewrite Hins, Hnames. vm_compute; reflexivity.
Defined.

(** The dependencies of the two inputs of the node D of the diamond, one
    call after the other: B and A, then C besides. *)
Lemma find_dependencies_accumulates_witness :
  @closed example_external diamond SHADER_TYPE_SURFACE {[2; 3; 4]}%nat ∧
  @find_dependencies example_external 0 diamond SHADER_TYPE_SURFACE {[2; 3; 4]}%nat
    (example_input "Right" (from 3)) = Ok {[2; 3; 4]}%nat.
Proof.
  assert (@closed example_external diamond SHADER_TYPE_SURFACE {[2; 4]}%nat) as Hclosed.
  { intros n p Hn Hd. apply (ranked_graph _ _ diamond_rank) in Hd as Hrank;
      [|vm_compute; reflexivity].
    apply depends_on_inv in Hd as (i & l & Hi & _ & Hl & <-).
    apply elem_of_union in Hn as [->%elem_of_singleton| ->%elem_of_singleton];
      vm_compute in Hi;
      repeat (apply elem_of_cons in Hi as [->|Hi]; [injection Hl as <-; set_solver|]);
      by apply elem_of_nil in Hi. }
  destruct (@find_dependencies_accumulates example_external 2 diamond
              SHADER_TYPE_SURFACE {[2; 4]}%nat (example_input "Right" (from 3))
              {[2; 3; 4]}%nat Hclosed)
    as (Hclosed' & _ & Hagain).
  - vm_compute; reflexivity.
  - split; [exact Hclosed'|apply Hagain].
Defined.

(** The dependencies of the two inputs of the node D of the diamond, in the
    one order and in the other. *)
Lemma find_dependencies_commutes_witness :
  ∃ d1 d2 d,
    @find_dependencies example_external 2 diamond SHADER_TYPE_SURFACE ∅
      (example_input "Left" (from 2)) = Ok d1 ∧
    @find_dependencies example_external 2 diamond SHADER_TYPE_SURFACE ∅
      (example_input "Right" (from 3)) = Ok d2 ∧
    @find_dependencies example_external 2 diamond SHADER_TYPE_SURFACE d1
      (example_input "Right" (from 3)) = Ok d ∧
    @find_dependencies example_external 2 diamond SHADER_TYPE_SURFACE d2
      (example_input "Left" (from 2)) = Ok d.
Proof.
  assert (@find_dependencies example_external 2 diamond SHADER_TYPE_SURFACE ∅
            (example_input "Left" (from 2)) = Ok {[2; 4]}%nat) as H1
    by (vm_compute; reflexivity).
  assert (@find_dependencies example_external 2 diamond SHADER_TYPE_SURFACE ∅
            (example_input "Right" (from 3)) = Ok {[3; 4]}%nat) as H2
    by (vm_compute; reflexivity).
  assert (@find_dependencies example_external 2 diamond SHADER_TYPE_SURFACE
            {[2; 4]}%nat (example_input "Right" (from 3)) = Ok {[2; 3; 4]}%nat) as H12
    by (vm_compute; reflexivity).
  assert (@find_dependencies example_external 2 diamond SHADER_TYPE_SURFACE
            {[3; 4]}%nat (example_input "Left" (from 2)) = Ok {[3; 2; 4]}%nat) as H21
    by (vm_compute; reflexivity).
  exists {[2; 4]}%nat, {[3; 4]}%nat, {[2; 3; 4]}%nat.
  split_and!; [exact H1|exact H2|exact H12|].
  rewrite (@find_dependencies_commutes example_external 2 diamond SHADER_TYPE_SURFACE
             ∅ (example_input "Left" (from 2)) (example_input "Right" (from 3))
             _ _ _ _ ltac:(by intros n p ?%elem_of_empty) H1 H12 H2 H21).
  exact H21.
Defined.

(** The two nodes of [cycle] depend on each other. *)
Lemma cycle_knot ty : @knot example_external cycle ty {[1; 2]}%nat.
Proof.
  intros n [->%elem_of_singleton| ->%elem_of_singleton]%elem_of_union.
  - exists 2%nat. split; [set_solver|]. apply depends_on_inv.
    exists (example_input "In" (from 2)), {| parent := 2%nat; output_name := "Out" |}.
    split_and!; [set_solver|by destruct ty|done..].
  - exists 1%nat. split; [set_solver|]. apply depends_on_inv.
    exists (example_input "In" (from 1)), {| parent := 1%nat; output_name := "Out" |}.
    split_and!; [set_solver|by destruct ty|done..].
Qed.

(** On the graph with a cycle [find_dependencies] does not return, whatever
    the fuel. *)
Lemma find_dependencies_cycle_witness :
  @find_dependencies example_external 1000 cycle SHADER_TYPE_SURFACE ∅
    (example_input "Surface" (from 1)) = Fail out_of_fuel.
Proof.
  apply (@find_dependencies_cycle example_external cycle SHADER_TYPE_SURFACE
           {[1; 2]}%nat (example_input "Surface" (from 1)) 1%nat).
  - apply cycle_knot.
  - set_solver.
  - by apply (reaches_link _ _ _ {| parent := 1%nat; output_name := "Out" |}).
Defined.

(** On the nodes of the graph with a cycle [generate_nodes] does not
    return. *)
Lemma generate_nodes_cycle_witness :
  ∃ e, generate_nodes 1000 cycle [1; 2]%nat
         (example_compiler_on (example_shader cycle 1 DISPLACE_BUMP)) = Fail e.
Proof.
  destruct (generate_nodes 1000 cycle [1; 2]%nat
              (example_compiler_on (example_shader cycle 1 DISPLACE_BUMP)))
    as [c'|e] eqn:Hrun; [|by exists e].
  exfalso. revert Hrun.
  apply (generate_nodes_cycle cycle {[1; 2]}%nat [1; 2]%nat 1%nat).
  - apply cycle_knot.
  - set_solver.
  - set_solver.
Defined.

(** The diamond is compiled for one user: the flags of the surface are set
    on a shader that has a surface only. *)
Lemma compile_flags_witness :
  ∃ c' shader',
    compile 4 (example_compiler ∅) (example_shader diamond 1 DISPLACE_BUMP)
    = Ok (c', shader') ∧
    (has_surface_emission shader' = true → has_surface shader' = true) ∧
    (has_volume_spatial_varying shader' = true → has_volume shader' = true).
Proof.
  assert (succeeded (compile 4 (example_compiler ∅)
                       (example_shader diamond 1 DISPLACE_BUMP)) = true) as Hok
    by (vm_compute; reflexivity).
  destruct (compile 4 (example_compiler ∅) (example_shader diamond 1 DISPLACE_BUMP))
    as [[c' shader']|e] eqn:Hrun; [|discriminate Hok].
  exists c', shader'. split; [reflexivity|].
  destruct (compile_flags 4 (example_compiler ∅)
              (example_shader diamond 1 DISPLACE_BUMP) c' shader' eq_refl Hrun)
    as (Hemission & _ & _ & _ & Hvolume & _).
  split; [exact Hemission|exact Hvolume].
Defined.

(** The program of the diamond in the Surface context: a group of five
    layers, the Output node last, every connection after the layers of its
    ends. *)
Lemma compile_type_program_witness :
  ∃ c' group body,
    compile_type 4 (example_compiler_on (example_shader diamond 1 DISPLACE_BUMP))
      "material" diamond SHADER_TYPE_SURFACE = Ok (c', group) ∧
    ss_calls (manager c')
    = SS_ShaderGroupBegin "material" :: body ++ [SS_ShaderGroupEnd] ∧
    layers body = node_compiles c' ∧ connected_after ∅ body.
Proof.
  assert (succeeded (compile_type 4
                       (example_compiler_on (example_shader diamond 1 DISPLACE_BUMP))
                       "material" diamond SHADER_TYPE_SURFACE) = true) as Hok
    by (vm_compute; reflexivity).
  destruct (compile_type 4 (example_compiler_on (example_shader diamond 1 DISPLACE_BUMP))
              "material" diamond SHADER_TYPE_SURFACE)
    as [[c' group]|e] eqn:Hrun; [|discriminate Hok].
  destruct (compile_type_program 4
              (example_compiler_on (example_shader diamond 1 DISPLACE_BUMP))
              "material" diamond SHADER_TYPE_SURFACE c' group Hrun)
    as (body & order & Hcalls & Hlog & Hlayers & _ & Hconnected).
  - vm_compute; reflexivity.
  - exists c', group, body. split; [reflexivity|].
    split_and!; [exact Hcalls| |exact Hconnected].
    rewrite Hlayers, Hlog. reflexivity.
Defined.

(** The messages of "shader.oso" at the times 5 and 6 differ. *)
Lemma hash_message_inj_witness :
  @shader_filepath_hash example_external "shader.oso" 5
  = @MD5_hex example_external (hash_message "shader.oso" 5) ∧
  (hash_message "shader.oso" 5 = hash_message "shader.oso" 6 → 5 = 6).
Proof.
  destruct (@hash_message_inj example_external "shader.oso" 5 "shader.oso" 6)
    as [Hhash Hinj]; [lia..|].
  split; [exact Hhash|]. intros H. apply (Hinj H).
Defined.

(** The diamond without a user: nothing is told to the shading system. *)
Lemma compile_unused_witness :
  ∃ c' shader',
    compile 0 (example_compiler ∅) (example_shader diamond 0 DISPLACE_BUMP)
    = Ok (c', shader') ∧
    manager c' = example_manager ∅ ∧ osl_surface_ref shader' = None.
Proof.
  destruct (compile_unused 0 (example_compiler ∅)
              (example_shader diamond 0 DISPLACE_BUMP) diamond false)
    as (c' & shader' & Hrun & Hm & _ & _ & _ & _ & _ & Href & _);
    [reflexivity|reflexivity|reflexivity|vm_compute; reflexivity|].
  exists c', shader'. split_and!; [exact Hrun|exact Hm|exact Href].
Defined.

(** "missing.oso" cannot be read: the first request for a node returns NULL,
    and the second a node without sockets. *)
Lemma osl_node_unreadable_witness :
  ∃ m1,
    osl_node example_getparams true (example_manager ∅) "missing.oso" "" ""
    = Ok (None, m1) ∧
    osl_node example_getparams true m1 "missing.oso" "" ""
    = Ok (Some (set_source "missing.oso" "" (OSLNode_create 0)), m1).
Proof.
  apply osl_node_unreadable; vm_compute; reflexivity.
Defined.

(** A scene of a shader that was compiled before: the update compiles
    nothing, tags the light manager for its emission, and inserts the two
    built-in textures. *)
Lemma host_update_idle_witness :
  ∃ h' scene',
    host_update_specific 0 true (λ _, false) example_host idle_scene = Ok (h', scene') ∧
    shaders scene' = shaders idle_scene ∧ light_manager_tags scene' = 1%nat ∧
    (inserted (host_textures h')).*1 = ["@ao"; "@bevel"].
Proof.
  destruct (host_update_idle 0 example_host idle_scene)
    as (h' & scene' & Hrun & Hshaders & _ & _ & Htags & Htextures & _).
  - intros sh ->%list_elem_of_singleton. split; [reflexivity|by eexists].
  - exists h', scene'. split_and!; [exact Hrun|exact Hshaders|exact Htags|].
    rewrite Htextures. reflexivity.
Defined.

(** The update is cancelled at the second shader of the scene: no texture
    is inserted, and the groups are not optimized. *)
Lemma host_update_cancelled_witness :
  ∃ h' scene',
    host_update_specific 4 true (λ k, (k =? 1)%nat) example_host example_scene
    = Ok (h', scene') ∧
    host_textures h' = no_textures ∧ optimize_all_groups_calls h' = 0%nat.
Proof.
  assert (succeeded (host_update_specific 4 true (λ k, (k =? 1)%nat) example_host
                       example_scene) = true) as Hok by (vm_compute; reflexivity).
  destruct (host_update_specific 4 true (λ k, (k =? 1)%nat) example_host example_scene)
    as [[h' scene']|e] eqn:Hrun; [|discriminate Hok].
  exists h', scene'. split; [reflexivity|].
  destruct (host_update_cancelled 4 (λ k, (k =? 1)%nat) example_host example_scene 1
              h' scene')
    as (h1 & scene1 & _ & _ & _ & _ & Htextures & Hcalls).
  - simpl. lia.
  - reflexivity.
  - intros j Hj. apply Nat.eqb_neq. lia.
  - exact Hrun.
  - split; [exact Htextures|exact Hcalls].
Defined.

(** The states of the example scene, with the first shader as the
    background. *)
Lemma device_update_states_witness :
  ∃ og' scene' flags',
    device_update_specific true 0 255 7 (example_manager ∅) no_globals example_scene
    = Ok (og', scene', flags') ∧
    surface_state og' = [Some 7%nat; None] ∧ background_state og' = Some 7%nat ∧
    flags' = 0.
Proof.
  assert (succeeded (device_update_specific true 0 255 7 (example_manager ∅)
                       no_globals example_scene) = true) as Hok
    by (vm_compute; reflexivity).
  destruct (device_update_specific true 0 255 7 (example_manager ∅) no_globals
              example_scene) as [[[og' scene'] flags']|e] eqn:Hrun; [|discriminate Hok].
  exists og', scene', flags'. split; [reflexivity|].
  destruct (device_update_states 0 255 7 (example_manager ∅) no_globals example_scene
              og' scene' flags' Hrun)
    as (Hsurface & _ & _ & _ & (sh & Hsh & Hbackground) & _ & _ & _ & _ & Hflags & _).
  split_and!; [exact Hsurface| |exact Hflags].
  injection Hsh as <-. exact Hbackground.
Defined.

(** The diamond is compiled for one user: one group is told to the shading
    system. *)
Lemma compile_groups_closed_witness :
  ∃ c' shader' extra,
    compile 4 (example_compiler ∅) (example_shader diamond 1 DISPLACE_BUMP)
    = Ok (c', shader') ∧
    ss_calls (manager c') = extra ∧ well_grouped false extra = true ∧
    groups_begun (manager c') = groups_in extra.
Proof.
  assert (succeeded (compile 4 (example_compiler ∅)
                       (example_shader diamond 1 DISPLACE_BUMP)) = true) as Hok
    by (vm_compute; reflexivity).
  destruct (compile 4 (example_compiler ∅) (example_shader diamond 1 DISPLACE_BUMP))
    as [[c' shader']|e] eqn:Hrun; [|discriminate Hok].
  destruct (compile_groups_closed 4 (example_compiler ∅)
              (example_shader diamond 1 DISPLACE_BUMP) c' shader' Hrun)
    as (extra & Hcalls & Hgrouped & Hgroups).
  exists c', shader', extra. split; [reflexivity|].
  split_and!; [exact Hcalls|exact Hgrouped|exact Hgroups].
Defined.

(** A surface and a displacement, with the displacement of both methods,
    are compiled for one user: the groups of the surface, of the bump and of
    the displacement are the three groups that were begun. *)
Lemma compile_group_refs_witness :
  ∃ c' shader',
    compile 2 (example_compiler ∅) (example_shader surface_and_displacement 1 DISPLACE_BOTH)
    = Ok (c', shader') ∧
    omap id [osl_surface_ref shader'; osl_surface_bump_ref shader';
             osl_volume_ref shader'; osl_displacement_ref shader']
    = seq 0 (groups_begun (manager c')).
Proof.
  assert (succeeded (compile 2 (example_compiler ∅)
                       (example_shader surface_and_displacement 1 DISPLACE_BOTH)) = true)
    as Hok by (vm_compute; reflexivity).
  destruct (compile 2 (example_compiler ∅)
              (example_shader surface_and_displacement 1 DISPLACE_BOTH))
    as [[c' shader']|e] eqn:Hrun; [|discriminate Hok].
  exists c', shader'. split; [reflexivity|].
  rewrite (compile_group_refs 2 (example_compiler ∅)
             (example_shader surface_and_displacement 1 DISPLACE_BOTH) c' shader'
             eq_refl Hrun).
  simpl. by rewrite Nat.sub_0_r.
Defined.

(** A table of one colour. *)
Lemma parameter_color_array_table_witness :
  parameter_color_array (λ _ _, 7) [ {| Float3.x := 1; Float3.y := 2; Float3.z := 3 |} ]
  = Ok (array_typedesc TypeColor 1, [1; 2; 3]).
Proof.
  apply (parameter_color_array_table (λ _ _, 7)
           [ {| Float3.x := 1; Float3.y := 2; Float3.z := 3 |} ]).
  vm_compute. discriminate.
Defined.
